(** * certvet: trust-validation engine

    A shallow embedding of the core of [ivoronin/certvet] (Go) and the
    properties its specification states about it:

    - [internal/truststore/fingerprint.go]: [ParseFingerprint],
      [Fingerprint.String];
    - [internal/version]: [Compare];
    - [internal/filter/matcher.go]: the operator strategies,
      [matchConstraint], [Filter.Match];
    - [internal/fetcher/fetcher.go]: [parseSCT];
    - [internal/validator/validator.go]: [ValidateChain],
      [validateAgainstStore], [checkConstraints], [parseVerifyError].

    Go strings are byte strings: they are modelled by [string] (a list of
    8-bit [ascii]).  Bytes that take part in arithmetic are [Z] values in
    [0, 256).  Go maps are [gmap]s, slices are lists.  What the code takes
    from outside the repository (the semver library, SHA-256, X.509 path
    verification, date formatting, the clock) is a parameter.

    The definitions come first, one module per Go package, each followed
    by the notions of the specification it is compared with; the proofs
    follow, and for each package a module of properties. *)

From Stdlib Require Import ZArith Lia Ascii String List Bool.
From Stdlib Require OrderedTypeEx.
From stdpp Require Import base gmap strings list fin_maps.

Local Open Scope Z_scope.

(* ===================================================================== *)
(** * Characters and the pieces of the Go standard library that are used  *)
(* ===================================================================== *)

Module GoString.

(** The byte value of a character. *)
Definition code (c : ascii) : Z := Z.of_N (N_of_ascii c).

Definition chars (s : string) : list ascii := list_ascii_of_string s.
Definition str (l : list ascii) : string := string_of_list_ascii l.

(** [c] lies in the closed range [lo-hi] of a character class. *)
Definition in_range (c : ascii) (r : ascii * ascii) : bool :=
  (code (fst r) <=? code c) && (code c <=? code (snd r)).

Definition in_class (rs : list (ascii * ascii)) (c : ascii) : bool :=
  existsb (in_range c) rs.

(** [strings.Join]. *)
Fixpoint Join (parts : list (list ascii)) (sep : list ascii) : list ascii :=
  match parts with
  | [] => []
  | [p] => p
  | p :: ps => p ++ sep ++ Join ps sep
  end.

(** The UTF-8 encodings of the code points for which [unicode.IsSpace]
    holds: tab, LF, VT, FF, CR, space, U+0085, U+00A0, U+1680,
    U+2000..U+200A, U+2028, U+2029, U+202F, U+205F and U+3000. *)
Definition byte_seq (l : list N) : list ascii := map ascii_of_N l.

Definition spaceEncodings : list (list ascii) :=
  map byte_seq
    [ [9]; [10]; [11]; [12]; [13]; [32];
      [194; 133]; [194; 160];
      [225; 154; 128];
      [226; 128; 128]; [226; 128; 129]; [226; 128; 130]; [226; 128; 131];
      [226; 128; 132]; [226; 128; 133]; [226; 128; 134]; [226; 128; 135];
      [226; 128; 136]; [226; 128; 137]; [226; 128; 138];
      [226; 128; 168]; [226; 128; 169]; [226; 128; 175];
      [226; 129; 159];
      [227; 128; 128] ]%N.

Fixpoint stripPrefix (p s : list ascii) : option (list ascii) :=
  match p, s with
  | [], _ => Some s
  | a :: p', b :: s' => if Ascii.eqb a b then stripPrefix p' s' else None
  | _ :: _, [] => None
  end.

(** Removes one leading white-space rune, if the input starts with one. *)
Fixpoint dropSpace (encs : list (list ascii)) (s : list ascii)
  : option (list ascii) :=
  match encs with
  | [] => None
  | e :: encs' =>
      match stripPrefix e s with
      | Some rest => Some rest
      | None => dropSpace encs' s
      end
  end.

(** [strings.TrimLeftFunc(s, unicode.IsSpace)]; every white-space rune
    takes at least one byte, so [length s] rounds are enough. *)
Fixpoint trimLeftFuel (fuel : nat) (encs : list (list ascii))
  (s : list ascii) : list ascii :=
  match fuel with
  | O => s
  | S fuel' =>
      match dropSpace encs s with
      | Some rest => trimLeftFuel fuel' encs rest
      | None => s
      end
  end.

Definition TrimLeftSpace (s : list ascii) : list ascii :=
  trimLeftFuel (length s) spaceEncodings s.

(** [strings.TrimRightFunc(s, unicode.IsSpace)]: the last rune is a
    white-space rune exactly when the input ends with its encoding. *)
Definition TrimRightSpace (s : list ascii) : list ascii :=
  rev (trimLeftFuel (length s) (map (@rev ascii) spaceEncodings) (rev s)).

(** [strings.TrimSpace]. *)
Definition TrimSpace (s : list ascii) : list ascii :=
  TrimRightSpace (TrimLeftSpace s).

(** ASCII lower-casing of one byte ([A-Z] to [a-z]). *)
Definition lower (c : ascii) : ascii :=
  if in_range c ("A"%char, "Z"%char)
  then ascii_of_N (N_of_ascii c + 32) else c.

(** All 256 byte values. *)
Definition all_ascii : list ascii := map ascii_of_nat (seq 0 256).

(** A byte that starts (ends) no white-space rune. *)
Definition startsNoSpace (encs : list (list ascii)) (c : ascii) : bool :=
  forallb (fun e => match e with
                    | [] => false
                    | h :: _ => negb (Ascii.eqb h c)
                    end) encs.

End GoString.

(* ===================================================================== *)
(** * Regular expressions (the fragment of Go's [regexp] that is used)    *)
(* ===================================================================== *)

Module Regexp.
Import GoString.

(** Abstract syntax.  [Cls] is a bracket expression given by its ranges;
    the counted repetition [r{n}] is [rep n r]. *)
Inductive regexp : Type :=
  | Void : regexp
  | Eps : regexp
  | Cls : list (ascii * ascii) -> regexp
  | Cat : regexp -> regexp -> regexp
  | Alt : regexp -> regexp -> regexp.

Fixpoint rep (n : nat) (r : regexp) : regexp :=
  match n with
  | O => Eps
  | S n' => Cat r (rep n' r)
  end.

Fixpoint nullable (r : regexp) : bool :=
  match r with
  | Void => false
  | Eps => true
  | Cls _ => false
  | Cat r1 r2 => nullable r1 && nullable r2
  | Alt r1 r2 => nullable r1 || nullable r2
  end.

(** Brzozowski derivative. *)
Fixpoint deriv (c : ascii) (r : regexp) : regexp :=
  match r with
  | Void => Void
  | Eps => Void
  | Cls rs => if in_class rs c then Eps else Void
  | Cat r1 r2 =>
      if nullable r1
      then Alt (Cat (deriv c r1) r2) (deriv c r2)
      else Cat (deriv c r1) r2
  | Alt r1 r2 => Alt (deriv c r1) (deriv c r2)
  end.

(** Whole-input match: [MatchString] of a pattern each of whose
    alternatives is anchored with [^] and [$]. *)
Fixpoint matches (r : regexp) (s : list ascii) : bool :=
  match s with
  | [] => nullable r
  | c :: s' => matches (deriv c r) s'
  end.

(** The language of a regular expression. *)
Fixpoint lang (r : regexp) (s : list ascii) : Prop :=
  match r with
  | Void => False
  | Eps => s = []
  | Cls rs => exists c, s = [c] /\ in_class rs c = true
  | Cat r1 r2 => exists s1 s2, s = s1 ++ s2 /\ lang r1 s1 /\ lang r2 s2
  | Alt r1 r2 => lang r1 s \/ lang r2 s
  end.

(** A character class that does not tell the two cases of a letter
    apart, and a regular expression built from such classes. *)
Definition classStable (cl : list (ascii * ascii)) : Prop :=
  forall c c', lower c = lower c' -> in_class cl c = in_class cl c'.

Fixpoint stable (r : regexp) : Prop :=
  match r with
  | Void | Eps => True
  | Cls cl => classStable cl
  | Cat r1 r2 | Alt r1 r2 => stable r1 /\ stable r2
  end.

(** A byte that only itself lower-cases to. *)
Definition inert (b : ascii) : bool :=
  forallb (fun x => implb (Ascii.eqb (lower x) (lower b)) (Ascii.eqb x b))
          all_ascii.

End Regexp.

(* ===================================================================== *)
(** * internal/truststore/fingerprint.go                                  *)
(* ===================================================================== *)

Module Fingerprint.
Import GoString Regexp.

(** [type Fingerprint [sha256.Size]byte]: the 32 bytes of the array. *)
Definition Fingerprint : Type := list Z.

Definition sha256Size : nat := 32.
Definition sha256Pairs : nat := 32.

Definition isByte (b : Z) : Prop := 0 <= b < 256.

(** A value of the array type: 32 entries, each one byte. *)
Definition wf (f : Fingerprint) : Prop :=
  length f = sha256Size /\ Forall isByte f.

Definition hexClass : list (ascii * ascii) :=
  [("0", "9"); ("A", "F"); ("a", "f")]%char.

Definition hexDigit : regexp := Cls hexClass.

(** [^[0-9A-Fa-f]{64}$] *)
Definition rawHexRe : regexp := rep 64 hexDigit.

(** [^[0-9A-Fa-f]{2}(SEP[0-9A-Fa-f]{2}){31}$] for one separator. *)
Definition separatedBy (sep : ascii) : regexp :=
  Cat (rep 2 hexDigit) (rep 31 (Cat (Cls [(sep, sep)]) (rep 2 hexDigit))).

(** The three alternatives of [separatorRe]: [:], [-] and the space. *)
Definition separatorRe : regexp :=
  Alt (separatedBy ":") (Alt (separatedBy "-") (separatedBy " ")).

(** Tokens of [separatedLexer]. *)
Inductive token : Type :=
  | Pair : list ascii -> token
  | Sep : ascii -> token.

Definition sepClass : list (ascii * ascii) :=
  [(":", ":"); (" ", " "); ("-", "-")]%char.

(** The lexer tries its rules in order at the current position: [Pair]
    ([[0-9A-Fa-f]{2}]), then [Sep] ([[: -]]); no rule matching is a
    lexing error. *)
Fixpoint lex (s : list ascii) : option (list token) :=
  match s with
  | [] => Some []
  | c :: s' =>
      match s' with
      | d :: s'' =>
          if in_class hexClass c && in_class hexClass d
          then option_map (cons (Pair [c; d])) (lex s'')
          else if in_class sepClass c
               then option_map (cons (Sep c)) (lex s')
               else None
      | [] => if in_class sepClass c then Some [Sep c] else None
      end
  end.

(** The repetition [( Sep @Pair )*] followed by the end of the input. *)
Fixpoint parseTail (ts : list token) : option (list (list ascii)) :=
  match ts with
  | [] => Some []
  | Sep _ :: Pair p :: ts' => option_map (cons p) (parseTail ts')
  | _ => None
  end.

(** The grammar [@Pair ( Sep @Pair )*]: the captured [Pairs]. *)
Definition parseGrammar (ts : list token) : option (list (list ascii)) :=
  match ts with
  | Pair p :: ts' => option_map (cons p) (parseTail ts')
  | _ => None
  end.

(** [separatedParser.ParseString]. *)
Definition ParseString (s : list ascii) : option (list (list ascii)) :=
  match lex s with
  | Some ts => parseGrammar ts
  | None => None
  end.

(** [encoding/hex]: the value of one hex digit. *)
Definition fromHexChar (c : ascii) : option Z :=
  if in_range c ("0", "9")%char then Some (code c - code "0")
  else if in_range c ("a", "f")%char then Some (code c - code "a" + 10)
  else if in_range c ("A", "F")%char then Some (code c - code "A" + 10)
  else None.

(** [hex.DecodeString]: fails on a character that is no hex digit and
    on an odd length. *)
Fixpoint DecodeString (s : list ascii) : option (list Z) :=
  match s with
  | [] => Some []
  | [_] => None
  | p :: q :: s' =>
      match fromHexChar p, fromHexChar q with
      | Some a, Some b =>
          option_map (cons (Z.lor (Z.shiftl a 4) b)) (DecodeString s')
      | _, _ => None
      end
  end.

Inductive ParseError : Type :=
  | ErrEmpty            (* "empty fingerprint" *)
  | ErrFormat           (* "invalid fingerprint format: must be ..." *)
  | ErrParser           (* "invalid fingerprint format: <parser error>" *)
  | ErrLength (got : nat) (* "invalid fingerprint length: got .. pairs" *)
  | ErrHex.             (* "invalid hex: ..." *)

(** [copy(f[:], bytes)] into the zero array. *)
Definition copyInto (bytes : list Z) : Fingerprint :=
  take sha256Size (bytes ++ repeat 0 sha256Size).

Definition ParseFingerprint (input : string) : Fingerprint + ParseError :=
  let input := TrimSpace (chars input) in
  match input with
  | [] => inr ErrEmpty
  | _ =>
      let hexStr :=
        if matches rawHexRe input then inl input
        else if negb (matches separatorRe input) then inr ErrFormat
        else match ParseString input with
             | None => inr ErrParser
             | Some pairs =>
                 if negb (Nat.eqb (length pairs) sha256Pairs)
                 then inr (ErrLength (length pairs))
                 else inl (Join pairs [])
             end in
      match hexStr with
      | inr e => inr e
      | inl hexStr =>
          match DecodeString hexStr with
          | None => inr ErrHex
          | Some bytes => inl (copyInto bytes)
          end
      end
  end.

(** [fmt.Sprintf("%02X", b)] for a byte. *)
Definition upperDigit (d : Z) : ascii :=
  if d <? 10 then ascii_of_N (Z.to_N (code "0" + d))
  else ascii_of_N (Z.to_N (code "A" + (d - 10))).

Definition Sprintf02X (b : Z) : list ascii :=
  [upperDigit (Z.shiftr b 4); upperDigit (Z.land b 15)].

(** [Fingerprint.String]: the canonical ["AA:BB:..."] form. *)
Definition String (f : Fingerprint) : string :=
  str (Join (map Sprintf02X f) [":"%char]).

Definition is_ok {A E} (r : A + E) : bool :=
  match r with inl _ => true | inr _ => false end.

End Fingerprint.


(* ===================================================================== *)
(** * The fingerprint formats, in the words of the specification          *)
(* ===================================================================== *)

Module FingerprintSpec.
Import GoString Regexp Fingerprint.

Definition isHex (c : ascii) : Prop := in_class hexClass c = true.

(** A two-character hex group. *)
Definition hexGroup (g : list ascii) : Prop :=
  length g = 2%nat /\ Forall isHex g.

(** (a) 64 contiguous hex characters. *)
Definition rawShape (t : list ascii) : Prop :=
  length t = 64%nat /\ Forall isHex t.

(** The separators [{':','-',' '}]. *)
Definition isSep (sep : ascii) : Prop :=
  (sep = ":" \/ sep = "-" \/ sep = " ")%char.

(** (b) 32 two-character hex groups joined by a single, consistent
    separator drawn from [{':','-',' '}]. *)
Definition separatedShape (t : list ascii) : Prop :=
  exists (sep : ascii) (groups : list (list ascii)),
    isSep sep /\
    length groups = 32%nat /\ Forall hexGroup groups /\
    t = Join groups [sep].

Definition acceptedShape (t : list ascii) : Prop :=
  rawShape t \/ separatedShape t.

(** The canonical textual form: 32 upper-case hex byte pairs joined
    by [:]. *)
Definition isUpperHex (c : ascii) : Prop :=
  in_class [("0", "9"); ("A", "F")]%char c = true.

Definition canonicalForm (t : list ascii) : Prop :=
  exists groups : list (list ascii),
    length groups = 32%nat /\
    Forall (fun g => length g = 2%nat /\ Forall isUpperHex g) groups /\
    t = Join groups [":"%char].

(** Two inputs that differ at most in the case of their letters. *)
Definition sameUpToCase (s s' : list ascii) : Prop :=
  map lower s = map lower s'.

(** The hex digits of an input, lower-cased, separators left out. *)
Definition hexDigits (s : list ascii) : list ascii :=
  map lower (List.filter (in_class hexClass) s).

(** What follows a first group: each further group behind a separator. *)
Definition sepTail (sep : ascii) (gs : list (list ascii)) : list ascii :=
  concat (map (cons sep) gs).

(** The tokens of [sepTail]. *)
Definition sepTokens (sep : ascii) (gs : list (list ascii)) : list token :=
  flat_map (fun g => [Sep sep; Pair g]) gs.

(** The body of [ParseFingerprint] behind [strings.TrimSpace], as a
    function of the trimmed input [t]. *)
Definition parseTrimmed (t : list ascii) : Fingerprint + ParseError :=
  match t with
  | [] => inr ErrEmpty
  | _ =>
      match (if matches rawHexRe t then inl t
             else if negb (matches separatorRe t) then inr ErrFormat
             else match ParseString t with
                  | None => inr ErrParser
                  | Some pairs =>
                      if negb (Nat.eqb (length pairs) sha256Pairs)
                      then inr (ErrLength (length pairs))
                      else inl (Join pairs [])
                  end) with
      | inr e => inr e
      | inl hexStr =>
          match DecodeString hexStr with
          | None => inr ErrHex
          | Some bytes => inl (copyInto bytes)
          end
      end
  end.

(** Two optional results that are both absent, or both present and
    equal up to letter case. *)
Definition optCase (o o' : option (list ascii)) : Prop :=
  match o, o' with
  | Some r, Some r' => sameUpToCase r r'
  | None, None => True
  | _, _ => False
  end.

(** A byte of the encoding of some white-space rune. *)
Definition isSpaceByte (c : ascii) : Prop :=
  exists e, In e spaceEncodings /\ In c e.

(** A byte sequence without hex digits. *)
Definition noHex (e : list ascii) : bool :=
  forallb (fun c => negb (in_class hexClass c)) e.

End FingerprintSpec.

(* ===================================================================== *)
(** * The version library                                                 *)
(* ===================================================================== *)

(** [github.com/Masterminds/semver/v3] is a dependency of the repository
    and no part of its sources: [version.Compare] and the filter use its
    [NewVersion] and the [Compare] method of its [Version].  They are
    taken as an interface; [Laws] states what the code relies on. *)
Module Semver.

Class Lib : Type := {
  Version : Type;
  NewVersion : string -> option Version;
  Compare : Version -> Version -> Z
}.

Definition isDigit (c : ascii) : bool :=
  GoString.in_range c ("0", "9")%char.

(** Splits at every ['.'] ([strings.Split]). *)
Fixpoint splitDots (cur : list ascii) (s : list ascii)
  : list (list ascii) :=
  match s with
  | [] => [rev cur]
  | c :: s' =>
      if Ascii.eqb c "." then rev cur :: splitDots [] s'
      else splitDots (c :: cur) s'
  end.

(** The value of a non-empty run of decimal digits. *)
Fixpoint digitsValue (acc : Z) (s : list ascii) : option Z :=
  match s with
  | [] => Some acc
  | c :: s' =>
      if isDigit c
      then digitsValue (10 * acc + (GoString.code c - GoString.code "0")) s'
      else None
  end.

Definition component (s : list ascii) : option Z :=
  match s with
  | [] => None
  | _ => digitsValue 0 s
  end.

Fixpoint components (parts : list (list ascii)) : option (list Z) :=
  match parts with
  | [] => Some []
  | p :: ps =>
      match component p, components ps with
      | Some x, Some xs => Some (x :: xs)
      | _, _ => None
      end
  end.

(** The components of a dotted-numeric string (["17"], ["17.4"],
    ["12.1.3"]); [None] for every other string. *)
Definition dottedNumeric (s : string) : option (list Z) :=
  components (splitDots [] (GoString.chars s)).

Definition sign (x y : Z) : Z :=
  if x <? y then -1 else if y <? x then 1 else 0.

Fixpoint compareLex (a b : list Z) : Z :=
  match a, b with
  | x :: a', y :: b' => if sign x y =? 0 then compareLex a' b' else sign x y
  | _, _ => 0
  end.

Definition pad (n : nat) (a : list Z) : list Z :=
  a ++ repeat 0 (n - length a).

(** Component-wise numeric comparison, a missing component counting
    as 0 (bare ["15"] is ["15.0.0"]). *)
Definition compareComponents (a b : list Z) : Z :=
  let n := Nat.max (length a) (length b) in
  compareLex (pad n a) (pad n b).

Class Laws (L : Lib) : Prop := {
  (** [Compare] returns -1, 0 or 1. *)
  Compare_sign : forall v w : Version,
    Compare v w = -1 \/ Compare v w = 0 \/ Compare v w = 1;
  (** The sentinel is no version. *)
  NewVersion_current : NewVersion "current" = None;
  (** Dotted-numeric strings that are accepted compare component-wise
      numerically. *)
  Compare_numeric : forall a b va vb ca cb,
    NewVersion a = Some va -> NewVersion b = Some vb ->
    dottedNumeric a = Some ca -> dottedNumeric b = Some cb ->
    Compare va vb = compareComponents ca cb
}.

(** Modelled from the spec: the version library, absent from the
    sources.  "Two dotted-numeric strings compare component-wise
    numerically (semver-compatible: bare "15" ≡ "15.0.0")"; every other
    string "fails numeric parsing". *)
Definition specLib : Lib := {|
  Version := list Z;
  NewVersion := dottedNumeric;
  Compare := compareComponents
|}.

End Semver.

(* ===================================================================== *)
(** * internal/version                                                    *)
(* ===================================================================== *)

Module version.
Section WithSemver.
Context {L : Semver.Lib}.

Definition Current : string := "current".

(** Go's [a < b] on strings: byte-wise lexicographic. *)
Definition strLess (a b : string) : bool := String.ltb a b.

Definition Compare (a b : string) : Z :=
  if String.eqb a Current && String.eqb b Current then 0
  else if String.eqb a Current then 1
  else if String.eqb b Current then -1
  else
    match Semver.NewVersion a, Semver.NewVersion b with
    | Some va, Some vb => Semver.Compare va vb
    | Some _, None => -1
    | None, Some _ => 1
    | None, None =>
        if strLess a b then -1
        else if strLess b a then 1
        else 0
    end.

Definition LessThan (a b : string) : bool := Compare a b <? 0.
Definition GreaterOrEqual (a b : string) : bool := Compare a b >=? 0.
Definition CompareAsc (a b : string) : bool := LessThan a b.

End WithSemver.

(** Lexicographic string order as a sign, in the words of the
    specification. *)
Definition lexOrder (a b : string) : Z :=
  match String.compare a b with
  | Lt => -1
  | Eq => 0
  | Gt => 1
  end.

End version.

(* ===================================================================== *)
(** * internal/truststore/types.go                                        *)
(* ===================================================================== *)

Module truststore.
Import Fingerprint.

(** [time.Time]: an instant, in nanoseconds since the Unix epoch. *)
Definition Time : Type := Z.

(** [t.After(u)]. *)
Definition After (t u : Time) : bool := u <? t.

(** [time.Unix(sec, nsec)]. *)
Definition Unix (sec nsec : Z) : Time := sec * 1000000000 + nsec.

Definition Platform : Type := string.

Definition PlatformIOS : Platform := "ios".
Definition PlatformIPadOS : Platform := "ipados".
Definition PlatformMacOS : Platform := "macos".
Definition PlatformTVOS : Platform := "tvos".
Definition PlatformVisionOS : Platform := "visionos".
Definition PlatformWatchOS : Platform := "watchos".
Definition PlatformAndroid : Platform := "android".
Definition PlatformChrome : Platform := "chrome".
Definition PlatformWindows : Platform := "windows".

Module PlatformVersion.
Record t : Type := { Platform : string; Version : string }.
End PlatformVersion.

Module Constraints.
Record t : Type := {
  NotBeforeMax : option Time;
  DistrustDate : option Time;
  SCTNotAfter : option Time
}.

Definition empty : t :=
  {| NotBeforeMax := None; DistrustDate := None; SCTNotAfter := None |}.

Definition IsEmpty (c : t) : bool :=
  match NotBeforeMax c, DistrustDate c, SCTNotAfter c with
  | None, None, None => true
  | _, _, _ => false
  end.
End Constraints.

Module Store.
Record t : Type := {
  Platform : string;
  Version : string;
  Fingerprints : list Fingerprint;
  Constraints : gmap Fingerprint Constraints.t
}.

(** A [nil] map and a map without the key both give the zero value. *)
Definition ConstraintFor (s : t) (fp : Fingerprint) : Constraints.t :=
  default Constraints.empty (Constraints s !! fp).
End Store.

Inductive SCTSource : Type := SCTSourceTLS | SCTSourceEmbedded.

Module SCT.
Record t : Type := {
  Timestamp : Time;
  LogID : list Z;
  Source : SCTSource
}.
End SCT.

(** The fields of [x509.Certificate] that the engine reads. *)
Module Certificate.
Record t : Type := {
  Raw : list Z;
  NotBefore : Time;
  SubjectCommonName : string;
  SubjectOrganization : list string
}.
End Certificate.

Module CertChain.
Record t : Type := {
  Endpoint : string;
  ServerCert : Certificate.t;
  Intermediates : list Certificate.t;
  SCTs : list SCT.t
}.
End CertChain.

Module TrustResult.
Record t : Type := {
  Platform : PlatformVersion.t;
  Trusted : bool;
  MatchedCA : string;
  VerifiedChain : list Certificate.t;
  FailureReason : string
}.

(** The zero value. *)
Definition zero : t := {|
  Platform := {| PlatformVersion.Platform := ""; PlatformVersion.Version := "" |};
  Trusted := false;
  MatchedCA := "";
  VerifiedChain := [];
  FailureReason := ""
|}.
End TrustResult.

End truststore.

(* ===================================================================== *)
(** * internal/filter                                                     *)
(* ===================================================================== *)

Module filter.
Import truststore.
Section WithSemver.
Context {L : Semver.Lib}.

Definition Operator : Type := string.

Definition OpEqual : Operator := "=".
Definition OpGreater : Operator := ">".
Definition OpLess : Operator := "<".
Definition OpGreaterEqual : Operator := ">=".
Definition OpLessEqual : Operator := "<=".

Record Constraint : Type := {
  Platform : truststore.Platform;
  Operator_ : Operator;
  Version : option Semver.Version;
  IsCurrent : bool
}.

Record Filter : Type := { Constraints : list Constraint }.

(** The interface [operatorStrategy] and its five implementations. *)
Record operatorStrategy : Type := {
  MatchCurrentConstraint : bool -> bool;
  MatchCurrentVersion : bool;
  MatchSemver : Z -> bool
}.

Definition equalStrategy : operatorStrategy := {|
  MatchCurrentConstraint := fun testIsCurrent => testIsCurrent;
  MatchCurrentVersion := false;
  MatchSemver := fun cmp => cmp =? 0
|}.

Definition greaterStrategy : operatorStrategy := {|
  MatchCurrentConstraint := fun _ => false;
  MatchCurrentVersion := true;
  MatchSemver := fun cmp => cmp >? 0
|}.

Definition lessStrategy : operatorStrategy := {|
  MatchCurrentConstraint := fun testIsCurrent => negb testIsCurrent;
  MatchCurrentVersion := false;
  MatchSemver := fun cmp => cmp <? 0
|}.

Definition greaterEqualStrategy : operatorStrategy := {|
  MatchCurrentConstraint := fun testIsCurrent => testIsCurrent;
  MatchCurrentVersion := true;
  MatchSemver := fun cmp => cmp >=? 0
|}.

Definition lessEqualStrategy : operatorStrategy := {|
  MatchCurrentConstraint := fun _ => true;
  MatchCurrentVersion := false;
  MatchSemver := fun cmp => cmp <=? 0
|}.

Definition operatorStrategies : gmap string operatorStrategy :=
  <[OpEqual := equalStrategy]>
  (<[OpGreater := greaterStrategy]>
  (<[OpLess := lessStrategy]>
  (<[OpGreaterEqual := greaterEqualStrategy]>
  (<[OpLessEqual := lessEqualStrategy]> ∅)))).

Definition matchConstraint (c : Constraint) (ver : string) : bool :=
  if match Version c with None => true | Some _ => false end
     && negb (IsCurrent c) then true
  else
    match operatorStrategies !! Operator_ c with
    | None => false
    | Some strategy =>
        if IsCurrent c
        then MatchCurrentConstraint strategy (String.eqb ver version.Current)
        else if String.eqb ver version.Current
        then MatchCurrentVersion strategy
        else
          match Semver.NewVersion ver with
          | None => false
          | Some v =>
              match Version c with
              | Some cv => MatchSemver strategy (Semver.Compare v cv)
              | None => false
              end
          end
    end.

(** [byPlatform[c.Platform] = append(byPlatform[c.Platform], c)]. *)
Definition groupByPlatform (cs : list Constraint)
  : gmap string (list Constraint) :=
  foldl (fun m c => <[Platform c := default [] (m !! Platform c) ++ [c]]> m)
        ∅ cs.

(** The method [Match] of [Filter]; the receiver may be [nil]. *)
Definition Match (f : option Filter) (pv : PlatformVersion.t) : bool :=
  match f with
  | None => true
  | Some f =>
      if Nat.eqb (length (Constraints f)) 0 then true
      else
        match groupByPlatform (Constraints f) !! PlatformVersion.Platform pv with
        | None => false
        | Some constraints =>
            forallb (fun c => matchConstraint c (PlatformVersion.Version pv))
                    constraints
        end
  end.

Definition FilterStores (stores : list Store.t) (f : option Filter)
  : list Store.t :=
  match f with
  | None => stores
  | Some _ =>
      List.filter
        (fun s => Match f {| PlatformVersion.Platform := Store.Platform s;
                             PlatformVersion.Version := Store.Version s |})
        stores
  end.

End WithSemver.


(** The five operators. *)
Definition isOperator (op : string) : Prop :=
  op = "=" \/ op = ">" \/ op = "<" \/ op = ">=" \/ op = "<=".


End filter.

(* ===================================================================== *)
(** * internal/fetcher/fetcher.go                                         *)
(* ===================================================================== *)

Module fetcher.
Import truststore.

Definition sctVersion1 : Z := 0.
Definition sctLogIDSize : nat := 32.
Definition sctTimestampSize : nat := 8.
Definition sctMinSize : nat := 45.
Definition sctLogIDOffset : nat := 1.
Definition sctTimestampOffset : nat := 33.
Definition msPerSecond : Z := 1000.
Definition nsPerMs : Z := 1000000.

(** Conversions to [uint64] and [int64], with their wrap-around. *)
Definition uint64 (z : Z) : Z := z mod 2 ^ 64.
Definition int64 (z : Z) : Z := (z + 2 ^ 63) mod 2 ^ 64 - 2 ^ 63.

(** [data[lo:hi]]. *)
Definition slice (data : list Z) (lo hi : nat) : list Z :=
  take (hi - lo) (drop lo data).

(** [binary.BigEndian.Uint64]. *)
Definition BigEndianUint64 (b : list Z) : Z :=
  match b with
  | b0 :: b1 :: b2 :: b3 :: b4 :: b5 :: b6 :: b7 :: _ =>
      Z.lor b7 (Z.lor (Z.shiftl b6 8) (Z.lor (Z.shiftl b5 16)
        (Z.lor (Z.shiftl b4 24) (Z.lor (Z.shiftl b3 32)
          (Z.lor (Z.shiftl b2 40) (Z.lor (Z.shiftl b1 48)
            (Z.shiftl b0 56)))))))
  | _ => 0
  end.

Inductive SCTError : Type :=
  | ErrTooShort (len : nat)       (* "SCT too short: %d bytes" *)
  | ErrVersion (version : Z).     (* "unsupported SCT version: %d" *)

Definition parseSCT (data : list Z) (source : SCTSource)
  : SCT.t + SCTError :=
  if (length data <? sctMinSize)%nat then inr (ErrTooShort (length data))
  else
    let version := nth 0 data 0 in
    if negb (version =? sctVersion1) then inr (ErrVersion version)
    else
      let logID :=
        slice data sctLogIDOffset (sctLogIDOffset + sctLogIDSize) in
      let timestampMs :=
        BigEndianUint64
          (slice data sctTimestampOffset
                 (sctTimestampOffset + sctTimestampSize)) in
      let timestamp :=
        Unix (int64 (timestampMs / msPerSecond))
             (int64 (uint64 ((timestampMs mod msPerSecond) * nsPerMs))) in
      inl {| SCT.Timestamp := timestamp;
             SCT.LogID := logID;
             SCT.Source := source |}.

(** The big-endian value of a byte sequence, most significant first. *)
Fixpoint bigEndianValue (acc : Z) (b : list Z) : Z :=
  match b with
  | [] => acc
  | x :: b' => bigEndianValue (256 * acc + x) b'
  end.

(** An instant given in milliseconds since the Unix epoch. *)
Definition ofMilliseconds (ms : Z) : Time := ms * 1000000.

End fetcher.

(* ===================================================================== *)
(** * internal/validator/validator.go                                     *)
(* ===================================================================== *)

Module validator.
Import Fingerprint truststore.

(** [x509.InvalidReason]. *)
Inductive InvalidReason : Type :=
  | NotAuthorizedToSign
  | Expired
  | CANotAuthorizedForThisName
  | TooManyIntermediates
  | IncompatibleUsage
  | NameMismatch
  | OtherReason (code : Z).

(** The errors of [Verify] of [x509.Certificate], as far as
    [parseVerifyError] tells them apart. *)
Inductive VerifyError : Type :=
  | UnknownAuthorityError
  | CertificateInvalidError (reason : InvalidReason) (detail : string)
  | HostnameError (host : string)
  | OtherError (text : string).

(** [x509.VerifyOptions]; a [CertPool] is given by the certificates
    added to it. *)
Record VerifyOptions : Type := {
  Roots : list Certificate.t;
  Intermediates : list Certificate.t
}.

(** The host environment: the certificate registry [truststore.Certs],
    [sha256.Sum256], the X.509 path verification primitive, the text of
    an error, and [time.Time.Format] with [truststore.DateFormat]. *)
Class Host : Type := {
  Certs : gmap Fingerprint Certificate.t;
  Sum256 : list Z -> Fingerprint;
  Verify : Certificate.t -> VerifyOptions ->
           list (list Certificate.t) + VerifyError;
  ErrorText : VerifyError -> string;
  FormatDate : Time -> string
}.

Section WithHost.
Context {H : Host}.

Definition getCertByFingerprint (fp : Fingerprint) : option Certificate.t :=
  Certs !! fp.

Definition FingerprintFromCert (cert : Certificate.t) : Fingerprint :=
  Sum256 (Certificate.Raw cert).

Definition parseVerifyError (err : VerifyError) : string :=
  match err with
  | UnknownAuthorityError => "certificate signed by unknown authority"
  | CertificateInvalidError reason detail =>
      match reason with
      | Expired => "certificate has expired or is not yet valid"
      | NotAuthorizedToSign =>
          "certificate is not authorized to sign other certificates"
      | TooManyIntermediates =>
          "too many intermediates for path length constraint"
      | IncompatibleUsage =>
          "certificate specifies an incompatible key usage"
      | NameMismatch => "issuer name does not match subject"
      | CANotAuthorizedForThisName => "CA is not authorized for this name"
      | OtherReason _ =>
          if negb (String.eqb detail "") then detail else ErrorText err
      end
  | HostnameError host => "certificate is not valid for " +:+ host
  | OtherError _ => ErrorText err
  end.

(** The loop over [chain.SCTs] with its [break]. *)
Fixpoint hasValidSCT (scts : list SCT.t) (deadline : Time) : bool :=
  match scts with
  | [] => false
  | sct :: rest =>
      if negb (After (SCT.Timestamp sct) deadline) then true
      else hasValidSCT rest deadline
  end.

(** [now] is the reading of [time.Now()]. *)
Definition checkConstraints (now : Time) (chain : CertChain.t)
  (constraints : Constraints.t) : string :=
  if Constraints.IsEmpty constraints then ""
  else
    let checkSCTNotAfter :=
      match Constraints.SCTNotAfter constraints with
      | Some d =>
          if Nat.eqb (length (CertChain.SCTs chain)) 0
          then "SCT required but none found (deadline: " +:+
               FormatDate d +:+ ")"
          else if negb (hasValidSCT (CertChain.SCTs chain) d)
          then "all SCTs issued after deadline (" +:+ FormatDate d +:+ ")"
          else ""
      | None => ""
      end in
    let checkDistrustDate :=
      match Constraints.DistrustDate constraints with
      | Some d =>
          if After now d
          then "CA distrusted since " +:+ FormatDate d
          else checkSCTNotAfter
      | None => checkSCTNotAfter
      end in
    match Constraints.NotBeforeMax constraints with
    | Some d =>
        if After (Certificate.NotBefore (CertChain.ServerCert chain)) d
        then "certificate issued after trust cutoff (" +:+
             FormatDate (Certificate.NotBefore (CertChain.ServerCert chain))
             +:+ " > " +:+ FormatDate d +:+ ")"
        else checkDistrustDate
    | None => checkDistrustDate
    end.

(** The loop over [store.Fingerprints]: the certificates that resolve,
    and the fingerprints that do not. *)
Definition resolveStep (acc : list Certificate.t * gmap Fingerprint bool)
  (fp : Fingerprint) : list Certificate.t * gmap Fingerprint bool :=
  match getCertByFingerprint fp with
  | Some cert => (fst acc ++ [cert], snd acc)
  | None => (fst acc, <[fp := true]> (snd acc))
  end.

Definition resolveRoots (fps : list Fingerprint)
  : list Certificate.t * gmap Fingerprint bool :=
  foldl resolveStep ([], ∅) fps.

Definition failed (pv : PlatformVersion.t) (reason : string)
  : TrustResult.t :=
  {| TrustResult.Platform := pv;
     TrustResult.Trusted := false;
     TrustResult.MatchedCA := "";
     TrustResult.VerifiedChain := [];
     TrustResult.FailureReason := reason |}.

Definition validateAgainstStore (now : Time) (chain : CertChain.t)
  (store : Store.t) : TrustResult.t :=
  let pv := {| PlatformVersion.Platform := Store.Platform store;
               PlatformVersion.Version := Store.Version store |} in
  let '(rootCerts, missingFingerprints) :=
    resolveRoots (Store.Fingerprints store) in
  if Nat.eqb (length rootCerts) 0
  then failed pv "no valid root certificates in trust store"
  else
    let opts := {| Roots := rootCerts;
                   Intermediates := CertChain.Intermediates chain |} in
    match Verify (CertChain.ServerCert chain) opts with
    | inr err =>
        match last (CertChain.Intermediates chain) with
        | Some lastCert =>
            let fp := FingerprintFromCert lastCert in
            if default false (missingFingerprints !! fp)
            then failed pv ("chain roots at known CA (fingerprint " +:+
                            Fingerprint.String fp +:+
                            ") but certificate data unavailable")
            else failed pv (parseVerifyError err)
        | None => failed pv (parseVerifyError err)
        end
    | inl chains =>
        match chains with
        | (c0 :: chain0') :: _ =>
            let chain0 := c0 :: chain0' in
            let rootCert := List.last chain0 c0 in
            let matchedCA :=
              if String.eqb (Certificate.SubjectCommonName rootCert) ""
              then match Certificate.SubjectOrganization rootCert with
                   | org :: _ => org
                   | [] => ""
                   end
              else Certificate.SubjectCommonName rootCert in
            let rootFP := FingerprintFromCert rootCert in
            let constraints := Store.ConstraintFor store rootFP in
            let violation := checkConstraints now chain constraints in
            if negb (String.eqb violation "")
            then {| TrustResult.Platform := pv;
                    TrustResult.Trusted := false;
                    TrustResult.MatchedCA := matchedCA;
                    TrustResult.VerifiedChain := chain0;
                    TrustResult.FailureReason := violation |}
            else {| TrustResult.Platform := pv;
                    TrustResult.Trusted := true;
                    TrustResult.MatchedCA := matchedCA;
                    TrustResult.VerifiedChain := chain0;
                    TrustResult.FailureReason := "" |}
        | _ =>
            {| TrustResult.Platform := pv;
               TrustResult.Trusted := true;
               TrustResult.MatchedCA := "";
               TrustResult.VerifiedChain := [];
               TrustResult.FailureReason := "" |}
        end
    end.

(** One goroutine: it reads the clock ([clock idx] is what [time.Now()]
    returns in the task of index [idx]) and writes its own slot. *)
Definition runTask (clock : nat -> Time) (chain : CertChain.t)
  (stores : list Store.t) (results : list TrustResult.t) (idx : nat)
  : list TrustResult.t :=
  match stores !! idx with
  | Some s => <[idx := validateAgainstStore (clock idx) chain s]> results
  | None => results
  end.

(** [ValidateChain]: one task per store, joined by the [WaitGroup].
    [schedule] is the order in which the tasks write their results; each
    task runs once, so it is a permutation of the indices. *)
Definition ValidateChain (clock : nat -> Time) (schedule : list nat)
  (chain : CertChain.t) (stores : list Store.t) : list TrustResult.t :=
  if Nat.eqb (length stores) 0 then []
  else
    let results := replicate (length stores) TrustResult.zero in
    foldl (runTask clock chain stores) results schedule.

End WithHost.
End validator.

(* ===================================================================== *)
(** * Constraint evaluation, in the words of the specification            *)
(* ===================================================================== *)

Module validatorSpec.
Import Fingerprint truststore validator.
Section WithHost.
Context {H : Host}.

(** [NotBeforeMax] is violated if the leaf certificate's NotBefore is
    strictly after the constraint date. *)
Definition notBeforeMaxViolated (chain : CertChain.t) (c : Constraints.t)
  (d : Time) : Prop :=
  Constraints.NotBeforeMax c = Some d /\
  d < Certificate.NotBefore (CertChain.ServerCert chain).

(** [DistrustDate] is violated if the current time is strictly after
    the constraint date. *)
Definition distrustDateViolated (now : Time) (c : Constraints.t)
  (d : Time) : Prop :=
  Constraints.DistrustDate c = Some d /\ d < now.

(** [SCTNotAfter] with a chain that has no SCT at all. *)
Definition sctMissing (chain : CertChain.t) (c : Constraints.t)
  (d : Time) : Prop :=
  Constraints.SCTNotAfter c = Some d /\ CertChain.SCTs chain = [].

(** [SCTNotAfter] with every extracted SCT after the deadline. *)
Definition sctAllLate (chain : CertChain.t) (c : Constraints.t)
  (d : Time) : Prop :=
  Constraints.SCTNotAfter c = Some d /\ CertChain.SCTs chain <> [] /\
  Forall (fun sct => d < SCT.Timestamp sct) (CertChain.SCTs chain).

Definition msgNotBeforeMax (chain : CertChain.t) (d : Time) : string :=
  "certificate issued after trust cutoff (" +:+
  FormatDate (Certificate.NotBefore (CertChain.ServerCert chain)) +:+
  " > " +:+ FormatDate d +:+ ")".

Definition msgDistrustDate (d : Time) : string :=
  "CA distrusted since " +:+ FormatDate d.

Definition msgSCTMissing (d : Time) : string :=
  "SCT required but none found (deadline: " +:+ FormatDate d +:+ ")".

Definition msgSCTAllLate (d : Time) : string :=
  "all SCTs issued after deadline (" +:+ FormatDate d +:+ ")".

(** The diagnosis of a chain that roots at a known CA without
    certificate data. *)
Definition msgKnownMissingRoot (fp : Fingerprint) : string :=
  "chain roots at known CA (fingerprint " +:+ Fingerprint.String fp +:+
  ") but certificate data unavailable".

(** The fingerprints of a store that do not resolve in the registry. *)
Definition missing (store : Store.t) (fp : Fingerprint) : Prop :=
  fp ∈ Store.Fingerprints store /\ getCertByFingerprint fp = None.

(** The trust anchors of a store: the fingerprints that resolve. *)
Definition anchors (store : Store.t) : list Certificate.t :=
  omap getCertByFingerprint (Store.Fingerprints store).

Definition platformVersion (store : Store.t) : PlatformVersion.t :=
  {| PlatformVersion.Platform := Store.Platform store;
     PlatformVersion.Version := Store.Version store |}.

(** The three checks, each with the violation it finds, if any. *)
Definition checkNotBeforeMax (chain : CertChain.t) (c : Constraints.t)
  : option string :=
  match Constraints.NotBeforeMax c with
  | Some d =>
      if After (Certificate.NotBefore (CertChain.ServerCert chain)) d
      then Some (msgNotBeforeMax chain d) else None
  | None => None
  end.

Definition checkDistrustDate (now : Time) (c : Constraints.t)
  : option string :=
  match Constraints.DistrustDate c with
  | Some d => if After now d then Some (msgDistrustDate d) else None
  | None => None
  end.

Definition checkSCTNotAfter (chain : CertChain.t) (c : Constraints.t)
  : option string :=
  match Constraints.SCTNotAfter c with
  | Some d =>
      match CertChain.SCTs chain with
      | [] => Some (msgSCTMissing d)
      | scts =>
          if forallb (fun sct => After (SCT.Timestamp sct) d) scts
          then Some (msgSCTAllLate d) else None
      end
  | None => None
  end.

(** The first violation found, or the empty string. *)
Fixpoint firstViolation (checks : list (option string)) : string :=
  match checks with
  | [] => ""
  | Some violation :: _ => violation
  | None :: checks' => firstViolation checks'
  end.

End WithHost.
End validatorSpec.

(* ===================================================================== *)
(** * Sample data (from the repository's tests)                           *)
(* ===================================================================== *)

Module Samples.
Import GoString Fingerprint.

(** [validSHA256] and [validSHA256Formatted] of [fingerprint_test.go]. *)
Definition validSHA256 : string :=
  "D7A7A0FB5D7E2731D7A7A0FB5D7E2731D7A7A0FB5D7E2731D7A7A0FB5D7E2731".

Definition validSHA256Formatted : string :=
  "D7:A7:A0:FB:5D:7E:27:31:D7:A7:A0:FB:5D:7E:27:31:D7:A7:A0:FB:5D:7E:27:31:D7:A7:A0:FB:5D:7E:27:31".

Definition validSHA256Lower : string :=
  "d7a7a0fb5d7e2731d7a7a0fb5d7e2731d7a7a0fb5d7e2731d7a7a0fb5d7e2731".

Definition validSHA256Spaces : string :=
  "D7 A7 A0 FB 5D 7E 27 31 D7 A7 A0 FB 5D 7E 27 31 D7 A7 A0 FB 5D 7E 27 31 D7 A7 A0 FB 5D 7E 27 31".

(** The space-separated form followed by one more separator. *)
Definition trailingSpace : string :=
  "D7 A7 A0 FB 5D 7E 27 31 D7 A7 A0 FB 5D 7E 27 31 D7 A7 A0 FB 5D 7E 27 31 D7 A7 A0 FB 5D 7E 27 31 ".

Definition validFP : Fingerprint :=
  [215; 167; 160; 251; 93; 126; 39; 49; 215; 167; 160; 251; 93; 126; 39; 49;
   215; 167; 160; 251; 93; 126; 39; 49; 215; 167; 160; 251; 93; 126; 39; 49].

(** The filters ["chrome>=139"], ["chrome<=138"] and
    ["android>=10,android<=13"] as [filter.Parse] builds them, with the
    model of the version library. *)
Definition numeric (op : string) (platform : string)
  (v : Semver.Version (Lib := Semver.specLib))
  : filter.Constraint (L := Semver.specLib) :=
  {| filter.Platform := platform;
     filter.Operator_ := op;
     filter.Version := Some v;
     filter.IsCurrent := false |}.

Definition chromeGE139 : filter.Filter (L := Semver.specLib) :=
  {| filter.Constraints := [numeric ">=" "chrome" [139]] |}.

Definition chromeLE138 : filter.Filter (L := Semver.specLib) :=
  {| filter.Constraints := [numeric "<=" "chrome" [138]] |}.

Definition androidRange : filter.Filter (L := Semver.specLib) :=
  {| filter.Constraints :=
       [numeric ">=" "android" [10]; numeric "<=" "android" [13]] |}.

(** A filter value without constraints. *)
Definition noConstraints : filter.Filter (L := Semver.specLib) :=
  {| filter.Constraints := [] |}.

Definition pv (platform version : string) : truststore.PlatformVersion.t :=
  {| truststore.PlatformVersion.Platform := platform;
     truststore.PlatformVersion.Version := version |}.

(** The valid SCT of [TestParseSCT]: version 0, log id 1..32, time stamp
    1000 ms, 50 bytes in all. *)
Definition validSCT : list Z :=
  0 :: map Z.of_nat (seq 1 32) ++ [0; 0; 0; 0; 0; 0; 3; 232] ++ repeat 0 9.

(** A host for the examples, after [validator_test.go]: a registry with
    one certificate, and stand-ins for the digest, for path verification
    (the chain of the server certificate [signedLeaf] verifies against
    [availableCA], no other does) and for the texts. *)
Definition cert (raw : list Z) (cn : string) : truststore.Certificate.t :=
  {| truststore.Certificate.Raw := raw;
     truststore.Certificate.NotBefore := 0;
     truststore.Certificate.SubjectCommonName := cn;
     truststore.Certificate.SubjectOrganization := [] |}.

Definition availableCA := cert [1] "Available CA".
Definition missingRootCA := cert [2] "Apple Platform Root CA - G1".
Definition unsignedLeaf := cert [3] "apple-service.example.com".
Definition signedLeaf := cert [4] "www.example.com".

Definition testSum (raw : list Z) : Fingerprint :=
  take 32 (raw ++ repeat 0 32).

Definition availableFP : Fingerprint := testSum [1].
Definition missingFP : Fingerprint := testSum [2].

Definition testVerify (leaf : truststore.Certificate.t)
  (opts : validator.VerifyOptions)
  : list (list truststore.Certificate.t) + validator.VerifyError :=
  if bool_decide (truststore.Certificate.Raw leaf = [4]) &&
     existsb (fun r => bool_decide (truststore.Certificate.Raw r = [1]))
             (validator.Roots opts)
  then inl [[leaf; availableCA]]
  else inr validator.UnknownAuthorityError.

Definition testHost : validator.Host := {|
  validator.Certs := {[ availableFP := availableCA ]};
  validator.Sum256 := testSum;
  validator.Verify := testVerify;
  validator.ErrorText := fun _ => "x509: verification failed";
  validator.FormatDate := fun _ => "2006-01-02"
|}.

Definition store (platform version : string) (fps : list Fingerprint)
  : truststore.Store.t :=
  {| truststore.Store.Platform := platform;
     truststore.Store.Version := version;
     truststore.Store.Fingerprints := fps;
     truststore.Store.Constraints := ∅ |}.

(** The store of [TestValidateChainKnownMissingRoot], a store none of
    whose roots resolves, and a store with the available root only. *)
Definition storeKnownMissing := store "ios" "26" [missingFP; availableFP].
Definition storeUnresolved := store "macos" "15" [missingFP].
Definition storeAvailable := store "android" "14" [availableFP].

(** The server sends its certificate and the root. *)
Definition chainWithRoot : truststore.CertChain.t :=
  {| truststore.CertChain.Endpoint := "apple-service.example.com";
     truststore.CertChain.ServerCert := unsignedLeaf;
     truststore.CertChain.Intermediates := [missingRootCA];
     truststore.CertChain.SCTs := [] |}.

Definition chainSigned : truststore.CertChain.t :=
  {| truststore.CertChain.Endpoint := "www.example.com";
     truststore.CertChain.ServerCert := signedLeaf;
     truststore.CertChain.Intermediates := [];
     truststore.CertChain.SCTs := [] |}.

End Samples.

(* ===================================================================== *)
(** * internal/truststore/fingerprint.go: the other operations            *)
(* ===================================================================== *)

Module FingerprintOps.
Import GoString Fingerprint.

(** [FingerprintFromBytes]: panics ([None]) unless there are exactly 32
    bytes. *)
Definition FingerprintFromBytes (bytes : list Z) : option Fingerprint :=
  if negb (Nat.eqb (length bytes) sha256Size) then None
  else Some (copyInto bytes).

(** [f == Fingerprint{}]. *)
Definition IsZero (f : Fingerprint) : bool :=
  bool_decide (f = repeat 0 sha256Size).

(** [Truncate]: the first [octets] pairs and an ellipsis. *)
Definition Truncate (f : Fingerprint) (octets : Z) : string :=
  if octets <=? 0 then ""
  else if octets >=? Z.of_nat sha256Size then String f
  else str (Join (map Sprintf02X (take (Z.to_nat octets) f)) [":"%char]
            ++ chars "...").

End FingerprintOps.

(* ===================================================================== *)
(** * Notions used to state further properties of the validation engine   *)
(* ===================================================================== *)

Module validatorMore.
Import Fingerprint truststore validator validatorSpec.
Section WithHost.
Context {H : Host}.

(** The same chain with other SCTs. *)
Definition withSCTs (chain : CertChain.t) (scts : list SCT.t) : CertChain.t :=
  {| CertChain.Endpoint := CertChain.Endpoint chain;
     CertChain.ServerCert := CertChain.ServerCert chain;
     CertChain.Intermediates := CertChain.Intermediates chain;
     CertChain.SCTs := scts |}.

(** The options [validateAgainstStore] hands to [Verify]. *)
Definition verifyOptions (chain : CertChain.t) (store : Store.t)
  : VerifyOptions :=
  {| Roots := anchors store;
     Intermediates := CertChain.Intermediates chain |}.

(** The display name of a root: the CommonName, else the first
    Organization, else empty. *)
Definition displayName (root : Certificate.t) : string :=
  if String.eqb (Certificate.SubjectCommonName root) ""
  then match Certificate.SubjectOrganization root with
       | org :: _ => org
       | [] => ""
       end
  else Certificate.SubjectCommonName root.

End WithHost.
End validatorMore.

Module SamplesMore.
Import GoString Fingerprint truststore Samples.

(** A store that distrusts the available root since time 100. *)
Definition storeDistrusting : Store.t :=
  {| Store.Platform := "chrome";
     Store.Version := "139";
     Store.Fingerprints := [availableFP];
     Store.Constraints :=
       {[ availableFP :=
            {| Constraints.NotBeforeMax := None;
               Constraints.DistrustDate := Some 100;
               Constraints.SCTNotAfter := None |} ]} |}.

(** Constraints that ask for an SCT not after time 500, and two SCTs. *)
Definition sctBefore500 : Constraints.t :=
  {| Constraints.NotBeforeMax := None;
     Constraints.DistrustDate := None;
     Constraints.SCTNotAfter := Some 500 |}.

Definition sctAt (t : Time) : SCT.t :=
  {| SCT.LogID := []; SCT.Timestamp := t; SCT.Source := SCTSourceEmbedded |}.

End SamplesMore.

(* ===================================================================== *)
(** * internal/truststore/store.go                                        *)
(* ===================================================================== *)

Module storeLoader.
Import GoString Fingerprint truststore.

(** [storeKey]: a platform and a version. *)
Definition storeKey : Type := (string * string)%type.

Record storeEntry : Type := {
  fingerprint : Fingerprint;
  constraints : Constraints.t
}.

(** The errors of the loader, by the text that wraps them. *)
Inductive LoadError : Type :=
| ErrReadHeader (e : string)
| ErrReadRecord (e : string)
| ErrParseFingerprint (fpStr : string) (e : ParseError)
| ErrParseNotBeforeMax (s : string)
| ErrParseDistrustDate (s : string)
| ErrParseSCTNotAfter (s : string).

(** What a call of the loader ends in: a value, an error, or a run-time
    panic (an index out of range). *)
Inductive Outcome (A : Type) : Type :=
| Ok (a : A)
| Err (e : LoadError)
| Panic.
Arguments Ok {A} a.
Arguments Err {A} e.
Arguments Panic {A}.

(** What one call of [csv.Reader.Read] returns before the end of the
    input: a record or an error.  The end of the list is [io.EOF]. *)
Inductive ReadResult : Type :=
| Record_ (record : list string)
| ReadError (e : string).

Section WithTime.
(** [time.Parse(time.RFC3339, s)]. *)
Variable timeParse : string -> option Time.

(** One of the three blocks of [parseConstraintColumns]: column [i] is
    read when the record has it and it is not empty. *)
Definition parseColumn (record : list string) (i : nat)
  (err : string -> LoadError) : option Time + LoadError :=
  match record !! i with
  | Some s =>
      if String.eqb s "" then inl None
      else match timeParse s with
           | Some t => inl (Some t)
           | None => inr (err s)
           end
  | None => inl None
  end.

Definition parseConstraintColumns (record : list string)
  : Constraints.t + LoadError :=
  match parseColumn record 3 ErrParseNotBeforeMax with
  | inr e => inr e
  | inl notBeforeMax =>
    match parseColumn record 4 ErrParseDistrustDate with
    | inr e => inr e
    | inl distrustDate =>
      match parseColumn record 5 ErrParseSCTNotAfter with
      | inr e => inr e
      | inl sctNotAfter =>
          inl {| Constraints.NotBeforeMax := notBeforeMax;
                 Constraints.DistrustDate := distrustDate;
                 Constraints.SCTNotAfter := sctNotAfter |}
      end
    end
  end.

(** The body of the loop of [parseStoreRecords] for one record, up to
    the update of the map. *)
Definition parseRecord (record : list string)
  : Outcome (storeKey * storeEntry) :=
  match record !! 0%nat, record !! 1%nat, record !! 2%nat with
  | Some platform, Some version, Some fpStr =>
      match ParseFingerprint fpStr with
      | inr e => Err (ErrParseFingerprint fpStr e)
      | inl fp =>
          match parseConstraintColumns record with
          | inr e => Err e
          | inl c =>
              Ok ((platform, version),
                  {| fingerprint := fp; constraints := c |})
          end
      end
  | _, _, _ => Panic
  end.

(** [result[key] = append(result[key], entry)]. *)
Definition appendEntry (result : gmap storeKey (list storeEntry))
  (key : storeKey) (entry : storeEntry) : gmap storeKey (list storeEntry) :=
  <[key := default [] (result !! key) ++ [entry]]> result.

Fixpoint parseStoreRecordsFrom (result : gmap storeKey (list storeEntry))
  (reads : list ReadResult) : Outcome (gmap storeKey (list storeEntry)) :=
  match reads with
  | [] => Ok result
  | ReadError e :: _ => Err (ErrReadRecord e)
  | Record_ record :: rest =>
      match parseRecord record with
      | Ok (key, entry) =>
          parseStoreRecordsFrom (appendEntry result key entry) rest
      | Err e => Err e
      | Panic => Panic
      end
  end.

Definition parseStoreRecords (reads : list ReadResult)
  : Outcome (gmap storeKey (list storeEntry)) :=
  parseStoreRecordsFrom ∅ reads.

(** The zero value of [Fingerprint]. *)
Definition zeroFingerprint : Fingerprint := repeat 0 sha256Size.

(** One round of the loop of [buildStore]. *)
Definition buildStep (store : Store.t) (i : nat) (e : storeEntry) : Store.t :=
  {| Store.Platform := Store.Platform store;
     Store.Version := Store.Version store;
     Store.Fingerprints := <[i := fingerprint e]> (Store.Fingerprints store);
     Store.Constraints :=
       if negb (Constraints.IsEmpty (constraints e))
       then <[fingerprint e := constraints e]> (Store.Constraints store)
       else Store.Constraints store |}.

(** [for i, e := range entries], from index [i] on. *)
Fixpoint buildLoop (i : nat) (entries : list storeEntry) (store : Store.t)
  : Store.t :=
  match entries with
  | [] => store
  | e :: rest => buildLoop (S i) rest (buildStep store i e)
  end.

Definition buildStore (key : storeKey) (entries : list storeEntry) : Store.t :=
  buildLoop 0 entries
    {| Store.Platform := key.1;
       Store.Version := key.2;
       Store.Fingerprints := replicate (length entries) zeroFingerprint;
       Store.Constraints := ∅ |}.

(** The order in which [range] visits a Go map is not specified: it is
    a parameter. *)
Variable rangeMap :
  gmap storeKey (list storeEntry) -> list (storeKey * list storeEntry).

(** [loadStores], from the records that the reader of the embedded file
    yields; [Stores] is the package variable before the call. *)
Definition loadStores (Stores : list Store.t) (reads : list ReadResult)
  : Outcome (list Store.t) :=
  match reads with
  | [] => Err (ErrReadHeader "EOF")
  | ReadError e :: _ => Err (ErrReadHeader e)
  | Record_ _ :: rest =>
      match parseStoreRecords rest with
      | Ok storeMap =>
          Ok (foldl (fun stores ke => stores ++ [buildStore ke.1 ke.2])
                    Stores (rangeMap storeMap))
      | Err e => Err e
      | Panic => Panic
      end
  end.

End WithTime.

(** A stand-in for [time.Parse] that knows two dates, and records in the
    format of [data/stores.csv]. *)
Definition sampleTimeParse (s : string) : option Time :=
  if String.eqb s "2025-04-15T23:59:59Z" then Some (Unix 1744761599 0)
  else if String.eqb s "2019-02-01T00:00:00Z" then Some (Unix 1548979200 0)
  else None.

Definition sampleHeader : list string :=
  ["platform"; "version"; "fingerprint"; "not_before_max"; "distrust_date";
   "sct_not_after"].

Definition sampleFP1 : string :=
  "D7A7A0FB5D7E2731D7A7A0FB5D7E2731D7A7A0FB5D7E2731D7A7A0FB5D7E2731".
Definition sampleFP2 : string :=
  "0000000000000000000000000000000000000000000000000000000000000001".

Definition sampleReads : list ReadResult :=
  [Record_ sampleHeader;
   Record_ ["chrome"; "139"; sampleFP1; ""; ""; "2025-04-15T23:59:59Z"];
   Record_ ["ios"; "18"; sampleFP1; ""; ""; ""];
   Record_ ["chrome"; "139"; sampleFP2; ""; ""; ""]].

End storeLoader.



(** Notions used to state the properties of the loader. *)
Module storeLoaderSpec.
Import GoString Fingerprint truststore storeLoader.

(** The constraints map that the loop of [buildStore] builds. *)
Definition addConstraint (m : gmap Fingerprint Constraints.t) (e : storeEntry)
  : gmap Fingerprint Constraints.t :=
  if negb (Constraints.IsEmpty (constraints e))
  then <[fingerprint e := constraints e]> m
  else m.

(** The entries of the parsed records with a given key, in order. *)
Definition entriesOf (key : storeKey)
  (parsed : list (storeKey * storeEntry)) : list storeEntry :=
  map snd (List.filter (fun p => bool_decide (p.1 = key)) parsed).

(** The platform and version of a store, as a key. *)
Definition keyOf (s : Store.t) : storeKey :=
  (Store.Platform s, Store.Version s).

(** Column [i] of a record is missing or empty. *)
Definition blank (record : list string) (i : nat) : Prop :=
  record !! i = None \/ record !! i = Some "".

Section WithTime.
Variable timeParse : string -> option Time.

(** Column [i] of a record holds a text that is not a date. *)
Definition unparsable (record : list string) (i : nat) : Prop :=
  exists s, record !! i = Some s /\ s <> "" /\ timeParse s = None.

(** Column [i] of a record, when it is not blank, parses to the date
    [d]; a blank column gives no date. *)
Definition columnDate (record : list string) (i : nat) (d : option Time)
  : Prop :=
  match record !! i with
  | Some s => if String.eqb s "" then d = None else d = timeParse s
  | None => d = None
  end.

(** The records that [parseStoreRecords] accepts, with what each one
    parses to. *)
Definition parsedAs (reads : list ReadResult)
  (parsed : list (storeKey * storeEntry)) : Prop :=
  Forall2 (fun rd p => exists record,
             rd = Record_ record /\ parseRecord timeParse record = Ok p)
          reads parsed.

End WithTime.
End storeLoaderSpec.

(* ===================================================================== *)
(** * internal/filter: the lexer and the parser of filter expressions     *)
(* ===================================================================== *)

(** [filterLexer]: the five rules of [lexer.MustSimple].  At each
    position the rules are tried in order on the rest of the input, and
    the first one that matches gives the token; no rule matching is a
    lexing error.  A rule gives the text it matches and the rest. *)
Module filterLexer.
Import GoString.

Inductive rule : Type := Whitespace | Comma | Operator | Platform | Version.

Record token : Type := { Type_ : rule; Value : list ascii }.

Definition matched : Type := (list ascii * list ascii)%type.

(** The longest prefix of characters of a class, and the rest. *)
Fixpoint span (p : ascii -> bool) (s : list ascii) : matched :=
  match s with
  | c :: s' =>
      if p c then let (m, r) := span p s' in (c :: m, r) else ([], s)
  | [] => ([], [])
  end.

(** A literal text. *)
Definition literal (lit : list ascii) (s : list ascii) : option matched :=
  option_map (pair lit) (stripPrefix lit s).

(** The first alternative that matches. *)
Fixpoint firstOf (alts : list (list ascii -> option matched))
  (s : list ascii) : option matched :=
  match alts with
  | [] => None
  | alt :: alts' =>
      match alt s with
      | Some m => Some m
      | None => firstOf alts' s
      end
  end.

(** [\s]: tab, line feed, form feed, carriage return and space. *)
Definition spaceClass : list (ascii * ascii) :=
  [(ascii_of_N 9, ascii_of_N 10); (ascii_of_N 12, ascii_of_N 13);
   (" ", " ")]%char.

(** [\s+] *)
Definition matchWhitespace (s : list ascii) : option matched :=
  match span (in_class spaceClass) s with
  | ([], _) => None
  | m => Some m
  end.

(** [,] *)
Definition matchComma (s : list ascii) : option matched :=
  literal [","%char] s.

(** [>=|<=|>|<|=] *)
Definition matchOperator (s : list ascii) : option matched :=
  firstOf (map literal [chars ">="; chars "<="; chars ">"; chars "<";
                        chars "="]) s.

(** [\w]: the word characters of [\b]. *)
Definition wordClass : list (ascii * ascii) :=
  [("0", "9"); ("A", "Z"); ("_", "_"); ("a", "z")]%char.

Definition isWord (c : option ascii) : bool :=
  match c with
  | Some c => in_class wordClass c
  | None => false
  end.

(** [\b] between two characters; [None] is an end of the text. *)
Definition boundary (before after : option ascii) : bool :=
  xorb (isWord before) (isWord after).

(** U+017F, the long s, which [(?i)] folds with [s] and [S]. *)
Definition longS : list ascii := byte_seq [197; 191]%N.

(** One letter of a name under [(?i)]: the letter in either case, and
    for [s] also the long s. *)
Definition foldedLetter (letter : ascii) (s : list ascii) : option matched :=
  match s with
  | c :: r =>
      if Ascii.eqb (lower c) letter then Some ([c], r)
      else if Ascii.eqb letter "s" then literal longS s
      else None
  | [] => None
  end.

Fixpoint foldedName (name : list ascii) (s : list ascii) : option matched :=
  match name with
  | [] => Some ([], s)
  | letter :: name' =>
      match foldedLetter letter s with
      | Some (m, r) =>
          match foldedName name' r with
          | Some (m', r') => Some (m ++ m', r')
          | None => None
          end
      | None => None
      end
  end.

(** [\bname\b] at the start of the text. *)
Definition boundedName (name : list ascii) (s : list ascii)
  : option matched :=
  if boundary None (head s) then
    match foldedName name s with
    | Some (m, r) => if boundary (last m) (head r) then Some (m, r) else None
    | None => None
    end
  else None.

Definition platformNames : list string :=
  ["ios"; "ipados"; "macos"; "tvos"; "visionos"; "watchos"; "android";
   "chrome"; "windows"].

(** [(?i)\bios\b|\bipados\b|...|\bwindows\b] *)
Definition matchPlatform (s : list ascii) : option matched :=
  firstOf (map (fun name => boundedName (chars name)) platformNames) s.

Definition isDigit (c : ascii) : bool := in_range c ("0", "9")%char.

(** The length of what [\d*(\.\d+)*] matches, greedily. *)
Fixpoint afterDigit (s : list ascii) : nat :=
  match s with
  | c :: s' =>
      if isDigit c then S (afterDigit s')
      else if Ascii.eqb c "." then
        match s' with
        | d :: _ => if isDigit d then S (afterDigit s') else O
        | [] => O
        end
      else O
  | [] => O
  end.

(** [\d+(\.\d+)*|current] *)
Definition matchVersion (s : list ascii) : option matched :=
  match s with
  | c :: s' =>
      if isDigit c
      then let n := S (afterDigit s') in Some (take n s, drop n s)
      else literal (chars "current") s
  | [] => None
  end.

Definition rules : list (rule * (list ascii -> option matched)) :=
  [(Whitespace, matchWhitespace); (Comma, matchComma);
   (Operator, matchOperator); (Platform, matchPlatform);
   (Version, matchVersion)].

Fixpoint firstRule (rs : list (rule * (list ascii -> option matched)))
  (s : list ascii) : option (token * list ascii) :=
  match rs with
  | [] => None
  | (name, re) :: rs' =>
      match re s with
      | Some (m, r) => Some ({| Type_ := name; Value := m |}, r)
      | None => firstRule rs' s
      end
  end.

(** Every token takes at least one character, so [length s] rounds are
    enough. *)
Fixpoint lexFuel (fuel : nat) (s : list ascii) : option (list token) :=
  match s with
  | [] => Some []
  | _ :: _ =>
      match fuel with
      | O => None
      | S fuel' =>
          match firstRule rules s with
          | Some (t, r) => option_map (cons t) (lexFuel fuel' r)
          | None => None
          end
      end
  end.

Definition lex (s : list ascii) : option (list token) :=
  lexFuel (length s) s.

(** [participle.Elide("Whitespace")]. *)
Definition elide (ts : list token) : list token :=
  List.filter (fun t => match Type_ t with Whitespace => false | _ => true end)
              ts.

End filterLexer.

Module filterParser.
Import GoString truststore filter.

(** [constraintExpr]; an optional capture that is absent leaves the
    empty string. *)
Record constraintExpr : Type := {
  ExprPlatform : list ascii;
  ExprOperator : list ascii;
  ExprVersion : list ascii
}.

Definition isType (r : filterLexer.rule) (t : filterLexer.token) : bool :=
  match filterLexer.Type_ t, r with
  | filterLexer.Whitespace, filterLexer.Whitespace
  | filterLexer.Comma, filterLexer.Comma
  | filterLexer.Operator, filterLexer.Operator
  | filterLexer.Platform, filterLexer.Platform
  | filterLexer.Version, filterLexer.Version => true
  | _, _ => false
  end.

(** An optional capture [@Type?]. *)
Definition optional (r : filterLexer.rule) (ts : list filterLexer.token)
  : list ascii * list filterLexer.token :=
  match ts with
  | t :: ts' => if isType r t then (filterLexer.Value t, ts') else ([], ts)
  | [] => ([], [])
  end.

(** [@Platform @Operator? @Version?] *)
Definition parseConstraintExpr (ts : list filterLexer.token)
  : option (constraintExpr * list filterLexer.token) :=
  match ts with
  | t :: ts1 =>
      if isType filterLexer.Platform t then
        let (op, ts2) := optional filterLexer.Operator ts1 in
        let (ver, ts3) := optional filterLexer.Version ts2 in
        Some ({| ExprPlatform := filterLexer.Value t;
                 ExprOperator := op;
                 ExprVersion := ver |}, ts3)
      else None
  | [] => None
  end.

(** [( ',' @@ )*] and the end of the input; every round takes at least
    two tokens. *)
Fixpoint parseMore (fuel : nat) (ts : list filterLexer.token)
  : option (list constraintExpr) :=
  match ts with
  | [] => Some []
  | t :: ts' =>
      match fuel with
      | O => None
      | S fuel' =>
          if isType filterLexer.Comma t then
            match parseConstraintExpr ts' with
            | Some (c, rest) => option_map (cons c) (parseMore fuel' rest)
            | None => None
            end
          else None
      end
  end.

(** [@@ ( ',' @@ )*] *)
Definition parseFilterExpr (ts : list filterLexer.token)
  : option (list constraintExpr) :=
  match parseConstraintExpr ts with
  | Some (c, rest) => option_map (cons c) (parseMore (length rest) rest)
  | None => None
  end.

(** [filterParser.ParseString]. *)
Definition ParseString (s : list ascii) : option (list constraintExpr) :=
  match filterLexer.lex s with
  | Some ts => parseFilterExpr (filterLexer.elide ts)
  | None => None
  end.

Inductive ParseError : Type :=
| ErrEmptyExpression                                (* "empty filter expression" *)
| ErrInvalidFilter                                  (* "invalid filter ..." *)
| ErrMissingOperator (platform : list ascii)        (* "missing operator for ..." *)
| ErrMissingVersion (platform operator : list ascii) (* "missing version for ..." *)
| ErrInvalidVersion (v : list ascii).               (* "invalid version ..." *)

(** [strings.ToLower] on a [Platform] token, which holds letters of
    [A-Za-z] and the long s; the long s has no lower-case mapping. *)
Definition ToLower (s : list ascii) : list ascii := map lower s.

Section WithSemver.
Context {L : Semver.Lib}.

Definition isEmpty (s : list ascii) : bool :=
  match s with [] => true | _ => false end.

Definition convertConstraint (c : constraintExpr) : Constraint + ParseError :=
  let p := str (ToLower (ExprPlatform c)) in
  if isEmpty (ExprOperator c) && isEmpty (ExprVersion c) then
    inl {| Platform := p; Operator_ := OpGreaterEqual; Version := None;
           IsCurrent := false |}
  else if isEmpty (ExprOperator c) then
    inr (ErrMissingOperator (ExprPlatform c))
  else if isEmpty (ExprVersion c) then
    inr (ErrMissingVersion (ExprPlatform c) (ExprOperator c))
  else if String.eqb (str (ExprVersion c)) "current" then
    inl {| Platform := p; Operator_ := str (ExprOperator c); Version := None;
           IsCurrent := true |}
  else
    match Semver.NewVersion (str (ExprVersion c)) with
    | None => inr (ErrInvalidVersion (ExprVersion c))
    | Some ver =>
        inl {| Platform := p; Operator_ := str (ExprOperator c);
               Version := Some ver; IsCurrent := false |}
    end.

(** The loop of [Parse]: the first error ends it. *)
Fixpoint convertAll (cs : list constraintExpr)
  : list Constraint + ParseError :=
  match cs with
  | [] => inl []
  | c :: cs' =>
      match convertConstraint c with
      | inr e => inr e
      | inl constraint =>
          match convertAll cs' with
          | inr e => inr e
          | inl constraints => inl (constraint :: constraints)
          end
      end
  end.

Definition Parse (expr : string) : Filter + ParseError :=
  let expr := TrimSpace (chars expr) in
  if isEmpty expr then inr ErrEmptyExpression
  else
    match ParseString expr with
    | None => inr ErrInvalidFilter
    | Some ast =>
        match convertAll ast with
        | inr e => inr e
        | inl constraints => inl {| Constraints := constraints |}
        end
    end.

End WithSemver.

(** The constraint of a bare platform. *)
Definition bare {L : Semver.Lib} (platform : string) : Constraint :=
  {| Platform := platform; Operator_ := OpGreaterEqual; Version := None;
     IsCurrent := false |}.

(** What [Parse] can build: a bare platform, or an operator with the
    sentinel, or an operator with a version that the library parsed. *)
Definition parsedConstraint {L : Semver.Lib} (c : Constraint) : Prop :=
  c = bare (Platform c) \/
  (isOperator (Operator_ c) /\ IsCurrent c = true /\ Version c = None) \/
  (isOperator (Operator_ c) /\ IsCurrent c = false /\
   exists text v, Semver.NewVersion text = Some v /\ Version c = Some v).

(** An expression of ASCII characters only. *)
Definition isASCII (s : list ascii) : Prop :=
  Forall (fun c => code c < 128) s.

End filterParser.

(** Notions used to state the properties of the parser. *)
Module filterParserSpec.
Import GoString truststore filterLexer filter filterParser.

(** An operator token holds one of the five operators. *)
Definition operatorOK (t : token) : Prop :=
  Type_ t = filterLexer.Operator -> isOperator (str (Value t)).

(** A platform token holds, up to case, one of the nine names. *)
Definition platformOK (t : token) : Prop :=
  Type_ t = filterLexer.Platform -> In (str (ToLower (Value t))) platformNames.

(** A constraint expression whose captures come from tokens with the
    property [P]. *)
Definition exprFrom (P : token -> Prop) (c : constraintExpr) : Prop :=
  (exists t, P t /\ Type_ t = filterLexer.Platform /\ ExprPlatform c = Value t) /\
  (ExprOperator c = [] \/
   exists t, P t /\ Type_ t = filterLexer.Operator /\ ExprOperator c = Value t).

(** ASCII upper-casing of one byte, and the ways to write a lower-case
    name with letters of either case. *)
Definition upper (c : ascii) : ascii :=
  if in_range c ("a"%char, "z"%char)
  then ascii_of_N (N_of_ascii c - 32) else c.

Fixpoint casings (name : list ascii) : list (list ascii) :=
  match name with
  | [] => [[]]
  | c :: name' =>
      flat_map (fun t => [c :: t; upper c :: t]) (casings name')
  end.

Definition isLower (c : ascii) : bool := in_range c ("a"%char, "z"%char).

(** The result is the filter of the bare platform [name]. *)
Definition isBareResult {L : Semver.Lib} (name : string)
  (r : Filter + ParseError) : bool :=
  match r with
  | inl f =>
      match Constraints f with
      | [c] =>
          String.eqb (Platform c) name && String.eqb (Operator_ c) ">=" &&
          negb (IsCurrent c) &&
          match Version c with None => true | Some _ => false end
      | _ => false
      end
  | inr _ => false
  end.

End filterParserSpec.

(* ===================================================================== *)
(** * internal/fetcher/fetcher.go: embedded SCTs and the chain            *)
(* ===================================================================== *)

Module fetcherChain.
Import GoString truststore fetcher.

(** RFC 6962: the object identifier of the SCT list extension. *)
Definition oidSCTList : list Z := [1; 3; 6; 1; 4; 1; 11129; 2; 4; 2].

Definition defaultTLSPort : list ascii := chars "443".

Definition sctLengthPrefixSize : nat := 2.

(** The fields of [pkix.Extension] that are read. *)
Record Extension : Type := { Id : list Z; Value : list Z }.

(** [binary.BigEndian.Uint16]. *)
Definition BigEndianUint16 (b : list Z) : Z :=
  match b with
  | b0 :: b1 :: _ => Z.lor b1 (Z.shiftl b0 8)
  | _ => 0
  end.

(** [parseSCT] in [if sct, err := parseSCT(..); err == nil { append }]. *)
Definition appendParsed (scts : list SCT.t) (data : list Z)
  (source : SCTSource) : list SCT.t :=
  match parseSCT data source with
  | inl sct => scts ++ [sct]
  | inr _ => scts
  end.

(** The inner loop of [extractEmbeddedSCTs]; every round that goes on
    moves [offset] by at least two, so [length sctListBytes] rounds are
    enough. *)
Fixpoint sctLoop (fuel : nat) (sctListBytes : list Z) (listLen offset : nat)
  (scts : list SCT.t) : list SCT.t :=
  match fuel with
  | O => scts
  | S fuel' =>
      if (offset <? sctLengthPrefixSize + listLen)%nat then
        if (length sctListBytes <? offset + sctLengthPrefixSize)%nat
        then scts
        else
          let sctLen :=
            Z.to_nat (BigEndianUint16
                        (slice sctListBytes offset
                               (offset + sctLengthPrefixSize))) in
          let offset := (offset + sctLengthPrefixSize)%nat in
          if (length sctListBytes <? offset + sctLen)%nat then scts
          else
            let sctData := slice sctListBytes offset (offset + sctLen) in
            let offset := (offset + sctLen)%nat in
            sctLoop fuel' sctListBytes listLen offset
                    (appendParsed scts sctData SCTSourceEmbedded)
      else scts
  end.

Section WithASN1.
(** [asn1.Unmarshal(ext.Value, &sctListBytes)]: the octets of the
    OCTET STRING, or an error. *)
Variable Unmarshal : list Z -> option (list Z).

(** One round of the loop over the extensions. *)
Definition extractFromExtension (scts : list SCT.t) (ext : Extension)
  : list SCT.t :=
  if negb (bool_decide (Id ext = oidSCTList)) then scts
  else
    match Unmarshal (Value ext) with
    | None => scts
    | Some sctListBytes =>
        if (length sctListBytes <? sctLengthPrefixSize)%nat then scts
        else
          let listLen :=
            Z.to_nat (BigEndianUint16
                        (slice sctListBytes 0 sctLengthPrefixSize)) in
          if (length sctListBytes <? sctLengthPrefixSize + listLen)%nat
          then scts
          else sctLoop (length sctListBytes) sctListBytes listLen
                       sctLengthPrefixSize scts
    end.

(** [extractEmbeddedSCTs]; the argument is the field [Extensions] of the
    certificate, [None] for a nil certificate. *)
Definition extractEmbeddedSCTs (cert : option (list Extension))
  : list SCT.t :=
  match cert with
  | None => []
  | Some extensions => foldl extractFromExtension [] extensions
  end.

(** [strings.LastIndex(s, ":")], when there is a colon. *)
Fixpoint lastIndex (c : ascii) (s : list ascii) : option nat :=
  match s with
  | [] => None
  | x :: s' =>
      match lastIndex c s' with
      | Some i => Some (S i)
      | None => if Ascii.eqb x c then Some O else None
      end
  end.

(** The first lines of [FetchCertChain]: [host] and [addr]. *)
Definition normalize (endpoint : list ascii) : list ascii * list ascii :=
  match lastIndex ":" endpoint with
  | None => (endpoint, endpoint ++ [":"%char] ++ defaultTLSPort)
  | Some i => (take i endpoint, endpoint)
  end.

(** What [tls.ConnectionState] gives. *)
Record ConnectionState : Type := {
  PeerCertificates : list Certificate.t;
  SignedCertificateTimestamps : list (list Z)
}.

Inductive FetchError : Type :=
| ErrConnection (e : string)      (* "TLS connection failed: ..." *)
| ErrNoCertificates.              (* "no certificates received from ..." *)

(** [tls.DialWithDialer] to an address, and the field [Extensions] of a
    parsed certificate. *)
Variable Dial : list ascii -> ConnectionState + string.
Variable Extensions : Certificate.t -> list Extension.

Definition FetchCertChain (endpoint : string) : CertChain.t + FetchError :=
  let (host, addr) := normalize (chars endpoint) in
  match Dial addr with
  | inr e => inr (ErrConnection e)
  | inl state =>
      match PeerCertificates state with
      | [] => inr ErrNoCertificates
      | serverCert :: intermediates =>
          let tlsSCTs :=
            foldl (fun scts sctBytes =>
                     appendParsed scts sctBytes SCTSourceTLS)
                  [] (SignedCertificateTimestamps state) in
          let embeddedSCTs :=
            extractEmbeddedSCTs (Some (Extensions serverCert)) in
          inl {| CertChain.Endpoint := str host;
                 CertChain.ServerCert := serverCert;
                 CertChain.Intermediates := intermediates;
                 CertChain.SCTs := tlsSCTs ++ embeddedSCTs |}
      end
  end.

End WithASN1.

(** The encoding that the loop reads (RFC 6962, section 3.3): a two-byte
    length, big-endian, before each SCT and before the list. *)
Definition uint16Bytes (n : nat) : list Z :=
  [Z.of_nat n / 256; Z.of_nat n mod 256].

Definition encodeEntry (e : list Z) : list Z := uint16Bytes (length e) ++ e.

Definition encodeEntries (es : list (list Z)) : list Z :=
  concat (map encodeEntry es).

Definition encodeList (es : list (list Z)) : list Z :=
  uint16Bytes (length (encodeEntries es)) ++ encodeEntries es.

(** The SCTs of the entries that [parseSCT] accepts, in order. *)
Definition parsedEntries (source : SCTSource) (es : list (list Z))
  : list SCT.t :=
  omap (fun e => match parseSCT e source with
                 | inl sct => Some sct
                 | inr _ => None
                 end) es.

(** A stand-in for [asn1.Unmarshal]: tag 4, a one-byte length, the
    octets. *)
Definition sampleUnmarshal (v : list Z) : option (list Z) :=
  match v with
  | 4 :: n :: octets =>
      if (Z.to_nat n <=? length octets)%nat
      then Some (take (Z.to_nat n) octets) else None
  | _ => None
  end.

End fetcherChain.

(** Notions used to state the properties of the SCT list decoder. *)
Module fetcherChainSpec.
Import truststore fetcher fetcherChain.

(** What stops the loop after a sequence of entries: the end of the
    list as its length gives it, or fewer than two bytes, or an entry
    that is cut short.  [listEnd] and [consumed] are offsets. *)
Definition stops (listEnd : nat) (consumed : nat) (tail : list Z) : Prop :=
  listEnd = consumed \/
  (length tail < 2)%nat \/
  exists n d, Z.of_nat n < 65536 /\ tail = uint16Bytes n ++ d /\
              (length d < n)%nat.

End fetcherChainSpec.

(* ===================================================================== *)
(** * The order of versions, and the code that relies on it               *)
(* ===================================================================== *)

(** Further laws of the version library: its comparison is a total
    preorder. *)
Module SemverOrder.

Class OrderLaws (L : Semver.Lib) : Prop := {
  Compare_antisym : forall v w : Semver.Version,
    Semver.Compare w v = - Semver.Compare v w;
  Compare_trans : forall u v w : Semver.Version,
    Semver.Compare u v <= 0 -> Semver.Compare v w <= 0 ->
    Semver.Compare u w <= 0
}.

End SemverOrder.

(** internal/output: the [less] functions handed to [sort.Slice]. *)
Module output.
Import truststore.

Record ListEntry : Type := {
  Platform : string;
  Version : string;
  Fingerprint : string;
  Issuer : string;
  Constraints : string
}.

Section WithSemver.
Context {L : Semver.Lib}.

(** The function of [NewValidationOutput], on the platform versions
    of two results. *)
Definition resultLess (ri rj : PlatformVersion.t) : bool :=
  if negb (String.eqb (PlatformVersion.Platform ri)
                      (PlatformVersion.Platform rj))
  then version.strLess (PlatformVersion.Platform ri)
                       (PlatformVersion.Platform rj)
  else version.CompareAsc (PlatformVersion.Version ri)
                          (PlatformVersion.Version rj).

(** The function of [StoreList.sort]. *)
Definition entryLess (ei ej : ListEntry) : bool :=
  if negb (String.eqb (Platform ei) (Platform ej))
  then version.strLess (Platform ei) (Platform ej)
  else if negb (String.eqb (Version ei) (Version ej))
  then version.CompareAsc (Version ei) (Version ej)
  else version.strLess (Issuer ei) (Issuer ej).

End WithSemver.
End output.

(** tools/generate/chrome.go: the version constraints of Chrome. *)
Module chrome.

Record ChromeConstraint : Type := {
  SCTNotAfterSec : Z;
  MinVersion : string;
  MaxVersionExcl : string
}.

Record ChromeTrustAnchor : Type := {
  Fingerprint : Fingerprint.Fingerprint;
  EVPolicyOIDs : list string;
  EUTL : bool;
  Constraints : list ChromeConstraint
}.

Section WithSemver.
Context {L : Semver.Lib}.

Definition constraintPassesForVersion (c : ChromeConstraint) (ver : string)
  : bool :=
  if String.eqb (MinVersion c) "" && String.eqb (MaxVersionExcl c) ""
  then true
  else if negb (String.eqb (MinVersion c) "") &&
          negb (version.GreaterOrEqual ver (MinVersion c))
  then false
  else if negb (String.eqb (MaxVersionExcl c) "") &&
          negb (version.LessThan ver (MaxVersionExcl c))
  then false
  else true.

Definition isTrustedInVersion (anchor : ChromeTrustAnchor) (ver : string)
  : bool :=
  if Nat.eqb (length (Constraints anchor)) 0 then true
  else existsb (fun c => constraintPassesForVersion c ver)
               (Constraints anchor).

End WithSemver.
End chrome.

(** Notions used to state the properties of the comparators. *)
Module outputSpec.
Import truststore output.
Section WithSemver.
Context {L : Semver.Lib}.

(** The three-way comparison behind [resultLess]: by platform, then by
    version. *)
Definition resultCompare (ri rj : PlatformVersion.t) : Z :=
  if String.eqb (PlatformVersion.Platform ri) (PlatformVersion.Platform rj)
  then version.Compare (PlatformVersion.Version ri)
                       (PlatformVersion.Version rj)
  else version.lexOrder (PlatformVersion.Platform ri)
                        (PlatformVersion.Platform rj).

End WithSemver.

(** Three entries of one platform: the versions ["15"] and ["15.0"]
    compare equal but are different strings. *)
Definition entry (version issuer : string) : ListEntry :=
  {| Platform := "ios"; Version := version; Fingerprint := "";
     Issuer := issuer; Constraints := "" |}.

End outputSpec.

(* ===================================================================== *)
(** * cmd/certvet: the commands [list] and [validate]                     *)
(* ===================================================================== *)

Module certvetCmd.
Import GoString Fingerprint FingerprintOps truststore.

(** [truststore.ValidationReport]. *)
Record ValidationReport : Type := {
  Endpoint : string;
  Timestamp : Time;
  ToolVersion : string;
  Chain : CertChain.t;
  Results : list TrustResult.t;
  AllPassed : bool
}.

(** How [runValidate] can end: with an error, or with the output
    printed; then it returns [nil] when all stores passed and exits with
    [ExitTrustFail] otherwise. *)
Inductive RunError : Type :=
| ErrInvalidFilter (e : filterParser.ParseError)   (* "invalid filter: ..." *)
| ErrFetch (e : fetcherChain.FetchError)
| ErrNoStores                                      (* "no trust stores match filter" *)
| ErrFormat (e : string).

Inductive RunResult : Type :=
| Failed (e : RunError)
| Printed (result : string) (allPassed : bool).

Section WithHost.
Context {L : Semver.Lib} {H : validator.Host}.

(** The flag [--wide] of the command [list]. *)
Variable listWide : bool.

Definition formatConstraints (c : Constraints.t) : string :=
  if Constraints.IsEmpty c then ""
  else
    let parts : list string := [] in
    let parts :=
      match Constraints.NotBeforeMax c with
      | Some t => parts ++ [("NB:" ++ validator.FormatDate t)%string]
      | None => parts
      end in
    let parts :=
      match Constraints.DistrustDate c with
      | Some t => parts ++ [("DT:" ++ validator.FormatDate t)%string]
      | None => parts
      end in
    let parts :=
      match Constraints.SCTNotAfter c with
      | Some t => parts ++ [("SCT:" ++ validator.FormatDate t)%string]
      | None => parts
      end in
    String.concat "," parts.

(** The issuer shown for a fingerprint: the CommonName of its
    certificate, else its first Organization, else ["-"]. *)
Definition issuerOf (fp : Fingerprint) : string :=
  match validator.Certs !! fp with
  | Some cert =>
      if negb (String.eqb (Certificate.SubjectCommonName cert) "")
      then Certificate.SubjectCommonName cert
      else match Certificate.SubjectOrganization cert with
           | org :: _ => org
           | [] => "-"
           end
  | None => "-"
  end.

(** The body of the inner loop of [buildListEntries]. *)
Definition listEntry (store : Store.t) (jsonMode : bool) (fp : Fingerprint)
  : output.ListEntry :=
  let displayFP :=
    if negb jsonMode && negb listWide then Truncate fp 4 else String fp in
  {| output.Platform := Store.Platform store;
     output.Version := Store.Version store;
     output.Fingerprint := displayFP;
     output.Issuer := issuerOf fp;
     output.Constraints := formatConstraints (Store.ConstraintFor store fp) |}.

Definition buildListEntries (stores : list Store.t) (jsonMode : bool)
  : list output.ListEntry :=
  foldl (fun entries store =>
           foldl (fun entries fp => entries ++ [listEntry store jsonMode fp])
                 entries (Store.Fingerprints store))
        [] stores.

(** The package variable [truststore.Stores], the network, the clock of
    each validation task, the order in which the tasks finish, the clock
    of the report, [sort.Slice] on the results, and [FormatOutput]. *)
Variable Stores : list Store.t.
Variable Unmarshal : list Z -> option (list Z).
Variable Dial : list ascii -> fetcherChain.ConnectionState + string.
Variable Extensions : Certificate.t -> list fetcherChain.Extension.
Variable clock : nat -> Time.
Variable schedule : nat -> list nat.
Variable now : Time.
Variable Version : string.
Variable sortSlice :
  (PlatformVersion.t -> PlatformVersion.t -> bool) ->
  list TrustResult.t -> list TrustResult.t.
Variable FormatOutput : ValidationReport -> bool -> string + string.

(** The filter of a command: [nil] when the flag is empty. *)
Definition parseFlag (flag : string)
  : option filter.Filter + filterParser.ParseError :=
  if negb (String.eqb flag "") then
    match filterParser.Parse flag with
    | inl f => inl (Some f)
    | inr e => inr e
    end
  else inl None.

Definition runValidate (validateFilter : string) (validateJSON : bool)
  (endpoint : string) : RunResult :=
  match parseFlag validateFilter with
  | inr e => Failed (ErrInvalidFilter e)
  | inl f =>
      match fetcherChain.FetchCertChain Unmarshal Dial Extensions endpoint with
      | inr e => Failed (ErrFetch e)
      | inl chain =>
          let stores := filter.FilterStores Stores f in
          if Nat.eqb (length stores) 0 then Failed ErrNoStores
          else
            let results :=
              validator.ValidateChain clock (schedule (length stores))
                                      chain stores in
            let allPassed := forallb TrustResult.Trusted results in
            let report :=
              {| Endpoint := endpoint;
                 Timestamp := now;
                 ToolVersion := Version;
                 Chain := chain;
                 Results := sortSlice output.resultLess results;
                 AllPassed := allPassed |} in
            match FormatOutput report validateJSON with
            | inr e => Failed (ErrFormat e)
            | inl result => Printed result allPassed
            end
      end
  end.

End WithHost.
End certvetCmd.

(** Component-wise numeric comparison, in the words of the
    specification: a missing component counts as 0 (bare ["15"] is
    ["15.0.0"]), and the first component that differs decides. *)
Module SemverSpec.

Definition componentsEqual (ca cb : list Z) : Prop :=
  forall i, nth i ca 0 = nth i cb 0.

Definition componentsLess (ca cb : list Z) : Prop :=
  exists i,
    (forall j, (j < i)%nat -> nth j ca 0 = nth j cb 0) /\
    nth i ca 0 < nth i cb 0.

End SemverSpec.

(* ===================================================================== *)
(** * Proofs                                                              *)
(* ===================================================================== *)

(* ===================================================================== *)
(** * Facts about regular expressions                                     *)
(* ===================================================================== *)

Module RegexpFacts.
Import GoString Regexp.

Lemma nullable_lang r : nullable r = true <-> lang r [].
Proof.
  induction r as [| | cl | r1 IH1 r2 IH2 | r1 IH1 r2 IH2]; simpl.
  - split; [discriminate | tauto].
  - tauto.
  - split; [discriminate | intros (c & H & _); discriminate].
  - rewrite andb_true_iff, IH1, IH2. split.
    + intros [H1 H2]. exists [], []. auto.
    + intros (s1 & s2 & E & H1 & H2).
      symmetry in E. apply app_eq_nil in E as [-> ->]. auto.
  - rewrite orb_true_iff, IH1, IH2. tauto.
Qed.

Lemma deriv_lang r : forall c s, lang (deriv c r) s <-> lang r (c :: s).
Proof.
  induction r as [| | cl | r1 IH1 r2 IH2 | r1 IH1 r2 IH2]; intros c s; simpl.
  - tauto.
  - split; [tauto | discriminate].
  - destruct (in_class cl c) eqn:E; simpl.
    + split.
      * intros ->. exists c. auto.
      * intros (c' & [= <- ->] & _). reflexivity.
    + split; [tauto |]. intros (c' & [= <- ->] & H). congruence.
  - assert (Hcat : (exists s1 s2, s = s1 ++ s2 /\ lang (deriv c r1) s1 /\ lang r2 s2)
                   <-> (exists s1 s2, c :: s = (c :: s1) ++ s2 /\ lang r1 (c :: s1) /\ lang r2 s2)).
    { split; intros (s1 & s2 & E & H1 & H2); exists s1, s2.
      - subst s. split; [reflexivity |]. split; [apply IH1 |]; assumption.
      - injection E as ->. split; [reflexivity |].
        split; [apply IH1 |]; assumption. }
    destruct (nullable r1) eqn:N; simpl.
    + rewrite Hcat, IH2. split.
      * intros [(s1 & s2 & E & H1 & H2) | H].
        -- exists (c :: s1), s2. auto.
        -- exists [], (c :: s). split; [reflexivity |].
           split; [apply nullable_lang |]; assumption.
      * intros (s1 & s2 & E & H1 & H2). destruct s1 as [| a s1].
        -- right. simpl in E. subst s2. assumption.
        -- left. injection E as -> ->. exists s1, s2. auto.
    + rewrite Hcat. split.
      * intros (s1 & s2 & E & H1 & H2). exists (c :: s1), s2. auto.
      * intros (s1 & s2 & E & H1 & H2). destruct s1 as [| a s1].
        -- apply nullable_lang in H1. congruence.
        -- injection E as -> ->. exists s1, s2. auto.
  - rewrite IH1, IH2. tauto.
Qed.

Lemma matches_lang s : forall r, matches r s = true <-> lang r s.
Proof.
  induction s as [| c s IH]; intros r; simpl.
  - apply nullable_lang.
  - rewrite IH. apply deriv_lang.
Qed.

(** A counted repetition of one character class. *)
Lemma lang_rep_class cl n : forall s,
  lang (rep n (Cls cl)) s <->
  length s = n /\ Forall (fun c => in_class cl c = true) s.
Proof.
  induction n as [| n IH]; intros s; simpl.
  - split.
    + intros ->. split; [reflexivity | constructor].
    + intros [H _]. destruct s; [reflexivity | discriminate].
  - split.
    + intros (s1 & s2 & -> & (c & -> & Hc) & H2).
      apply IH in H2 as [<- HF]. split; [reflexivity |].
      constructor; assumption.
    + intros [Hl HF]. destruct s as [| c s]; [discriminate |].
      inversion HF; subst. exists [c], s. split; [reflexivity |].
      split; [exists c; auto |]. apply IH. split; [| assumption].
      simpl in Hl. congruence.
Qed.

End RegexpFacts.

(* ===================================================================== *)
(** * Facts about bytes and characters                                    *)
(* ===================================================================== *)

Module ByteFacts.
Import GoString.

(** Exhaustive checks over an initial segment of the integers. *)
Lemma Z_range_forall (P : Z -> bool) (n : nat) :
  forallb P (map Z.of_nat (seq 0 n)) = true ->
  forall z, 0 <= z < Z.of_nat n -> P z = true.
Proof.
  intros H z Hz. rewrite forallb_forall in H. apply H.
  apply in_map_iff. exists (Z.to_nat z). split; [lia |].
  apply in_seq. lia.
Qed.

Lemma in_all_ascii c : In c all_ascii.
Proof.
  unfold all_ascii. apply in_map_iff. exists (nat_of_ascii c).
  split; [apply ascii_nat_embedding |].
  apply in_seq. pose proof (nat_ascii_bounded c). lia.
Qed.

(** Exhaustive check over all 256 characters. *)
Lemma ascii_forall (P : ascii -> bool) :
  forallb P all_ascii = true -> forall c, P c = true.
Proof.
  intros H c. rewrite forallb_forall in H. apply H, in_all_ascii.
Qed.

Lemma code_inj c d : code c = code d -> c = d.
Proof.
  unfold code. intros H. apply N2Z.inj in H.
  rewrite <- (ascii_N_embedding c), <- (ascii_N_embedding d). congruence.
Qed.

Lemma in_class_single sep c : in_class [(sep, sep)] c = true <-> c = sep.
Proof.
  unfold in_class, in_range. simpl. rewrite orb_false_r, andb_true_iff.
  rewrite !Z.leb_le. split.
  - intros [H1 H2]. apply code_inj. lia.
  - intros ->. lia.
Qed.

End ByteFacts.

(* ===================================================================== *)
(** * Facts about fingerprints                                            *)
(* ===================================================================== *)

Module FingerprintFacts.
Import GoString Regexp RegexpFacts ByteFacts Fingerprint FingerprintSpec.

Lemma Join_cons g gs sep : Join (g :: gs) [sep] = g ++ sepTail sep gs.
Proof.
  revert g. induction gs as [| g' gs IH]; intros g.
  - simpl. now rewrite app_nil_r.
  - change (Join (g :: g' :: gs) [sep]) with (g ++ [sep] ++ Join (g' :: gs) [sep]).
    rewrite IH. reflexivity.
Qed.

Lemma lang_hexGroup g : lang (rep 2 hexDigit) g <-> hexGroup g.
Proof. apply lang_rep_class. Qed.

Lemma lang_sepGroups sep n : forall t,
  lang (rep n (Cat (Cls [(sep, sep)]) (rep 2 hexDigit))) t <->
  exists gs, length gs = n /\ Forall hexGroup gs /\ t = sepTail sep gs.
Proof.
  induction n as [| n IH]; intros t.
  - simpl. split.
    + intros ->. exists []. repeat split. constructor.
    + intros (gs & Hl & _ & ->). destruct gs; [reflexivity | discriminate].
  - change (rep (S n) ?r) with (Cat r (rep n r)).
    cbn [lang]. split.
    + intros (s1 & s2 & -> & (u1 & u2 & -> & (c & -> & Hc) & Hg) & H2).
      apply in_class_single in Hc as ->.
      apply lang_hexGroup in Hg.
      apply IH in H2 as (gs & Hl & HF & ->).
      exists (u2 :: gs). split; [simpl; congruence |].
      split; [constructor; assumption |].
      unfold sepTail. simpl. now rewrite <- ?app_assoc.
    + intros (gs & Hl & HF & ->). destruct gs as [| g gs]; [discriminate |].
      inversion HF; subst.
      exists (sep :: g), (sepTail sep gs). split; [reflexivity |]. split.
      * exists [sep], g. split; [reflexivity |]. split.
        -- exists sep. split; [reflexivity |]. now apply in_class_single.
        -- now apply lang_hexGroup.
      * apply IH. exists gs. repeat split; [simpl in Hl; congruence | assumption].
Qed.

Lemma lang_separatedBy sep t :
  lang (separatedBy sep) t <->
  exists gs, length gs = 32%nat /\ Forall hexGroup gs /\ t = Join gs [sep].
Proof.
  unfold separatedBy. cbn [lang]. split.
  - intros (s1 & s2 & -> & H1 & H2).
    apply lang_hexGroup in H1.
    apply lang_sepGroups in H2 as (gs & Hl & HF & ->).
    exists (s1 :: gs). split; [simpl; congruence |].
    split; [constructor; assumption |]. now rewrite Join_cons.
  - intros (gs & Hl & HF & ->). destruct gs as [| g gs]; [discriminate |].
    inversion HF; subst. rewrite Join_cons.
    exists g, (sepTail sep gs). split; [reflexivity |].
    split; [now apply lang_hexGroup |].
    apply lang_sepGroups. exists gs.
    repeat split; [simpl in Hl; congruence | assumption].
Qed.

Lemma matches_rawHexRe t : matches rawHexRe t = true <-> rawShape t.
Proof. rewrite matches_lang. apply lang_rep_class. Qed.

Lemma matches_separatorRe t :
  matches separatorRe t = true <-> separatedShape t.
Proof.
  rewrite matches_lang. unfold separatorRe, separatedShape. cbn [lang].
  rewrite !lang_separatedBy. split.
  - intros [H | [H | H]]; destruct H as (gs & Hl & HF & ->).
    + exists ":"%char, gs. unfold isSep. tauto.
    + exists "-"%char, gs. unfold isSep. tauto.
    + exists " "%char, gs. unfold isSep. tauto.
  - intros (sep & gs & [-> | [-> | ->]] & Hl & HF & ->).
    + left. eauto.
    + right; left. eauto.
    + right; right. eauto.
Qed.

(** Deciding the accepted shapes. *)
Lemma acceptedShape_matches t :
  acceptedShape t <->
  matches rawHexRe t || matches separatorRe t = true.
Proof.
  unfold acceptedShape.
  rewrite orb_true_iff, matches_rawHexRe, matches_separatorRe. tauto.
Qed.

Lemma sep_classes sep :
  isSep sep -> in_class hexClass sep = false /\ in_class sepClass sep = true.
Proof. intros [-> | [-> | ->]]; split; reflexivity. Qed.

Lemma hexGroup_inv g :
  hexGroup g -> exists a b, g = [a; b] /\ isHex a /\ isHex b.
Proof.
  intros [Hl HF]. destruct g as [| a [| b [| c g]]]; try discriminate.
  inversion HF as [| ? ? Ha HF']; subst. inversion HF'; subst. eauto.
Qed.

Lemma lex_pair a b rest :
  isHex a -> isHex b ->
  lex (a :: b :: rest) = option_map (cons (Pair [a; b])) (lex rest).
Proof.
  unfold isHex. intros Ha Hb. cbn [lex]. now rewrite Ha, Hb.
Qed.

Lemma lex_sep sep c rest :
  isSep sep ->
  lex (sep :: c :: rest) = option_map (cons (Sep sep)) (lex (c :: rest)).
Proof.
  intros H. apply sep_classes in H as [H1 H2].
  change (lex (sep :: c :: rest)) with
    (if in_class hexClass sep && in_class hexClass c
     then option_map (cons (Pair [sep; c])) (lex rest)
     else if in_class sepClass sep
          then option_map (cons (Sep sep)) (lex (c :: rest))
          else None).
  now rewrite H1, H2.
Qed.

Lemma lex_sepTail sep gs :
  isSep sep -> Forall hexGroup gs ->
  lex (sepTail sep gs) = Some (sepTokens sep gs).
Proof.
  intros Hs HF. induction HF as [| g gs Hg HF IH]; [reflexivity |].
  apply hexGroup_inv in Hg as (a & b & -> & Ha & Hb).
  change (sepTail sep ([a; b] :: gs)) with (sep :: a :: b :: sepTail sep gs).
  rewrite lex_sep, lex_pair by assumption. now rewrite IH.
Qed.

Lemma parseTail_sepTokens sep gs : parseTail (sepTokens sep gs) = Some gs.
Proof.
  induction gs as [| g gs IH]; [reflexivity |].
  change (sepTokens sep (g :: gs)) with (Sep sep :: Pair g :: sepTokens sep gs).
  cbn [parseTail]. now rewrite IH.
Qed.

Lemma ParseString_Join sep gs :
  isSep sep -> Forall hexGroup gs -> gs <> [] ->
  ParseString (Join gs [sep]) = Some gs.
Proof.
  intros Hs HF Hne. destruct gs as [| g gs]; [congruence |].
  inversion HF as [| ? ? Hg HF']; subst.
  apply hexGroup_inv in Hg as (a & b & -> & Ha & Hb).
  rewrite Join_cons. unfold ParseString.
  change ([a; b] ++ sepTail sep gs) with (a :: b :: sepTail sep gs).
  rewrite lex_pair, lex_sepTail by assumption. simpl.
  now rewrite parseTail_sepTokens.
Qed.

Lemma Join_nil gs : Join gs [] = concat gs.
Proof.
  induction gs as [| g [| g' gs] IH]; [reflexivity | |].
  - simpl. now rewrite app_nil_r.
  - change (Join (g :: g' :: gs) []) with (g ++ [] ++ Join (g' :: gs) []).
    now rewrite IH.
Qed.

Lemma concat_hexGroups gs :
  Forall hexGroup gs ->
  length (concat gs) = (2 * length gs)%nat /\ Forall isHex (concat gs).
Proof.
  induction 1 as [| g gs [Hl Hg] HF [IHl IHF]]; [split; [reflexivity | constructor] |].
  simpl. rewrite length_app, Hl, IHl. split; [lia |].
  apply Forall_app. auto.
Qed.

(** ** Hex decoding *)

Lemma fromHexChar_hex c :
  isHex c -> exists d, fromHexChar c = Some d /\ 0 <= d < 16.
Proof.
  unfold isHex. intros H.
  assert (E : implb (in_class hexClass c)
                (match fromHexChar c with
                 | Some d => (0 <=? d) && (d <? 16)
                 | None => false
                 end) = true).
  { revert c H. intros c _. revert c. apply ascii_forall. vm_compute. reflexivity. }
  rewrite H in E. simpl in E. destruct (fromHexChar c) as [d |]; [| discriminate].
  exists d. split; [reflexivity |]. lia.
Qed.

Lemma lor_shift_nibbles a b :
  0 <= a < 16 -> 0 <= b < 16 ->
  Z.lor (Z.shiftl a 4) b = 16 * a + b.
Proof.
  intros Ha Hb.
  assert (E : forallb (fun a => forallb (fun b =>
                Z.lor (Z.shiftl a 4) b =? 16 * a + b)
                (map Z.of_nat (seq 0 16))) (map Z.of_nat (seq 0 16)) = true)
    by (vm_compute; reflexivity).
  pose proof (Z_range_forall _ _ E a Ha) as E'. cbv beta in E'.
  pose proof (Z_range_forall _ _ E' b Hb) as E''. cbv beta in E''.
  lia.
Qed.

Lemma DecodeString_hex n : forall t,
  length t = (2 * n)%nat -> Forall isHex t ->
  exists bs, DecodeString t = Some bs /\ length bs = n /\ Forall isByte bs.
Proof.
  induction n as [| n IH]; intros t Hl HF.
  - destruct t; [| discriminate]. exists []. repeat split. constructor.
  - destruct t as [| p [| q t]]; try (simpl in Hl; lia).
    inversion HF as [| ? ? Hp HF']; subst.
    inversion HF' as [| ? ? Hq HF'']; subst.
    destruct (fromHexChar_hex p Hp) as (a & Ea & Ha).
    destruct (fromHexChar_hex q Hq) as (b & Eb & Hb).
    destruct (IH t) as (bs & E & Hlen & Hbs); [simpl in Hl; lia | assumption |].
    exists (Z.lor (Z.shiftl a 4) b :: bs).
    cbn [DecodeString]. rewrite Ea, Eb, E. simpl.
    split; [reflexivity |]. split; [congruence |].
    constructor; [| assumption].
    rewrite lor_shift_nibbles by assumption. unfold isByte. lia.
Qed.

Lemma copyInto_id bs : length bs = sha256Size -> copyInto bs = bs.
Proof. intros H. unfold copyInto. now apply take_app_length'. Qed.

Lemma filter_hex_all t :
  Forall isHex t -> List.filter (in_class hexClass) t = t.
Proof.
  induction 1 as [| c t Hc HF IH]; [reflexivity |].
  cbn [List.filter]. unfold isHex in Hc. now rewrite Hc, IH.
Qed.

Lemma filter_hex_sepTail sep gs :
  isSep sep -> Forall hexGroup gs ->
  List.filter (in_class hexClass) (sepTail sep gs) = concat gs.
Proof.
  intros Hs HF. induction HF as [| g gs [_ Hg] HF IH]; [reflexivity |].
  change (sepTail sep (g :: gs)) with (sep :: g ++ sepTail sep gs).
  cbn [List.filter]. destruct (sep_classes sep Hs) as [-> _].
  now rewrite List.filter_app, IH, filter_hex_all.
Qed.

Lemma filter_hex_Join sep gs :
  isSep sep -> Forall hexGroup gs ->
  List.filter (in_class hexClass) (Join gs [sep]) = concat gs.
Proof.
  intros Hs HF. destruct gs as [| g gs]; [reflexivity |].
  inversion HF as [| ? ? [_ Hg] HF']; subst.
  rewrite Join_cons, List.filter_app, filter_hex_sepTail by assumption.
  now rewrite filter_hex_all.
Qed.

Lemma ParseFingerprint_unfold s :
  ParseFingerprint s = parseTrimmed (TrimSpace (chars s)).
Proof. reflexivity. Qed.

Lemma parseTrimmed_accepted t :
  acceptedShape t ->
  exists f, parseTrimmed t = inl f /\
            DecodeString (List.filter (in_class hexClass) t) = Some f /\
            wf f.
Proof.
  intros Hacc.
  assert (Hne : t <> []).
  { intros ->. apply acceptedShape_matches in Hacc. discriminate. }
  unfold parseTrimmed. destruct t as [| c0 t0] eqn:Et; [congruence |].
  rewrite <- Et in *. clear Et Hne c0 t0.
  destruct (matches rawHexRe t) eqn:Hraw.
  - apply matches_rawHexRe in Hraw as [Hl HF].
    destruct (DecodeString_hex 32 t Hl HF) as (bs & E & Hlen & Hbs).
    exists bs. rewrite E, copyInto_id by assumption.
    rewrite filter_hex_all by assumption. repeat split; assumption.
  - destruct Hacc as [H | H]; [apply matches_rawHexRe in H; congruence |].
    pose proof H as Hm. apply matches_separatorRe in Hm. rewrite Hm. simpl.
    destruct H as (sep & gs & Hs & Hl & HF & ->).
    rewrite ParseString_Join; [| assumption | assumption |].
    2: { intros ->. discriminate. }
    rewrite Hl. simpl. rewrite Join_nil.
    destruct (concat_hexGroups gs HF) as [Hcl HcF]. rewrite Hl in Hcl.
    destruct (DecodeString_hex 32 _ Hcl HcF) as (bs & E & Hlen & Hbs).
    exists bs. rewrite E, copyInto_id by assumption.
    rewrite filter_hex_Join by assumption. repeat split; assumption.
Qed.

Lemma parseTrimmed_rejected t :
  ~ acceptedShape t -> is_ok (parseTrimmed t) = false.
Proof.
  intros Hn. rewrite acceptedShape_matches in Hn.
  apply not_true_is_false, orb_false_iff in Hn as [H1 H2].
  unfold parseTrimmed. destruct t; [reflexivity |].
  now rewrite H1, H2.
Qed.

Lemma parseTrimmed_ok_iff t :
  is_ok (parseTrimmed t) = true <-> acceptedShape t.
Proof.
  split.
  - intros H. destruct (matches rawHexRe t || matches separatorRe t) eqn:E.
    + now apply acceptedShape_matches.
    + rewrite parseTrimmed_rejected in H; [discriminate |].
      rewrite acceptedShape_matches. congruence.
  - intros H. destruct (parseTrimmed_accepted t H) as (f & -> & _). reflexivity.
Qed.

(** ** Trimming leaves the accepted shapes alone *)

Lemma dropSpace_solid encs c t :
  startsNoSpace encs c = true -> dropSpace encs (c :: t) = None.
Proof.
  induction encs as [| e encs IH]; [reflexivity |].
  simpl. intros H. apply andb_true_iff in H as [He H].
  destruct e as [| h e]; [discriminate |].
  simpl. apply negb_true_iff in He. rewrite He. auto.
Qed.

Lemma trimLeftFuel_solid n encs c t :
  startsNoSpace encs c = true -> trimLeftFuel n encs (c :: t) = c :: t.
Proof.
  intros H. destruct n; [reflexivity |].
  simpl. now rewrite dropSpace_solid.
Qed.

Lemma TrimSpace_solid a b u v :
  startsNoSpace spaceEncodings a = true ->
  startsNoSpace (map (@rev ascii) spaceEncodings) b = true ->
  a :: u = v ++ [b] ->
  TrimSpace (a :: u) = a :: u.
Proof.
  intros Ha Hb E. unfold TrimSpace, TrimLeftSpace.
  rewrite trimLeftFuel_solid by assumption.
  unfold TrimRightSpace.
  assert (Er : rev (a :: u) = b :: rev v).
  { rewrite E, rev_app_distr. reflexivity. }
  rewrite Er, trimLeftFuel_solid by assumption.
  rewrite <- Er. apply rev_involutive.
Qed.

Lemma hex_solid c :
  isHex c ->
  startsNoSpace spaceEncodings c = true /\
  startsNoSpace (map (@rev ascii) spaceEncodings) c = true.
Proof.
  unfold isHex. intros H.
  assert (E : implb (in_class hexClass c)
                (startsNoSpace spaceEncodings c &&
                 startsNoSpace (map (@rev ascii) spaceEncodings) c) = true).
  { clear H. revert c. apply ascii_forall. vm_compute. reflexivity. }
  rewrite H in E. simpl in E. now apply andb_true_iff in E.
Qed.

Lemma sepTail_snoc sep gs g :
  sepTail sep (gs ++ [g]) = sepTail sep gs ++ sep :: g.
Proof.
  unfold sepTail. rewrite map_app, concat_app. simpl. now rewrite app_nil_r.
Qed.

(** Every accepted input starts and ends with a hex digit. *)
Lemma acceptedShape_ends t :
  acceptedShape t ->
  exists a u b v, t = a :: u /\ t = v ++ [b] /\ isHex a /\ isHex b.
Proof.
  intros [[Hl HF] | (sep & gs & Hs & Hl & HF & ->)].
  - destruct t as [| a u]; [discriminate |].
    assert (Hne : a :: u <> []) by discriminate.
    destruct (exists_last Hne) as (v & b & E).
    exists a, u, b, v. split; [reflexivity |]. split; [assumption |].
    split; [now inversion HF |].
    rewrite E in HF. apply Forall_app in HF as [_ HF]. now inversion HF.
  - destruct gs as [| g gs]; [discriminate |].
    inversion HF as [| ? ? Hg HF']; subst.
    apply hexGroup_inv in Hg as (a & b & -> & Ha & Hb).
    rewrite Join_cons.
    exists a, (b :: sepTail sep gs).
    destruct gs as [| g1 gs1] eqn:Egs.
    + exists b, [a]. repeat split; assumption.
    + assert (Hne : g1 :: gs1 <> []) by discriminate.
      destruct (exists_last Hne) as (gs' & g' & E). rewrite E in *.
      apply Forall_app in HF' as [_ Hg']. inversion Hg' as [| ? ? Hg'' _]; subst.
      apply hexGroup_inv in Hg'' as (a' & b' & -> & Ha' & Hb').
      exists b', ([a; b] ++ sepTail sep gs' ++ [sep; a']).
      split; [reflexivity |]. split; [| split; assumption].
      rewrite sepTail_snoc. simpl. rewrite <- !app_assoc. reflexivity.
Qed.

Lemma TrimSpace_accepted t : acceptedShape t -> TrimSpace t = t.
Proof.
  intros H. destruct (acceptedShape_ends t H) as (a & u & b & v & -> & E & Ha & Hb).
  apply hex_solid in Ha as [Ha _]. apply hex_solid in Hb as [_ Hb].
  now apply (TrimSpace_solid a b u v).
Qed.

(** ** Trimming removes white-space bytes only *)

Lemma stripPrefix_app e : forall s r,
  stripPrefix e s = Some r -> s = e ++ r.
Proof.
  induction e as [| a e IH]; intros s r H.
  - simpl in H. injection H as ->. reflexivity.
  - destruct s as [| b s]; [discriminate |]. simpl in H.
    destruct (Ascii.eqb a b) eqn:E; [| discriminate].
    apply Ascii.eqb_eq in E as <-. simpl. f_equal. now apply IH.
Qed.

Lemma dropSpace_app encs : forall s r,
  dropSpace encs s = Some r -> exists e, In e encs /\ s = e ++ r.
Proof.
  induction encs as [| e encs IH]; intros s r H; [discriminate |].
  simpl in H. destruct (stripPrefix e s) as [r' |] eqn:E.
  - injection H as ->. exists e. split; [now left | now apply stripPrefix_app].
  - destruct (IH s r H) as (e' & Hin & ->). exists e'. split; [now right | reflexivity].
Qed.

Lemma trimLeftFuel_app encs n : forall s,
  exists p, s = p ++ trimLeftFuel n encs s /\
            Forall (fun c => exists e, In e encs /\ In c e) p.
Proof.
  induction n as [| n IH]; intros s.
  - exists []. split; [reflexivity | constructor].
  - simpl. destruct (dropSpace encs s) as [r |] eqn:E.
    + destruct (dropSpace_app _ _ _ E) as (e & Hin & ->).
      destruct (IH r) as (p & Hr & HF).
      exists (e ++ p). split.
      * rewrite <- app_assoc. now rewrite <- Hr.
      * apply Forall_app. split; [| assumption].
        apply List.Forall_forall. intros c Hc. eauto.
    + exists []. split; [reflexivity | constructor].
Qed.

(** The input is its trimmed form between two runs of white-space
    bytes. *)
Lemma TrimSpace_decompose s :
  exists p q, s = p ++ TrimSpace s ++ q /\
              Forall isSpaceByte p /\ Forall isSpaceByte q.
Proof.
  unfold TrimSpace, TrimLeftSpace.
  destruct (trimLeftFuel_app spaceEncodings (length s) s) as (p & Hs & Hp).
  set (m := trimLeftFuel (length s) spaceEncodings s) in *.
  unfold TrimRightSpace.
  destruct (trimLeftFuel_app (map (@rev ascii) spaceEncodings) (length m) (rev m))
    as (q & Hm & Hq).
  exists p, (rev q). split; [| split].
  - rewrite Hs at 1. f_equal.
    rewrite <- (rev_involutive m) at 1. rewrite Hm at 1.
    now rewrite rev_app_distr.
  - exact Hp.
  - apply List.Forall_forall. intros c Hc. apply in_rev in Hc.
    rewrite List.Forall_forall in Hq. destruct (Hq c Hc) as (e & He & Hce).
    apply in_map_iff in He as (e' & <- & He'). exists e'.
    split; [assumption | now apply in_rev].
Qed.

Lemma hard_separator_no_space sep :
  (sep = ":" \/ sep = "-")%char -> ~ isSpaceByte sep /\ ~ isHex sep.
Proof.
  intros Hs. split.
  - intros (e & He & Hc).
    assert (Hb : forallb (fun e => forallb (fun c =>
                   negb (Ascii.eqb c ":") && negb (Ascii.eqb c "-")) e)
                   spaceEncodings = true) by (vm_compute; reflexivity).
    rewrite forallb_forall in Hb. specialize (Hb e He).
    rewrite forallb_forall in Hb. specialize (Hb sep Hc).
    destruct Hs as [-> | ->]; discriminate.
  - unfold isHex. destruct Hs as [-> | ->]; discriminate.
Qed.

(** An input with a leading or trailing [':'] or ['-'] keeps it when
    trimmed. *)
Lemma TrimSpace_hard_separator sep s t :
  (sep = ":" \/ sep = "-")%char ->
  s = sep :: t \/ s = t ++ [sep] ->
  ~ acceptedShape (TrimSpace s).
Proof.
  intros Hsep Hs Hacc.
  destruct (hard_separator_no_space sep Hsep) as [Hns Hnh].
  destruct (acceptedShape_ends _ Hacc) as (a & u & b & v & Ea & Eb & Ha & Hb).
  destruct (TrimSpace_decompose s) as (p & q & E & Hp & Hq).
  destruct Hs as [-> | ->].
  - destruct p as [| c p].
    + rewrite Ea in E. simpl in E. injection E as -> _. contradiction.
    + simpl in E. injection E as <- _. now inversion Hp.
  - destruct q as [| c q' _] using rev_ind.
    + rewrite app_nil_r, Eb, app_assoc in E.
      apply app_inj_tail in E as [_ ->]. contradiction.
    + apply Forall_app in Hq as [_ Hq]. inversion Hq as [| ? ? Hc _]; subst.
      rewrite !app_assoc in E. apply app_inj_tail in E as [_ ->]. contradiction.
Qed.

(** ** The canonical form *)

Lemma Sprintf02X_digits b :
  isByte b ->
  let c1 := upperDigit (Z.shiftr b 4) in
  let c2 := upperDigit (Z.land b 15) in
  isUpperHex c1 /\ isUpperHex c2 /\ isHex c1 /\ isHex c2 /\
  exists x y, fromHexChar c1 = Some x /\ fromHexChar c2 = Some y /\
              Z.lor (Z.shiftl x 4) y = b.
Proof.
  intros Hb.
  set (check := fun b : Z =>
    let c1 := upperDigit (Z.shiftr b 4) in
    let c2 := upperDigit (Z.land b 15) in
    in_class [("0", "9"); ("A", "F")]%char c1 &&
    in_class [("0", "9"); ("A", "F")]%char c2 &&
    in_class hexClass c1 && in_class hexClass c2 &&
    match fromHexChar c1, fromHexChar c2 with
    | Some x, Some y => Z.lor (Z.shiftl x 4) y =? b
    | _, _ => false
    end).
  assert (E : forallb check (map Z.of_nat (seq 0 256)) = true)
    by (vm_compute; reflexivity).
  pose proof (Z_range_forall check 256 E b Hb) as H.
  unfold check in H. cbv zeta in *.
  repeat (apply andb_true_iff in H as [H ?]).
  unfold isUpperHex, isHex. repeat split; try assumption.
  destruct (fromHexChar (upperDigit (Z.shiftr b 4))) as [x |]; [| discriminate].
  destruct (fromHexChar (upperDigit (Z.land b 15))) as [y |]; [| discriminate].
  exists x, y. repeat split. lia.
Qed.

Lemma Sprintf02X_hexGroup b : isByte b -> hexGroup (Sprintf02X b).
Proof.
  intros Hb. destruct (Sprintf02X_digits b Hb) as (_ & _ & H1 & H2 & _).
  split; [reflexivity |]. repeat constructor; assumption.
Qed.

Lemma Sprintf02X_upper b :
  isByte b ->
  length (Sprintf02X b) = 2%nat /\ Forall isUpperHex (Sprintf02X b).
Proof.
  intros Hb. destruct (Sprintf02X_digits b Hb) as (H1 & H2 & _).
  split; [reflexivity |]. repeat constructor; assumption.
Qed.

Lemma DecodeString_Sprintf f :
  Forall isByte f -> DecodeString (concat (map Sprintf02X f)) = Some f.
Proof.
  induction 1 as [| b f Hb HF IH]; [reflexivity |].
  destruct (Sprintf02X_digits b Hb) as (_ & _ & _ & _ & x & y & Ex & Ey & E).
  cbv zeta in *.
  change (concat (map Sprintf02X (b :: f))) with
    (upperDigit (Z.shiftr b 4) :: upperDigit (Z.land b 15)
       :: concat (map Sprintf02X f)).
  cbn [DecodeString]. rewrite Ex, Ey, IH, E. reflexivity.
Qed.

Lemma Forall_Sprintf_hexGroup f :
  Forall isByte f -> Forall hexGroup (map Sprintf02X f).
Proof.
  induction 1; constructor; [now apply Sprintf02X_hexGroup | assumption].
Qed.

Lemma chars_String f : chars (String f) = Join (map Sprintf02X f) [":"%char].
Proof. apply list_ascii_of_string_of_list_ascii. Qed.

Lemma String_separated f :
  wf f -> separatedShape (chars (String f)).
Proof.
  intros [Hl HF]. exists ":"%char, (map Sprintf02X f).
  split; [left; reflexivity |]. split; [now rewrite length_map |].
  split; [| apply chars_String].
  now apply Forall_Sprintf_hexGroup.
Qed.

(** Parsing the canonical form of a well-formed fingerprint. *)
Lemma ParseFingerprint_String f :
  wf f -> ParseFingerprint (String f) = inl f.
Proof.
  intros Hwf. pose proof (String_separated f Hwf) as Hsep.
  assert (Hacc : acceptedShape (chars (String f))) by now right.
  rewrite ParseFingerprint_unfold, TrimSpace_accepted by assumption.
  destruct (parseTrimmed_accepted _ Hacc) as (f' & -> & Hd & _).
  destruct Hwf as [Hl HF].
  rewrite chars_String, (filter_hex_Join ":"%char) in Hd.
  - rewrite DecodeString_Sprintf in Hd by assumption. congruence.
  - left; reflexivity.
  - now apply Forall_Sprintf_hexGroup.
Qed.

(** Every parsed value is a well-formed fingerprint, decoded from the hex
    digits of the trimmed input. *)
Lemma ParseFingerprint_inl s f :
  ParseFingerprint s = inl f ->
  acceptedShape (TrimSpace (chars s)) /\
  DecodeString (List.filter (in_class hexClass) (TrimSpace (chars s))) = Some f /\
  wf f.
Proof.
  rewrite ParseFingerprint_unfold. intros H.
  assert (Hacc : acceptedShape (TrimSpace (chars s))).
  { apply parseTrimmed_ok_iff. now rewrite H. }
  split; [assumption |].
  destruct (parseTrimmed_accepted _ Hacc) as (f' & E & Hd & Hwf).
  assert (f' = f) as -> by congruence. auto.
Qed.

(** ** Letter case *)

Lemma ascii_forall2 (P : ascii -> ascii -> bool) :
  forallb (fun c => forallb (P c) all_ascii) all_ascii = true ->
  forall c c', P c c' = true.
Proof.
  intros H c c'.
  pose proof (ascii_forall _ H c) as H'. cbv beta in H'.
  exact (ascii_forall _ H' c').
Qed.

Lemma lower_eq_classes c c' :
  lower c = lower c' ->
  in_class hexClass c = in_class hexClass c' /\
  in_class [(":", ":")]%char c = in_class [(":", ":")]%char c' /\
  in_class [("-", "-")]%char c = in_class [("-", "-")]%char c' /\
  in_class [(" ", " ")]%char c = in_class [(" ", " ")]%char c' /\
  fromHexChar c = fromHexChar c'.
Proof.
  intros E.
  set (optEq := fun (x y : option Z) =>
         match x, y with
         | Some a, Some b => a =? b
         | None, None => true
         | _, _ => false
         end).
  set (check := fun c c' =>
         implb (Ascii.eqb (lower c) (lower c'))
           (Bool.eqb (in_class hexClass c) (in_class hexClass c') &&
            Bool.eqb (in_class [(":", ":")]%char c) (in_class [(":", ":")]%char c') &&
            Bool.eqb (in_class [("-", "-")]%char c) (in_class [("-", "-")]%char c') &&
            Bool.eqb (in_class [(" ", " ")]%char c) (in_class [(" ", " ")]%char c') &&
            optEq (fromHexChar c) (fromHexChar c'))).
  assert (H : forall c c', check c c' = true).
  { apply ascii_forall2. vm_compute. reflexivity. }
  specialize (H c c'). unfold check in H.
  rewrite E, Ascii.eqb_refl in H. simpl in H.
  repeat (apply andb_true_iff in H as [H ?]).
  repeat match goal with
         | X : Bool.eqb _ _ = true |- _ => apply Bool.eqb_prop in X
         end.
  repeat split; try assumption.
  unfold optEq in *.
  destruct (fromHexChar c), (fromHexChar c'); try discriminate; [| reflexivity].
  f_equal. lia.
Qed.

Lemma stable_rep n r : stable r -> stable (rep n r).
Proof. intros H. induction n; simpl; auto. Qed.

Lemma stable_separatedBy sep : isSep sep -> stable (separatedBy sep).
Proof.
  intros Hs.
  assert (Hh : classStable hexClass) by (intros c c' E; apply lower_eq_classes, E).
  assert (Hc : classStable [(sep, sep)]).
  { intros c c' E. destruct (lower_eq_classes c c' E) as (_ & H1 & H2 & H3 & _).
    destruct Hs as [-> | [-> | ->]]; assumption. }
  unfold separatedBy. split; [apply (stable_rep 2); exact Hh |].
  apply stable_rep. split; [exact Hc | apply (stable_rep 2); exact Hh].
Qed.

Lemma stable_rawHexRe : stable rawHexRe.
Proof.
  apply stable_rep. intros c c' E. apply lower_eq_classes, E.
Qed.

Lemma stable_separatorRe : stable separatorRe.
Proof.
  unfold separatorRe. cbn [stable].
  split; [| split]; apply stable_separatedBy; unfold isSep; tauto.
Qed.

Lemma deriv_case r c c' :
  stable r -> lower c = lower c' -> deriv c r = deriv c' r.
Proof.
  intros Hs E. induction r as [| | cl | r1 IH1 r2 IH2 | r1 IH1 r2 IH2];
    simpl in *; try reflexivity.
  - now rewrite (Hs c c' E).
  - destruct Hs. now rewrite IH1, IH2.
  - destruct Hs. now rewrite IH1, IH2.
Qed.

Lemma stable_deriv r c : stable r -> stable (deriv c r).
Proof.
  induction r as [| | cl | r1 IH1 r2 IH2 | r1 IH1 r2 IH2]; simpl; auto.
  - intros _. destruct (in_class cl c); exact I.
  - intros [H1 H2]. destruct (nullable r1); simpl; auto.
  - intros [H1 H2]. auto.
Qed.

Lemma matches_case s : forall s' r,
  stable r -> sameUpToCase s s' -> matches r s = matches r s'.
Proof.
  unfold sameUpToCase.
  induction s as [| c s IH]; intros [| c' s'] r Hs E; try discriminate.
  - reflexivity.
  - injection E as Ec E. simpl.
    rewrite (deriv_case r c c' Hs Ec). apply IH; [| assumption].
    now apply stable_deriv.
Qed.

Lemma acceptedShape_case t t' :
  sameUpToCase t t' -> acceptedShape t -> acceptedShape t'.
Proof.
  intros E. rewrite !acceptedShape_matches.
  now rewrite (matches_case t t' rawHexRe stable_rawHexRe E),
              (matches_case t t' separatorRe stable_separatorRe E).
Qed.

Lemma inert_spec b x : inert b = true -> lower x = lower b -> x = b.
Proof.
  unfold inert. intros H E. rewrite forallb_forall in H.
  specialize (H x (in_all_ascii x)).
  rewrite E, Ascii.eqb_refl in H. simpl in H. now apply Ascii.eqb_eq.
Qed.

Lemma stripPrefix_case e : forall s s',
  forallb inert e = true -> sameUpToCase s s' ->
  optCase (stripPrefix e s) (stripPrefix e s').
Proof.
  unfold sameUpToCase.
  induction e as [| a e IH]; intros s s' He E; [exact E |].
  simpl in He. apply andb_true_iff in He as [Ha He].
  destruct s as [| b s], s' as [| b' s']; try discriminate; [exact I |].
  injection E as Eb E. simpl.
  destruct (Ascii.eqb a b) eqn:Eab.
  - apply Ascii.eqb_eq in Eab as <-.
    assert (b' = a) as -> by (apply inert_spec; congruence).
    rewrite Ascii.eqb_refl. now apply IH.
  - destruct (Ascii.eqb a b') eqn:Eab'; [| exact I].
    apply Ascii.eqb_eq in Eab' as <-.
    assert (b = a) as -> by (apply inert_spec; congruence).
    now rewrite Ascii.eqb_refl in Eab.
Qed.

Lemma dropSpace_case encs : forall s s',
  forallb (forallb inert) encs = true -> sameUpToCase s s' ->
  optCase (dropSpace encs s) (dropSpace encs s').
Proof.
  induction encs as [| e encs IH]; intros s s' He E; [exact I |].
  simpl in He. apply andb_true_iff in He as [He1 He].
  simpl. pose proof (stripPrefix_case e s s' He1 E) as H.
  destruct (stripPrefix e s), (stripPrefix e s'); simpl in H; try tauto.
  now apply IH.
Qed.

Lemma trimLeftFuel_case encs n : forall s s',
  forallb (forallb inert) encs = true -> sameUpToCase s s' ->
  sameUpToCase (trimLeftFuel n encs s) (trimLeftFuel n encs s').
Proof.
  induction n as [| n IH]; intros s s' He E; [exact E |].
  simpl. pose proof (dropSpace_case encs s s' He E) as H.
  destruct (dropSpace encs s), (dropSpace encs s'); simpl in H; try tauto.
  now apply IH.
Qed.

Lemma sameUpToCase_length s s' : sameUpToCase s s' -> length s = length s'.
Proof.
  intros E. apply (f_equal (@length ascii)) in E.
  now rewrite !List.length_map in E.
Qed.

Lemma sameUpToCase_rev s s' :
  sameUpToCase s s' -> sameUpToCase (rev s) (rev s').
Proof. unfold sameUpToCase. intros E. now rewrite !List.map_rev, E. Qed.

Lemma TrimSpace_case s s' :
  sameUpToCase s s' -> sameUpToCase (TrimSpace s) (TrimSpace s').
Proof.
  intros E. unfold TrimSpace.
  assert (E1 : sameUpToCase (TrimLeftSpace s) (TrimLeftSpace s')).
  { unfold TrimLeftSpace. rewrite (sameUpToCase_length s s' E).
    apply trimLeftFuel_case; [vm_compute; reflexivity | assumption]. }
  unfold TrimRightSpace. rewrite (sameUpToCase_length _ _ E1).
  apply sameUpToCase_rev.
  apply trimLeftFuel_case; [vm_compute; reflexivity |].
  now apply sameUpToCase_rev.
Qed.

Lemma filter_hex_case s : forall s',
  sameUpToCase s s' ->
  sameUpToCase (List.filter (in_class hexClass) s)
               (List.filter (in_class hexClass) s').
Proof.
  unfold sameUpToCase.
  induction s as [| c s IH]; intros [| c' s'] E; try discriminate; [reflexivity |].
  injection E as Ec E. cbn [List.filter].
  destruct (lower_eq_classes c c' Ec) as (-> & _).
  destruct (in_class hexClass c'); simpl; [f_equal |]; auto.
Qed.

Lemma DecodeString_case n : forall t t',
  (length t <= n)%nat -> sameUpToCase t t' ->
  DecodeString t = DecodeString t'.
Proof.
  unfold sameUpToCase.
  induction n as [| n IH]; intros t t' Hl E.
  - destruct t; [| simpl in Hl; lia]. destruct t'; [reflexivity | discriminate].
  - destruct t as [| p [| q t]], t' as [| p' [| q' t']]; try discriminate;
      try reflexivity.
    injection E as Ep Eq E. cbn [DecodeString].
    destruct (lower_eq_classes p p' Ep) as (_ & _ & _ & _ & ->).
    destruct (lower_eq_classes q q' Eq) as (_ & _ & _ & _ & ->).
    rewrite (IH t t'); [reflexivity | simpl in Hl; lia | assumption].
Qed.

(** ** Trimming removes no hex digit *)

Lemma stripPrefix_filter e : forall s r,
  noHex e = true -> stripPrefix e s = Some r ->
  List.filter (in_class hexClass) s = List.filter (in_class hexClass) r.
Proof.
  induction e as [| a e IH]; intros s r He H.
  - simpl in H. congruence.
  - unfold noHex in *. cbn [forallb] in He.
    apply andb_true_iff in He as [Ha He].
    destruct s as [| b s]; [discriminate |]. simpl in H.
    destruct (Ascii.eqb a b) eqn:Eab; [| discriminate].
    apply Ascii.eqb_eq in Eab as <-. cbn [List.filter].
    apply negb_true_iff in Ha. rewrite Ha. now apply IH.
Qed.

Lemma trimLeftFuel_filter encs n : forall s,
  forallb noHex encs = true ->
  List.filter (in_class hexClass) (trimLeftFuel n encs s) =
  List.filter (in_class hexClass) s.
Proof.
  intros s He. revert s. induction n as [| n IH]; intros s; [reflexivity |].
  simpl. destruct (dropSpace encs s) as [r |] eqn:E; [| reflexivity].
  rewrite IH. symmetry.
  clear IH. induction encs as [| e encs IHe]; [discriminate |].
  simpl in He. apply andb_true_iff in He as [He1 He].
  simpl in E. destruct (stripPrefix e s) as [r' |] eqn:E'.
  - injection E as ->. now apply (stripPrefix_filter e).
  - now apply IHe.
Qed.

Lemma TrimSpace_filter s :
  List.filter (in_class hexClass) (TrimSpace s) =
  List.filter (in_class hexClass) s.
Proof.
  unfold TrimSpace, TrimRightSpace.
  rewrite List.filter_rev, trimLeftFuel_filter by (vm_compute; reflexivity).
  rewrite List.filter_rev, rev_involutive.
  unfold TrimLeftSpace. apply trimLeftFuel_filter. vm_compute. reflexivity.
Qed.

Lemma Forall_Sprintf_upper f :
  Forall isByte f ->
  Forall (fun g => length g = 2%nat /\ Forall isUpperHex g) (map Sprintf02X f).
Proof.
  induction 1; constructor; [now apply Sprintf02X_upper | assumption].
Qed.

Lemma String_canonical f : wf f -> canonicalForm (chars (String f)).
Proof.
  intros [Hl HF]. exists (map Sprintf02X f).
  split; [now rewrite List.length_map |].
  split; [now apply Forall_Sprintf_upper | apply chars_String].
Qed.

End FingerprintFacts.

(* ===================================================================== *)
(** * Properties of [ParseFingerprint] and [Fingerprint.String]           *)
(* ===================================================================== *)

Module FingerprintClaims.
Import GoString Regexp Fingerprint FingerprintSpec FingerprintFacts Samples.

(** The cases of [TestParseFingerprint]. *)
Example parse_raw : ParseFingerprint validSHA256 = inl validFP.
Proof. vm_compute. reflexivity. Qed.

Example parse_colons : ParseFingerprint validSHA256Formatted = inl validFP.
Proof. vm_compute. reflexivity. Qed.

Example parse_spaces : ParseFingerprint validSHA256Spaces = inl validFP.
Proof. vm_compute. reflexivity. Qed.

Example parse_lowercase : ParseFingerprint validSHA256Lower = inl validFP.
Proof. vm_compute. reflexivity. Qed.

Example string_valid : String validFP = validSHA256Formatted.
Proof. vm_compute. reflexivity. Qed.

Example parse_empty : ParseFingerprint "" = inr ErrEmpty.
Proof. reflexivity. Qed.

Example parse_whitespace_only : ParseFingerprint "   " = inr ErrEmpty.
Proof. vm_compute. reflexivity. Qed.

Example parse_too_short : ParseFingerprint "D7A7A0FB" = inr ErrFormat.
Proof. vm_compute. reflexivity. Qed.

Example parse_double_separator :
  ParseFingerprint "D7::A7:A0:FB:5D:7E:27:31:D7:A7:A0:FB:5D:7E:27:31:D7:A7:A0:FB:5D:7E:27:31:D7:A7:A0:FB:5D:7E:27:31"
  = inr ErrFormat.
Proof. vm_compute. reflexivity. Qed.

Example parse_mixed_separators :
  ParseFingerprint "D7:A7-A0:FB:5D:7E:27:31:D7:A7:A0:FB:5D:7E:27:31:D7:A7:A0:FB:5D:7E:27:31:D7:A7:A0:FB:5D:7E:27:31"
  = inr ErrFormat.
Proof. vm_compute. reflexivity. Qed.

Example parse_leading_colon :
  ParseFingerprint ":D7:A7:A0:FB:5D:7E:27:31:D7:A7:A0:FB:5D:7E:27:31:D7:A7:A0:FB:5D:7E:27:31:D7:A7:A0:FB:5D:7E:27:31"
  = inr ErrFormat.
Proof. vm_compute. reflexivity. Qed.

Example parse_trailing_colon :
  ParseFingerprint "D7:A7:A0:FB:5D:7E:27:31:D7:A7:A0:FB:5D:7E:27:31:D7:A7:A0:FB:5D:7E:27:31:D7:A7:A0:FB:5D:7E:27:31:"
  = inr ErrFormat.
Proof. vm_compute. reflexivity. Qed.

(** C4, as amended: [ParseFingerprint] first trims the white space
    around its input; it succeeds exactly when the trimmed input is
    (a) 64 contiguous hex characters or (b) 32 two-character hex groups
    joined by one and the same separator out of [':'], ['-'], [' '], and
    returns an error for every other trimmed input; an input with a
    leading or trailing [':'] or ['-'] is among those. *)
Theorem ParseFingerprint_accepts_exactly_trimmed_shapes (s : string) :
  (is_ok (ParseFingerprint s) = true <->
   acceptedShape (TrimSpace (chars s))) /\
  (forall sep t,
     (sep = ":" \/ sep = "-")%char ->
     chars s = sep :: t \/ chars s = t ++ [sep] ->
     exists e, ParseFingerprint s = inr e).
Proof.
  assert (Hiff : is_ok (ParseFingerprint s) = true <->
                 acceptedShape (TrimSpace (chars s))).
  { rewrite ParseFingerprint_unfold. apply parseTrimmed_ok_iff. }
  split; [exact Hiff |].
  intros sep t Hsep Hs.
  pose proof (TrimSpace_hard_separator sep (chars s) t Hsep Hs) as Hn.
  destruct (ParseFingerprint s) as [f | e]; [| eauto].
  exfalso. apply Hn, Hiff. reflexivity.
Qed.

Lemma ParseFingerprint_accepts_exactly_trimmed_shapes_witness :
  exists e, ParseFingerprint (":" +:+ validSHA256Formatted) = inr e.
Proof.
  apply (proj2 (ParseFingerprint_accepts_exactly_trimmed_shapes
                  (":" +:+ validSHA256Formatted))
               ":"%char (chars validSHA256Formatted)).
  - left. reflexivity.
  - left. vm_compute. reflexivity.
Defined.

(** C4, as stated, fails: the space-separated form with one more
    separator behind it is none of the two shapes, and is accepted. *)
Lemma ParseFingerprint_accepts_trailing_separator :
  ParseFingerprint trailingSpace = inl validFP /\
  ~ acceptedShape (chars trailingSpace).
Proof.
  split; [vm_compute; reflexivity |].
  rewrite acceptedShape_matches. vm_compute. discriminate.
Qed.

(** C5: for every input that [ParseFingerprint] accepts, parsing the
    canonical [String] form of the parsed value succeeds and yields the
    same fingerprint. *)
Theorem ParseFingerprint_String_roundtrip (s : string) (f : Fingerprint) :
  ParseFingerprint s = inl f ->
  ParseFingerprint (String f) = ParseFingerprint s.
Proof.
  intros H. rewrite H. apply ParseFingerprint_String.
  now apply ParseFingerprint_inl in H.
Qed.

Lemma ParseFingerprint_String_roundtrip_witness :
  ParseFingerprint validSHA256Spaces = inl validFP /\
  ParseFingerprint (String validFP) = ParseFingerprint validSHA256Spaces.
Proof.
  assert (H : ParseFingerprint validSHA256Spaces = inl validFP)
    by (vm_compute; reflexivity).
  split; [exact H |].
  exact (ParseFingerprint_String_roundtrip validSHA256Spaces validFP H).
Defined.

(** C10: [ParseFingerprint] does not depend on the case of the hex
    digits: an input that differs from an accepted one only in letter
    case is accepted with the same value; two accepted inputs, in
    whatever formats, with the same hex digits up to case have the same
    value; and the [String] form of every parsed value is 32 upper-case
    pairs joined by [':']. *)
Theorem ParseFingerprint_case_insensitive :
  (forall s s' f,
     ParseFingerprint s = inl f ->
     sameUpToCase (chars s) (chars s') ->
     ParseFingerprint s' = inl f) /\
  (forall s1 s2 f1 f2,
     ParseFingerprint s1 = inl f1 ->
     ParseFingerprint s2 = inl f2 ->
     hexDigits (chars s1) = hexDigits (chars s2) ->
     f1 = f2) /\
  (forall s f,
     ParseFingerprint s = inl f -> canonicalForm (chars (String f))).
Proof.
  split; [| split].
  - intros s s' f H E.
    apply ParseFingerprint_inl in H as (Hacc & Hd & _).
    apply TrimSpace_case in E.
    pose proof (acceptedShape_case _ _ E Hacc) as Hacc'.
    rewrite ParseFingerprint_unfold.
    destruct (parseTrimmed_accepted _ Hacc') as (f' & -> & Hd' & _).
    apply filter_hex_case in E.
    rewrite (DecodeString_case _ _ _ (Nat.le_refl _) E) in Hd. congruence.
  - intros s1 s2 f1 f2 H1 H2 E.
    apply ParseFingerprint_inl in H1 as (_ & Hd1 & _).
    apply ParseFingerprint_inl in H2 as (_ & Hd2 & _).
    rewrite TrimSpace_filter in Hd1, Hd2.
    rewrite (DecodeString_case _ _ _ (Nat.le_refl _) E) in Hd1. congruence.
  - intros s f H. apply String_canonical.
    now apply ParseFingerprint_inl in H.
Qed.

Lemma ParseFingerprint_case_insensitive_witness :
  ParseFingerprint validSHA256Lower = inl validFP /\
  validFP = validFP /\
  canonicalForm (chars (String validFP)).
Proof.
  assert (H : ParseFingerprint validSHA256 = inl validFP)
    by (vm_compute; reflexivity).
  assert (H' : ParseFingerprint validSHA256Spaces = inl validFP)
    by (vm_compute; reflexivity).
  destruct ParseFingerprint_case_insensitive as (T1 & T2 & T3).
  split; [| split].
  - apply (T1 validSHA256 validSHA256Lower validFP H). vm_compute. reflexivity.
  - apply (T2 validSHA256 validSHA256Spaces validFP validFP H H').
    vm_compute. reflexivity.
  - exact (T3 validSHA256 validFP H).
Defined.

End FingerprintClaims.

(* ===================================================================== *)
(** * Facts about the version ordering                                    *)
(* ===================================================================== *)

Module SemverFacts.
Import Semver.

Lemma sign_cases x y : sign x y = -1 \/ sign x y = 0 \/ sign x y = 1.
Proof.
  unfold sign. destruct (x <? y); [auto |]. destruct (y <? x); auto.
Qed.

Lemma compareLex_cases a : forall b,
  compareLex a b = -1 \/ compareLex a b = 0 \/ compareLex a b = 1.
Proof.
  induction a as [| x a IH]; intros [| y b]; simpl; auto.
  destruct (sign x y =? 0); [apply IH | apply sign_cases].
Qed.

(** The model of the version library satisfies the laws. *)
#[export] Instance specLib_laws : Laws specLib.
Proof.
  split.
  - intros v w. apply compareLex_cases.
  - reflexivity.
  - simpl. intros a b va vb ca cb Ha Hb Ha' Hb'. congruence.
Qed.

End SemverFacts.

Module versionFacts.
Import version.

Lemma lexOrder_strLess a b :
  (if strLess a b then -1 else if strLess b a then 1 else 0) = lexOrder a b.
Proof.
  unfold strLess, String.ltb, lexOrder.
  rewrite (String.compare_antisym b a).
  destruct (String.compare a b); reflexivity.
Qed.

Section WithSemver.
Context {L : Semver.Lib} {LW : Semver.Laws L}.

Lemma Compare_current_l b : b <> Current -> Compare Current b = 1.
Proof.
  intros Hb. unfold Compare. rewrite String.eqb_refl.
  apply String.eqb_neq in Hb. now rewrite Hb.
Qed.

Lemma Compare_current_r a : a <> Current -> Compare a Current = -1.
Proof.
  intros Ha. unfold Compare. rewrite String.eqb_refl.
  apply String.eqb_neq in Ha. now rewrite Ha.
Qed.

Lemma Compare_current_current : Compare Current Current = 0.
Proof. unfold Compare. now rewrite String.eqb_refl. Qed.

(** Away from the sentinel, [Compare] is decided by the library. *)
Lemma Compare_plain a b :
  a <> Current -> b <> Current ->
  Compare a b =
  match Semver.NewVersion a, Semver.NewVersion b with
  | Some va, Some vb => Semver.Compare va vb
  | Some _, None => -1
  | None, Some _ => 1
  | None, None => lexOrder a b
  end.
Proof.
  intros Ha Hb. unfold Compare.
  apply String.eqb_neq in Ha, Hb. rewrite Ha, Hb. simpl.
  destruct (Semver.NewVersion a), (Semver.NewVersion b); try reflexivity.
  apply lexOrder_strLess.
Qed.

Lemma parsed_not_current a va : Semver.NewVersion a = Some va -> a <> Current.
Proof.
  intros H ->. unfold Current in H. rewrite Semver.NewVersion_current in H.
  discriminate.
Qed.

Lemma lexOrder_cases a b :
  lexOrder a b = -1 \/ lexOrder a b = 0 \/ lexOrder a b = 1.
Proof. unfold lexOrder. destruct (String.compare a b); auto. Qed.

Lemma Compare_cases a b :
  Compare a b = -1 \/ Compare a b = 0 \/ Compare a b = 1.
Proof.
  destruct (String.eqb_spec a Current) as [-> | Ha];
    destruct (String.eqb_spec b Current) as [-> | Hb].
  - rewrite Compare_current_current. auto.
  - rewrite Compare_current_l by assumption. auto.
  - rewrite Compare_current_r by assumption. auto.
  - rewrite Compare_plain by assumption.
    destruct (Semver.NewVersion a), (Semver.NewVersion b); auto.
    + apply Semver.Compare_sign.
    + apply lexOrder_cases.
Qed.

End WithSemver.
End versionFacts.

(* ===================================================================== *)
(** * Properties of [version.Compare]                                     *)
(* ===================================================================== *)

Module componentsFacts.
Import SemverSpec.

Lemma nth_pad n a i : nth i (Semver.pad n a) 0 = nth i a 0.
Proof.
  unfold Semver.pad. destruct (Nat.lt_ge_cases i (length a)) as [Hi | Hi].
  - now apply app_nth1.
  - rewrite app_nth2 by assumption. rewrite (nth_overflow a) by assumption.
    destruct (Nat.lt_ge_cases (i - length a) (n - length a)) as [Hk | Hk].
    + now apply nth_repeat_lt.
    + apply nth_overflow. now rewrite repeat_length.
Qed.

Lemma componentsLess_not_equal ca cb :
  componentsLess ca cb -> ~ componentsEqual ca cb.
Proof. intros (i & _ & Hlt) He. specialize (He i). lia. Qed.

Lemma componentsLess_asym ca cb :
  componentsLess ca cb -> ~ componentsLess cb ca.
Proof.
  intros (i & Hi & Hlt) (k & Hk & Hgt).
  destruct (Nat.lt_trichotomy i k) as [Hik | [-> | Hki]].
  - specialize (Hk i Hik). lia.
  - lia.
  - specialize (Hi k Hki). lia.
Qed.

(** The first component that differs decides. *)
Lemma compareLex_first_diff a : forall b,
  length a = length b ->
  (Semver.compareLex a b = 0 /\ componentsEqual a b) \/
  (Semver.compareLex a b = -1 /\ componentsLess a b) \/
  (Semver.compareLex a b = 1 /\ componentsLess b a).
Proof.
  induction a as [| x a IH]; intros [| y b] Hl; try discriminate.
  - left. split; [reflexivity | intros i; reflexivity].
  - injection Hl as Hl. cbn [Semver.compareLex]. unfold Semver.sign.
    destruct (Z.ltb_spec x y) as [Hxy | Hxy].
    + right; left. split; [reflexivity |].
      exists 0%nat. split; [intros j Hj; lia | assumption].
    + destruct (Z.ltb_spec y x) as [Hyx | Hyx].
      * right; right. split; [reflexivity |].
        exists 0%nat. split; [intros j Hj; lia | assumption].
      * assert (x = y) as -> by lia. cbn [Z.eqb].
        destruct (IH b Hl) as [[E He] | [[E (i & Hi & Hlt)] | [E (i & Hi & Hlt)]]].
        -- left. split; [assumption |]. intros [| i]; [reflexivity | apply He].
        -- right; left. split; [assumption |]. exists (S i). split.
           ++ intros [| j] Hj; [reflexivity | apply Hi; lia].
           ++ exact Hlt.
        -- right; right. split; [assumption |]. exists (S i). split.
           ++ intros [| j] Hj; [reflexivity | apply Hi; lia].
           ++ exact Hlt.
Qed.

Lemma componentsEqual_pad n ca cb :
  componentsEqual (Semver.pad n ca) (Semver.pad n cb) <->
  componentsEqual ca cb.
Proof.
  unfold componentsEqual. split; intros He i; specialize (He i);
    now rewrite !nth_pad in *.
Qed.

Lemma componentsLess_pad n ca cb :
  componentsLess (Semver.pad n ca) (Semver.pad n cb) <->
  componentsLess ca cb.
Proof.
  unfold componentsLess. split; intros (i & Hi & Hlt); exists i;
    rewrite ?nth_pad in *; (split; [| assumption]);
    intros j Hj; specialize (Hi j Hj); now rewrite ?nth_pad in *.
Qed.

(** [compareComponents] is the component-wise numeric comparison. *)
Lemma compareComponents_spec ca cb :
  (Semver.compareComponents ca cb = 0 <-> componentsEqual ca cb) /\
  (Semver.compareComponents ca cb = -1 <-> componentsLess ca cb) /\
  (Semver.compareComponents ca cb = 1 <-> componentsLess cb ca).
Proof.
  unfold Semver.compareComponents.
  set (n := Nat.max (length ca) (length cb)).
  assert (Hl : length (Semver.pad n ca) = length (Semver.pad n cb)).
  { unfold Semver.pad. rewrite !length_app, !repeat_length. lia. }
  pose proof (componentsEqual_pad n ca cb) as HE.
  pose proof (componentsLess_pad n ca cb) as HL.
  pose proof (componentsLess_pad n cb ca) as HG.
  pose proof (componentsLess_not_equal ca cb) as N1.
  pose proof (componentsLess_not_equal cb ca) as N2.
  pose proof (componentsLess_asym ca cb) as N3.
  assert (N4 : componentsEqual cb ca -> componentsEqual ca cb)
    by (intros He i; symmetry; apply He).
  assert (N5 : componentsEqual ca cb -> componentsEqual cb ca)
    by (intros He i; symmetry; apply He).
  destruct (compareLex_first_diff _ _ Hl) as [[E H] | [[E H] | [E H]]];
    rewrite E; split_and!; split; intros X; try discriminate X;
    try reflexivity; try tauto.
Qed.

End componentsFacts.

Module versionClaims.
Import version versionFacts SemverFacts.

(** The cases of the specification and of [TestCompareAsc], with the
    model of the version library. *)
Example compare_current_current : Compare (L := Semver.specLib) "current" "current" = 0.
Proof. reflexivity. Qed.

Example compare_139_current : Compare (L := Semver.specLib) "139" "current" = -1.
Proof. reflexivity. Qed.

Example compare_current_138 : Compare (L := Semver.specLib) "current" "138" = 1.
Proof. reflexivity. Qed.

Example compare_17_4_18 : Compare (L := Semver.specLib) "17.4" "18" = -1.
Proof. vm_compute. reflexivity. Qed.

Example compare_15_15_0_0 : Compare (L := Semver.specLib) "15" "15.0.0" = 0.
Proof. vm_compute. reflexivity. Qed.

Example compare_asc_17_4_17_5 : CompareAsc (L := Semver.specLib) "17.4" "17.5" = true.
Proof. vm_compute. reflexivity. Qed.

(** C6, as amended: with the version library as the specification
    describes it (the library is a dependency and not in the sources),
    [Compare] returns -1, 0 or 1; ["current"] compares greater than
    every other string and equal only to itself; two dotted-numeric
    strings compare component-wise numerically, a missing component
    counting as 0 and the first component that differs deciding; if
    exactly one of the two strings parses, the parseable one compares
    less; and if neither parses and neither is ["current"], the result
    is the lexicographic string order. *)
Theorem Compare_ordering :
  (forall a b,
     Compare (L := Semver.specLib) a b = -1 \/
     Compare (L := Semver.specLib) a b = 0 \/
     Compare (L := Semver.specLib) a b = 1) /\
  (forall b, b <> Current ->
     Compare (L := Semver.specLib) Current b = 1 /\
     Compare (L := Semver.specLib) b Current = -1) /\
  (forall b, Compare (L := Semver.specLib) Current b = 0 <-> b = Current) /\
  (forall a, Compare (L := Semver.specLib) a Current = 0 <-> a = Current) /\
  (forall a b ca cb,
     Semver.dottedNumeric a = Some ca -> Semver.dottedNumeric b = Some cb ->
     (Compare (L := Semver.specLib) a b = -1 <->
      SemverSpec.componentsLess ca cb) /\
     (Compare (L := Semver.specLib) a b = 0 <->
      SemverSpec.componentsEqual ca cb) /\
     (Compare (L := Semver.specLib) a b = 1 <->
      SemverSpec.componentsLess cb ca)) /\
  (forall a b ca,
     Semver.dottedNumeric a = Some ca -> Semver.dottedNumeric b = None ->
     Compare (L := Semver.specLib) a b = -1 /\
     Compare (L := Semver.specLib) b a = 1) /\
  (forall a b,
     a <> Current -> b <> Current ->
     Semver.dottedNumeric a = None -> Semver.dottedNumeric b = None ->
     Compare (L := Semver.specLib) a b = lexOrder a b).
Proof.
  repeat apply conj.
  - apply Compare_cases.
  - intros b Hb. split; [now apply Compare_current_l | now apply Compare_current_r].
  - intros b. split.
    + intros H. destruct (String.eqb_spec b Current) as [-> | Hb]; [reflexivity |].
      rewrite Compare_current_l in H by assumption. discriminate.
    + intros ->. apply Compare_current_current.
  - intros a. split.
    + intros H. destruct (String.eqb_spec a Current) as [-> | Ha]; [reflexivity |].
      rewrite Compare_current_r in H by assumption. discriminate.
    + intros ->. apply Compare_current_current.
  - intros a b ca cb Ha Hb.
    assert (E : Compare (L := Semver.specLib) a b =
                Semver.compareComponents ca cb).
    { rewrite Compare_plain
        by (eapply (parsed_not_current (L := Semver.specLib)); eassumption).
      cbn [Semver.NewVersion Semver.Compare Semver.specLib].
      now rewrite Ha, Hb. }
    rewrite E.
    destruct (componentsFacts.compareComponents_spec ca cb) as (H0 & H1 & H2).
    auto.
  - intros a b ca Ha Hb.
    pose proof (parsed_not_current (L := Semver.specLib) a ca Ha) as Hna.
    destruct (String.eqb_spec b Current) as [-> | Hnb].
    + split; [now apply Compare_current_r | now apply Compare_current_l].
    + rewrite !Compare_plain by assumption.
      cbn [Semver.NewVersion Semver.specLib]. now rewrite Ha, Hb.
  - intros a b Ha Hb Hpa Hpb.
    rewrite Compare_plain by assumption.
    cbn [Semver.NewVersion Semver.specLib]. now rewrite Hpa, Hpb.
Qed.

Lemma Compare_ordering_witness :
  Compare (L := Semver.specLib) "17.4" "18" = -1 /\
  Compare (L := Semver.specLib) "15" "15.0.0" = 0 /\
  Compare (L := Semver.specLib) "17.4" "beta" = -1 /\
  Compare (L := Semver.specLib) "alpha" "beta" = -1.
Proof.
  destruct Compare_ordering as (_ & _ & _ & _ & Tnum & Tone & Tnone).
  split_and!.
  - apply (Tnum "17.4" "18" [17; 4] [18]); try (vm_compute; reflexivity).
    exists 0%nat. split; [intros j Hj; lia | cbn; lia].
  - apply (Tnum "15" "15.0.0" [15] [15; 0; 0]); try (vm_compute; reflexivity).
    intros [| [| [| [| i]]]]; reflexivity.
  - apply (Tone "17.4" "beta" [17; 4]); vm_compute; reflexivity.
  - rewrite (Tnone "alpha" "beta"); try (vm_compute; reflexivity);
      discriminate.
Defined.

(** C6, as stated, fails: neither ["current"] nor ["zzz"] parses as a
    version, ["current"] is lexicographically less than ["zzz"], and
    [Compare] puts it after. *)
Lemma Compare_current_not_lexicographic :
  Semver.NewVersion (Lib := Semver.specLib) "current" = None /\
  Semver.NewVersion (Lib := Semver.specLib) "zzz" = None /\
  lexOrder "current" "zzz" = -1 /\
  Compare (L := Semver.specLib) "current" "zzz" = 1.
Proof. repeat split. Qed.

End versionClaims.

(* ===================================================================== *)
(** * Facts about the filter                                              *)
(* ===================================================================== *)

Module filterFacts.
Import truststore filter.

Section WithSemver.
Context {L : Semver.Lib}.

Lemma strategy_equal : operatorStrategies !! OpEqual = Some equalStrategy.
Proof. reflexivity. Qed.

Lemma strategy_greater :
  operatorStrategies !! OpGreater = Some greaterStrategy.
Proof. reflexivity. Qed.

Lemma strategy_less : operatorStrategies !! OpLess = Some lessStrategy.
Proof. reflexivity. Qed.

Lemma strategy_greaterEqual :
  operatorStrategies !! OpGreaterEqual = Some greaterEqualStrategy.
Proof. reflexivity. Qed.

Lemma strategy_lessEqual :
  operatorStrategies !! OpLessEqual = Some lessEqualStrategy.
Proof. reflexivity. Qed.




(** Constraints of other platforms leave a group alone. *)
Lemma groupBy_foldl_other p cs : forall m : gmap string (list Constraint),
  Forall (fun c => Platform c <> p) cs ->
  foldl (fun m c => <[Platform c := default [] (m !! Platform c) ++ [c]]> m)
        m cs !! p = m !! p.
Proof.
  induction cs as [| c cs IH]; intros m HF; [reflexivity |].
  inversion HF as [| ? ? Hc HF']; subst. simpl.
  rewrite IH by assumption. now rewrite lookup_insert_ne.
Qed.

Lemma groupByPlatform_other p cs :
  Forall (fun c => Platform c <> p) cs -> groupByPlatform cs !! p = None.
Proof.
  intros HF. unfold groupByPlatform. now rewrite groupBy_foldl_other.
Qed.

End WithSemver.
End filterFacts.

(* ===================================================================== *)
(** * Properties of the filter                                            *)
(* ===================================================================== *)

Module filterClaims.
Import truststore filter filterFacts Samples SemverFacts.

(** The cases of section 8 of the specification. *)
Example chrome_ge_139_current :
  Match (Some chromeGE139) (pv "chrome" "current") = true.
Proof. vm_compute. reflexivity. Qed.

Example chrome_ge_139_140 :
  Match (Some chromeGE139) (pv "chrome" "140") = true.
Proof. vm_compute. reflexivity. Qed.

Example chrome_ge_139_138 :
  Match (Some chromeGE139) (pv "chrome" "138") = false.
Proof. vm_compute. reflexivity. Qed.

Example chrome_le_138_current :
  Match (Some chromeLE138) (pv "chrome" "current") = false.
Proof. vm_compute. reflexivity. Qed.

Example chrome_le_138_138 :
  Match (Some chromeLE138) (pv "chrome" "138") = true.
Proof. vm_compute. reflexivity. Qed.

Example android_range :
  Match (Some androidRange) (pv "android" "12") = true /\
  Match (Some androidRange) (pv "android" "9") = false /\
  Match (Some androidRange) (pv "android" "14") = false /\
  Match (Some androidRange) (pv "macos" "12") = false.
Proof. vm_compute. auto. Qed.



(** C9, as amended: for every non-nil filter with at least one
    constraint, a [PlatformVersion] whose platform is the platform of
    none of the constraints does not match; a non-nil filter without
    constraints matches every [PlatformVersion], as a nil filter does. *)
Theorem Match_unnamed_platform {L : Semver.Lib} (f : Filter)
  (pv : PlatformVersion.t) :
  (Constraints f <> [] ->
   Forall (fun c => Platform c <> PlatformVersion.Platform pv)
          (Constraints f) ->
   Match (Some f) pv = false) /\
  (Constraints f = [] -> Match (Some f) pv = true) /\
  Match None pv = true.
Proof.
  split; [| split].
  - intros Hne HF. unfold Match.
    destruct (Constraints f) as [| c cs] eqn:E; [congruence |].
    simpl. now rewrite groupByPlatform_other.
  - intros E. unfold Match. now rewrite E.
  - reflexivity.
Qed.

Lemma Match_unnamed_platform_witness :
  Match (Some chromeGE139) (pv "macos" "18") = false.
Proof.
  apply (proj1 (Match_unnamed_platform chromeGE139 (pv "macos" "18")));
    [discriminate |].
  repeat constructor. discriminate.
Defined.

(** C9, as stated, fails: a filter value without constraints names no
    platform, and matches. *)
Lemma Match_no_constraints_matches :
  Forall (fun c => Platform c <> PlatformVersion.Platform (pv "ios" "18"))
         (Constraints noConstraints) /\
  Match (Some noConstraints) (pv "ios" "18") = true.
Proof. split; [constructor | reflexivity]. Qed.

End filterClaims.

(* ===================================================================== *)
(** * Facts about [parseSCT]                                              *)
(* ===================================================================== *)

Module fetcherFacts.
Import Fingerprint truststore fetcher.

(** A bit-wise or of two numbers without common bits is their sum. *)
Lemma lor_disjoint_add n a c :
  0 <= n -> 0 <= a < 2 ^ n -> c mod 2 ^ n = 0 -> Z.lor a c = a + c.
Proof.
  intros Hn Ha Hc.
  assert (Hland : Z.land a c = 0).
  { apply Z.bits_inj'. intros i Hi. rewrite Z.land_spec, Z.bits_0.
    destruct (Z.lt_ge_cases i n) as [Hlt | Hge].
    - assert (Z.testbit c i = false) as ->; [| apply andb_false_r].
      apply Z.mod_divide in Hc; [| apply Z.pow_nonzero; lia].
      destruct Hc as [q ->]. rewrite Z.mul_pow2_bits_low; auto.
    - assert (Z.testbit a i = false) as ->; [| reflexivity].
      apply Z.testbit_false; [assumption |].
      rewrite Z.div_small; [reflexivity |].
      split; [lia |]. apply Z.lt_le_trans with (2 ^ n); [lia |].
      apply Z.pow_le_mono_r; lia. }
  rewrite <- Z.lxor_lor by assumption.
  symmetry. now apply Z.add_nocarry_lxor.
Qed.

Lemma BigEndianUint64_value b0 b1 b2 b3 b4 b5 b6 b7 rest :
  Forall isByte [b0; b1; b2; b3; b4; b5; b6; b7] ->
  BigEndianUint64 (b0 :: b1 :: b2 :: b3 :: b4 :: b5 :: b6 :: b7 :: rest) =
  bigEndianValue 0 [b0; b1; b2; b3; b4; b5; b6; b7].
Proof.
  intros HF.
  repeat match goal with
         | X : Forall _ (_ :: _) |- _ => inversion X; clear X; subst
         end.
  unfold isByte in *. unfold BigEndianUint64, bigEndianValue.
  rewrite !Z.shiftl_mul_pow2 by lia.
  rewrite (lor_disjoint_add 56 (b1 * 2 ^ 48)) by
    (try lia; rewrite Z.mod_divide by lia; exists b0; lia).
  rewrite (lor_disjoint_add 48 (b2 * 2 ^ 40)) by
    (try lia; rewrite Z.mod_divide by lia; exists (b1 + b0 * 2 ^ 8); lia).
  rewrite (lor_disjoint_add 40 (b3 * 2 ^ 32)) by
    (try lia; rewrite Z.mod_divide by lia;
     exists (b2 + b1 * 2 ^ 8 + b0 * 2 ^ 16); lia).
  rewrite (lor_disjoint_add 32 (b4 * 2 ^ 24)) by
    (try lia; rewrite Z.mod_divide by lia;
     exists (b3 + b2 * 2 ^ 8 + b1 * 2 ^ 16 + b0 * 2 ^ 24); lia).
  rewrite (lor_disjoint_add 24 (b5 * 2 ^ 16)) by
    (try lia; rewrite Z.mod_divide by lia;
     exists (b4 + b3 * 2 ^ 8 + b2 * 2 ^ 16 + b1 * 2 ^ 24 + b0 * 2 ^ 32); lia).
  rewrite (lor_disjoint_add 16 (b6 * 2 ^ 8)) by
    (try lia; rewrite Z.mod_divide by lia;
     exists (b5 + b4 * 2 ^ 8 + b3 * 2 ^ 16 + b2 * 2 ^ 24 + b1 * 2 ^ 32
             + b0 * 2 ^ 40); lia).
  rewrite (lor_disjoint_add 8 b7) by
    (try lia; rewrite Z.mod_divide by lia;
     exists (b6 + b5 * 2 ^ 8 + b4 * 2 ^ 16 + b3 * 2 ^ 24 + b2 * 2 ^ 32
             + b1 * 2 ^ 40 + b0 * 2 ^ 48); lia).
  lia.
Qed.

Lemma bigEndianValue_range b0 b1 b2 b3 b4 b5 b6 b7 :
  Forall isByte [b0; b1; b2; b3; b4; b5; b6; b7] ->
  0 <= bigEndianValue 0 [b0; b1; b2; b3; b4; b5; b6; b7] < 2 ^ 64.
Proof.
  intros HF.
  repeat match goal with
         | X : Forall _ (_ :: _) |- _ => inversion X; clear X; subst
         end.
  unfold isByte in *. unfold bigEndianValue. lia.
Qed.

(** The conversion of a millisecond count below [2^64] to an instant is
    exact: none of the integer conversions wraps. *)
Lemma timestamp_exact ms :
  0 <= ms < 2 ^ 64 ->
  Unix (int64 (ms / msPerSecond))
       (int64 (uint64 ((ms mod msPerSecond) * nsPerMs))) =
  ofMilliseconds ms.
Proof.
  intros Hms. unfold Unix, int64, uint64, ofMilliseconds, msPerSecond, nsPerMs.
  pose proof (Z.mod_pos_bound ms 1000 ltac:(lia)) as Hm.
  assert (Hd : 0 <= ms / 1000 < 2 ^ 63).
  { split; [apply Z.div_pos; lia |].
    apply Z.div_lt_upper_bound; lia. }
  rewrite (Z.mod_small (ms mod 1000 * 1000000)) by lia.
  rewrite (Z.mod_small (ms / 1000 + 2 ^ 63)) by lia.
  rewrite (Z.mod_small (ms mod 1000 * 1000000 + 2 ^ 63)) by lia.
  pose proof (Z.div_mod ms 1000 ltac:(lia)). lia.
Qed.

Lemma slice_length data lo hi :
  (hi <= length data)%nat -> length (slice data lo hi) = (hi - lo)%nat.
Proof.
  intros H. unfold slice. rewrite length_take, length_drop. lia.
Qed.

Lemma slice_lookup data lo hi i :
  (i < hi - lo)%nat -> slice data lo hi !! i = data !! (lo + i)%nat.
Proof.
  intros H. unfold slice. rewrite lookup_take_lt by assumption.
  apply lookup_drop.
Qed.

Lemma slice_take data lo hi n :
  (hi <= n)%nat -> slice (take n data) lo hi = slice data lo hi.
Proof.
  intros H. unfold slice. apply list_eq. intros i.
  destruct (decide (i < hi - lo)%nat) as [Hi | Hi].
  - rewrite !lookup_take_lt, !lookup_drop by assumption.
    apply lookup_take_lt. lia.
  - rewrite !lookup_take_ge by lia. reflexivity.
Qed.

Lemma Forall_slice (P : Z -> Prop) data lo hi :
  Forall P data -> Forall P (slice data lo hi).
Proof.
  intros H. unfold slice. now apply Forall_take, Forall_drop.
Qed.

(** A list of eight elements. *)
Lemma length8_inv (l : list Z) :
  length l = 8%nat ->
  exists b0 b1 b2 b3 b4 b5 b6 b7, l = [b0; b1; b2; b3; b4; b5; b6; b7].
Proof.
  intros H.
  destruct l as [| b0 [| b1 [| b2 [| b3 [| b4 [| b5 [| b6 [| b7 [| ? ?]]]]]]]]];
    try discriminate.
  repeat eexists.
Qed.

End fetcherFacts.

(* ===================================================================== *)
(** * Properties of [parseSCT]                                            *)
(* ===================================================================== *)

Module fetcherClaims.
Import Fingerprint truststore fetcher fetcherFacts Samples.

(** The cases of [TestParseSCT]. *)
Example parseSCT_too_short :
  parseSCT (repeat 0 10) SCTSourceTLS = inr (ErrTooShort 10).
Proof. reflexivity. Qed.

Example parseSCT_wrong_version :
  parseSCT (1 :: repeat 0 49) SCTSourceTLS = inr (ErrVersion 1).
Proof. reflexivity. Qed.

Example parseSCT_valid :
  parseSCT validSCT SCTSourceTLS =
  inl {| SCT.Timestamp := Unix 1 0;
         SCT.LogID := map Z.of_nat (seq 1 32);
         SCT.Source := SCTSourceTLS |}.
Proof. vm_compute. reflexivity. Qed.

(** C8: [parseSCT] rejects every buffer shorter than 45 bytes and every
    buffer whose byte 0 is not 0; on every buffer of at least 45 bytes
    with byte 0 equal to 0 it succeeds, the LogID of the result is bytes
    1 to 32 and its Timestamp is the instant given by the big-endian
    64-bit value of bytes 33 to 40, read as milliseconds since the Unix
    epoch; the bytes behind offset 40 do not affect the result. *)
Theorem parseSCT_spec (data : list Z) (source : SCTSource) :
  Forall isByte data ->
  ((length data < 45)%nat ->
     parseSCT data source = inr (ErrTooShort (length data))) /\
  (forall v, (45 <= length data)%nat -> data !! 0%nat = Some v -> v <> 0 ->
     parseSCT data source = inr (ErrVersion v)) /\
  ((45 <= length data)%nat -> data !! 0%nat = Some 0 ->
     exists sct,
       parseSCT data source = inl sct /\
       SCT.Source sct = source /\
       length (SCT.LogID sct) = 32%nat /\
       (forall i, (i < 32)%nat -> SCT.LogID sct !! i = data !! (1 + i)%nat) /\
       SCT.Timestamp sct =
         ofMilliseconds (bigEndianValue 0 (slice data 33 41))) /\
  (forall data',
     (45 <= length data)%nat -> (45 <= length data')%nat ->
     take 41 data = take 41 data' ->
     parseSCT data source = parseSCT data' source).
Proof.
  intros HF. repeat apply conj.
  - intros Hl. unfold parseSCT, sctMinSize.
    apply Nat.ltb_lt in Hl. now rewrite Hl.
  - intros v Hl H0 Hv. unfold parseSCT, sctMinSize.
    apply Nat.ltb_ge in Hl. rewrite Hl.
    destruct data as [| x data0]; [discriminate |]. injection H0 as ->.
    cbn [nth]. apply Z.eqb_neq in Hv. unfold sctVersion1. now rewrite Hv.
  - intros Hl H0. unfold parseSCT, sctMinSize.
    pose proof Hl as Hl'. apply Nat.ltb_ge in Hl'. rewrite Hl'.
    destruct data as [| x data0] eqn:E; [discriminate |]. injection H0 as ->.
    cbn [nth]. rewrite <- E in *. simpl (negb _).
    eexists. split; [reflexivity |]. cbn [SCT.Source SCT.LogID SCT.Timestamp].
    split; [reflexivity |].
    split; [apply slice_length; unfold sctLogIDOffset, sctLogIDSize; lia |].
    split; [intros i Hi; apply slice_lookup;
            unfold sctLogIDOffset, sctLogIDSize; lia |].
    unfold sctTimestampOffset, sctTimestampSize.
    change (33 + 8)%nat with 41%nat.
    assert (Hlen : length (slice data 33 41) = 8%nat)
      by (rewrite slice_length; lia).
    destruct (length8_inv _ Hlen) as (b0 & b1 & b2 & b3 & b4 & b5 & b6 & b7 & Eb).
    assert (HFb : Forall isByte (slice data 33 41)) by now apply Forall_slice.
    rewrite Eb in *. rewrite BigEndianUint64_value by assumption.
    apply timestamp_exact. now apply bigEndianValue_range.
  - intros data' Hl Hl' E. unfold parseSCT, sctMinSize.
    apply Nat.ltb_ge in Hl, Hl'. rewrite Hl, Hl'.
    assert (E0 : nth 0 data 0 = nth 0 data' 0).
    { destruct data as [| x d], data' as [| x' d']; try discriminate.
      now injection E. }
    assert (Es : forall lo hi, (hi <= 41)%nat ->
                 slice data lo hi = slice data' lo hi).
    { intros lo hi Hhi.
      rewrite <- (slice_take data lo hi 41), <- (slice_take data' lo hi 41)
        by assumption.
      now rewrite E. }
    rewrite E0.
    rewrite (Es sctLogIDOffset) by (unfold sctLogIDOffset, sctLogIDSize; lia).
    rewrite (Es sctTimestampOffset)
      by (unfold sctTimestampOffset, sctTimestampSize; lia).
    reflexivity.
Qed.

Lemma parseSCT_spec_witness :
  exists sct,
    parseSCT validSCT SCTSourceEmbedded = inl sct /\
    SCT.Timestamp sct = ofMilliseconds 1000.
Proof.
  assert (HF : Forall isByte validSCT).
  { apply List.Forall_forall. intros x Hx.
    assert (Hb : forallb (fun b => (0 <=? b) && (b <? 256)) validSCT = true)
      by (vm_compute; reflexivity).
    rewrite forallb_forall in Hb. specialize (Hb x Hx). unfold isByte. lia. }
  destruct (parseSCT_spec validSCT SCTSourceEmbedded HF) as (_ & _ & T & _).
  destruct T as (sct & E & _ & _ & _ & Et).
  - vm_compute. lia.
  - reflexivity.
  - exists sct. split; [exact E |]. rewrite Et. vm_compute. reflexivity.
Defined.

End fetcherClaims.

(* ===================================================================== *)
(** * Facts about the validation engine                                   *)
(* ===================================================================== *)

Module validatorFacts.
Import Fingerprint truststore validator validatorSpec.

Section WithHost.
Context {H : Host}.

Lemma After_true t u : After t u = true <-> u < t.
Proof. unfold After. apply Z.ltb_lt. Qed.

Lemma After_false t u : After t u = false <-> t <= u.
Proof. unfold After. apply Z.ltb_ge. Qed.

Lemma hasValidSCT_true scts d :
  hasValidSCT scts d = true <->
  Exists (fun sct => SCT.Timestamp sct <= d) scts.
Proof.
  induction scts as [| sct scts IH]; simpl.
  - split; [discriminate | intros HE; inversion HE].
  - destruct (After (SCT.Timestamp sct) d) eqn:E; simpl.
    + rewrite IH. apply After_true in E. split.
      * intros HE. now apply Exists_cons_tl.
      * intros HE. inversion HE; subst; [lia | assumption].
    + apply After_false in E. split; [| reflexivity].
      intros _. now apply Exists_cons_hd.
Qed.

Lemma hasValidSCT_false scts d :
  hasValidSCT scts d = false <->
  Forall (fun sct => d < SCT.Timestamp sct) scts.
Proof.
  induction scts as [| sct scts IH]; simpl.
  - split; [constructor | reflexivity].
  - destruct (After (SCT.Timestamp sct) d) eqn:E; simpl.
    + rewrite IH. apply After_true in E. split.
      * intros HF. now constructor.
      * intros HF. now inversion HF.
    + apply After_false in E. split; [discriminate |].
      intros HF. inversion HF; subst. lia.
Qed.

Lemma hasValidSCT_forallb scts d :
  negb (hasValidSCT scts d) =
  forallb (fun sct => After (SCT.Timestamp sct) d) scts.
Proof.
  induction scts as [| sct scts IH]; [reflexivity |].
  simpl. destruct (After (SCT.Timestamp sct) d); simpl; auto.
Qed.

(** The three checks one after the other; the test of [IsEmpty] in front
    of them changes nothing. *)
Lemma checkConstraints_firstViolation now chain c :
  checkConstraints now chain c =
  firstViolation [checkNotBeforeMax chain c; checkDistrustDate now c;
                  checkSCTNotAfter chain c].
Proof.
  unfold checkConstraints, Constraints.IsEmpty, checkNotBeforeMax,
    checkDistrustDate, checkSCTNotAfter, msgNotBeforeMax,
    msgDistrustDate, msgSCTMissing, msgSCTAllLate.
  destruct (Constraints.NotBeforeMax c) as [d1 |],
           (Constraints.DistrustDate c) as [d2 |],
           (Constraints.SCTNotAfter c) as [d3 |];
    rewrite ?hasValidSCT_forallb;
    try destruct (After (Certificate.NotBefore (CertChain.ServerCert chain)) d1);
    try destruct (After now d2);
    try destruct (CertChain.SCTs chain) as [| sct scts];
    cbn [firstViolation length Nat.eqb];
    try destruct (forallb _ _); reflexivity.
Qed.

Lemma forallb_After scts d :
  forallb (fun sct => After (SCT.Timestamp sct) d) scts = true <->
  Forall (fun sct => d < SCT.Timestamp sct) scts.
Proof.
  rewrite <- hasValidSCT_forallb, negb_true_iff. apply hasValidSCT_false.
Qed.

Lemma firstViolation_empty cs :
  Forall (fun o => o <> Some "") cs ->
  (firstViolation cs = "" <-> Forall (fun o => o = None) cs).
Proof.
  induction 1 as [| o cs Ho HF IH]; simpl.
  - split; [constructor | reflexivity].
  - destruct o as [m |].
    + split; [intros -> ; congruence | intros HN; inversion HN; discriminate].
    + rewrite IH. split; [now constructor | now inversion 1].
Qed.

Lemma checks_nonempty now chain c :
  Forall (fun o => o <> Some "")
    [checkNotBeforeMax chain c; checkDistrustDate now c;
     checkSCTNotAfter chain c].
Proof.
  repeat constructor.
  - unfold checkNotBeforeMax.
    destruct (Constraints.NotBeforeMax c); [| discriminate].
    destruct (After _ _); discriminate.
  - unfold checkDistrustDate.
    destruct (Constraints.DistrustDate c); [| discriminate].
    destruct (After _ _); discriminate.
  - unfold checkSCTNotAfter.
    destruct (Constraints.SCTNotAfter c); [| discriminate].
    destruct (CertChain.SCTs chain); [discriminate |].
    destruct (forallb _ _); discriminate.
Qed.

(** ** Resolving the roots of a store *)

Lemma resolve_fst fps : forall acc,
  fst (foldl resolveStep acc fps) =
  fst acc ++ omap getCertByFingerprint fps.
Proof.
  induction fps as [| fp fps IH]; intros acc; simpl.
  - now rewrite app_nil_r.
  - rewrite IH. unfold resolveStep.
    destruct (getCertByFingerprint fp); simpl; [| reflexivity].
    now rewrite <- app_assoc.
Qed.

Lemma resolve_snd fp fps : forall acc,
  default false (snd (foldl resolveStep acc fps) !! fp) = true <->
  default false (snd acc !! fp) = true \/
  (fp ∈ fps /\ getCertByFingerprint fp = None).
Proof.
  induction fps as [| fp' fps IH]; intros acc; simpl.
  - split; [auto |]. intros [? | [Hin _]]; [assumption |].
    now apply not_elem_of_nil in Hin.
  - rewrite IH. unfold resolveStep.
    destruct (getCertByFingerprint fp') as [cert |] eqn:E; simpl.
    + split.
      * intros [? | [Hin Hn]]; [auto |]. right. split; [now right | assumption].
      * intros [? | [Hin Hn]]; [auto |].
        apply elem_of_cons in Hin as [-> | Hin]; [congruence |]. auto.
    + destruct (decide (fp' = fp)) as [-> | Hne].
      * rewrite lookup_insert_eq. simpl. split; [| auto].
        intros _. right. split; [left | assumption].
      * rewrite lookup_insert_ne by assumption. split.
        -- intros [? | [Hin Hn]]; [auto |]. right. split; [now right | assumption].
        -- intros [? | [Hin Hn]]; [auto |].
           apply elem_of_cons in Hin as [-> | Hin]; [congruence |]. auto.
Qed.

Lemma resolveRoots_anchors store :
  fst (resolveRoots (Store.Fingerprints store)) = anchors store.
Proof. unfold resolveRoots. apply (resolve_fst _ ([], ∅)). Qed.

Lemma resolveRoots_missing store fp :
  default false (snd (resolveRoots (Store.Fingerprints store)) !! fp) = true
  <-> missing store fp.
Proof.
  unfold resolveRoots, missing.
  rewrite (resolve_snd fp _ ([], ∅)). simpl. rewrite lookup_empty. simpl.
  split; [intros [? | ?]; [discriminate | assumption] | auto].
Qed.

(** What [validateAgainstStore] returns when path verification fails. *)
Lemma validateAgainstStore_verify_error now chain store err :
  anchors store <> [] ->
  Verify (CertChain.ServerCert chain)
         {| Roots := anchors store;
            Intermediates := CertChain.Intermediates chain |} = inr err ->
  validateAgainstStore now chain store =
  failed (platformVersion store)
    match last (CertChain.Intermediates chain) with
    | Some lastCert =>
        if default false
             (snd (resolveRoots (Store.Fingerprints store))
                !! FingerprintFromCert lastCert)
        then msgKnownMissingRoot (FingerprintFromCert lastCert)
        else parseVerifyError err
    | None => parseVerifyError err
    end.
Proof.
  intros Hne Hv. unfold validateAgainstStore.
  pose proof (resolveRoots_anchors store) as Ea.
  destruct (resolveRoots (Store.Fingerprints store)) as [rootCerts miss].
  simpl in Ea. subst rootCerts.
  destruct (anchors store) as [| a l] eqn:E; [congruence |].
  cbn [length Nat.eqb]. rewrite Hv.
  destruct (last (CertChain.Intermediates chain)) as [lastCert |];
    [| reflexivity].
  cbn [snd]. destruct (default false _); reflexivity.
Qed.

(** ** The tasks of [ValidateChain] *)

Lemma runTask_length clock chain stores results idx :
  length (runTask clock chain stores results idx) = length results.
Proof.
  unfold runTask. destruct (stores !! idx); [apply length_insert | reflexivity].
Qed.

Lemma runTasks_length clock chain stores sched : forall results,
  length (foldl (runTask clock chain stores) results sched) = length results.
Proof.
  induction sched as [| idx sched IH]; intros results; [reflexivity |].
  simpl. now rewrite IH, runTask_length.
Qed.

(** A slot that holds its result keeps it. *)
Lemma runTasks_keep clock chain stores i s sched : forall results,
  stores !! i = Some s ->
  results !! i = Some (validateAgainstStore (clock i) chain s) ->
  foldl (runTask clock chain stores) results sched !! i =
  Some (validateAgainstStore (clock i) chain s).
Proof.
  induction sched as [| idx sched IH]; intros results Hs Hr; [exact Hr |].
  simpl. apply IH; [assumption |]. unfold runTask.
  destruct (stores !! idx) as [s' |] eqn:E; [| assumption].
  destruct (decide (idx = i)) as [-> | Hne].
  - assert (s' = s) as -> by congruence.
    apply list_lookup_insert_eq. now apply lookup_lt_Some in Hr.
  - now rewrite list_lookup_insert_ne.
Qed.

(** A task that has run has filled its slot. *)
Lemma runTasks_done clock chain stores i s sched : forall results,
  length results = length stores ->
  stores !! i = Some s -> i ∈ sched ->
  foldl (runTask clock chain stores) results sched !! i =
  Some (validateAgainstStore (clock i) chain s).
Proof.
  induction sched as [| idx sched IH]; intros results Hl Hs Hin.
  - now apply not_elem_of_nil in Hin.
  - simpl. destruct (decide (idx = i)) as [-> | Hne].
    + apply runTasks_keep; [assumption |]. unfold runTask. rewrite Hs.
      apply list_lookup_insert_eq. rewrite Hl. now apply lookup_lt_Some in Hs.
    + apply elem_of_cons in Hin as [-> | Hin]; [congruence |].
      apply IH; [now rewrite runTask_length | assumption | assumption].
Qed.

Lemma ValidateChain_lookup clock sched chain stores i s :
  sched ≡ₚ seq 0 (length stores) ->
  stores !! i = Some s ->
  ValidateChain clock sched chain stores !! i =
  Some (validateAgainstStore (clock i) chain s).
Proof.
  intros Hp Hs. unfold ValidateChain.
  pose proof (lookup_lt_Some _ _ _ Hs) as Hlt.
  destruct (Nat.eqb_spec (length stores) 0) as [E | E]; [lia |].
  apply runTasks_done; [apply length_replicate | assumption |].
  rewrite Hp. apply elem_of_seq. lia.
Qed.

End WithHost.
End validatorFacts.

(* ===================================================================== *)
(** * Properties of the validation engine                                 *)
(* ===================================================================== *)

Module validatorClaims.
Import Fingerprint truststore validator validatorSpec validatorFacts Samples.

#[local] Existing Instance testHost.

(** [TestValidateChainKnownMissingRoot], and the other outcomes. *)
Example known_missing_root_example :
  validateAgainstStore 0 chainWithRoot storeKnownMissing =
  failed (pv "ios" "26")
    "chain roots at known CA (fingerprint 02:00:00:00:00:00:00:00:00:00:00:00:00:00:00:00:00:00:00:00:00:00:00:00:00:00:00:00:00:00:00:00) but certificate data unavailable".
Proof. vm_compute. reflexivity. Qed.

Example no_valid_roots_example :
  validateAgainstStore 0 chainWithRoot storeUnresolved =
  failed (pv "macos" "15") "no valid root certificates in trust store".
Proof. vm_compute. reflexivity. Qed.

Example unknown_authority_example :
  validateAgainstStore 0 chainWithRoot storeAvailable =
  failed (pv "android" "14") "certificate signed by unknown authority".
Proof. vm_compute. reflexivity. Qed.

Example trusted_example :
  TrustResult.Trusted (validateAgainstStore 0 chainSigned storeAvailable) = true /\
  TrustResult.MatchedCA (validateAgainstStore 0 chainSigned storeAvailable) =
    "Available CA" /\
  TrustResult.FailureReason (validateAgainstStore 0 chainSigned storeAvailable) = "".
Proof. vm_compute. auto. Qed.

(** C1: [checkConstraints] evaluates NotBeforeMax, then DistrustDate,
    then SCTNotAfter and reports the first violation found, the empty
    string when there is none.  NotBeforeMax is violated iff the NotBefore
    of the leaf is strictly after the constraint date; DistrustDate iff
    the current time is strictly after the constraint date; SCTNotAfter
    with a chain without SCTs is violated with a reason that says "none
    found", and otherwise iff the time stamp of every SCT is strictly
    after the deadline, so that one SCT at or before the deadline
    passes. *)
Theorem checkConstraints_first_violation {H : Host}
  (now : Time) (chain : CertChain.t) (c : Constraints.t) :
  checkConstraints now chain c =
    firstViolation [checkNotBeforeMax chain c; checkDistrustDate now c;
                    checkSCTNotAfter chain c] /\
  (checkConstraints now chain c = "" <->
     checkNotBeforeMax chain c = None /\ checkDistrustDate now c = None /\
     checkSCTNotAfter chain c = None) /\
  (forall m, checkNotBeforeMax chain c = Some m <->
     exists d, notBeforeMaxViolated chain c d /\ m = msgNotBeforeMax chain d) /\
  (forall m, checkDistrustDate now c = Some m <->
     exists d, distrustDateViolated now c d /\ m = msgDistrustDate d) /\
  (forall m, checkSCTNotAfter chain c = Some m <->
     exists d, (sctMissing chain c d /\ m = msgSCTMissing d) \/
               (sctAllLate chain c d /\ m = msgSCTAllLate d)) /\
  (forall d, Constraints.SCTNotAfter c = Some d ->
     Exists (fun sct => SCT.Timestamp sct <= d) (CertChain.SCTs chain) ->
     checkSCTNotAfter chain c = None).
Proof.
  split_and!.
  - apply checkConstraints_firstViolation.
  - rewrite checkConstraints_firstViolation.
    rewrite firstViolation_empty by apply checks_nonempty.
    split.
    + intros HF. inversion HF as [| ? ? H1 HF1]; subst.
      inversion HF1 as [| ? ? H2 HF2]; subst.
      inversion HF2; subst. auto.
    + intros (-> & -> & ->). repeat constructor.
  - intros m. unfold checkNotBeforeMax, notBeforeMaxViolated.
    destruct (Constraints.NotBeforeMax c) as [d |].
    + destruct (After _ d) eqn:E.
      * apply After_true in E. split.
        -- intros [= <-]. exists d. auto.
        -- intros (d' & [[= <-] _] & ->). reflexivity.
      * apply After_false in E. split; [discriminate |].
        intros (d' & [[= <-] Hlt] & _). lia.
    + split; [discriminate | intros (d' & [Hd _] & _); discriminate].
  - intros m. unfold checkDistrustDate, distrustDateViolated.
    destruct (Constraints.DistrustDate c) as [d |].
    + destruct (After now d) eqn:E.
      * apply After_true in E. split.
        -- intros [= <-]. exists d. auto.
        -- intros (d' & [[= <-] _] & ->). reflexivity.
      * apply After_false in E. split; [discriminate |].
        intros (d' & [[= <-] Hlt] & _). lia.
    + split; [discriminate | intros (d' & [Hd _] & _); discriminate].
  - intros m. unfold checkSCTNotAfter, sctMissing, sctAllLate.
    destruct (Constraints.SCTNotAfter c) as [d |].
    + destruct (CertChain.SCTs chain) as [| sct scts] eqn:Es.
      * split.
        -- intros [= <-]. exists d. left. auto.
        -- intros (d' & [[[[= <-] _] ->] | [(_ & Hne & _) _]]);
             [reflexivity | congruence].
      * destruct (forallb _ (sct :: scts)) eqn:E.
        -- apply forallb_After in E. split.
           ++ intros [= <-]. exists d. right. repeat split; [discriminate | assumption].
           ++ intros (d' & [[[_ Hnil] _] | [([= <-] & _ & _) ->]]);
                [discriminate | reflexivity].
        -- split; [discriminate |].
           intros (d' & [[[_ Hnil] _] | [([= <-] & _ & HF) _]]);
             [discriminate |].
           apply forallb_After in HF. congruence.
    + split; [discriminate |].
      intros (d' & [[[Hd _] _] | [(Hd & _) _]]); discriminate.
  - intros d Hd HE. unfold checkSCTNotAfter. rewrite Hd.
    destruct (CertChain.SCTs chain) as [| sct scts] eqn:Es; [inversion HE |].
    destruct (forallb _ (sct :: scts)) eqn:E; [| reflexivity].
    apply forallb_After in E. apply Exists_exists in HE as (x & Hx & Hle).
    rewrite Forall_forall in E. specialize (E x Hx). simpl in E. lia.
Qed.

(** C2: [ValidateChain] returns one result per store, at the index of
    the store; the result at index [i] is the result of validating the
    chain against [stores[i]] alone, so that it does not depend on any
    other store.  This holds whatever the order in which the tasks
    finish. *)
Theorem ValidateChain_per_store {H : Host}
  (clock : nat -> Time) (schedule : list nat)
  (chain : CertChain.t) (stores : list Store.t) :
  schedule ≡ₚ seq 0 (length stores) ->
  length (ValidateChain clock schedule chain stores) = length stores /\
  (forall i s, stores !! i = Some s ->
     ValidateChain clock schedule chain stores !! i =
       Some (validateAgainstStore (clock i) chain s) /\
     ValidateChain clock schedule chain stores !! i =
       ValidateChain (fun _ => clock i) [0%nat] chain [s] !! 0%nat) /\
  (forall stores' schedule' i s,
     schedule' ≡ₚ seq 0 (length stores') ->
     stores !! i = Some s -> stores' !! i = Some s ->
     ValidateChain clock schedule' chain stores' !! i =
     ValidateChain clock schedule chain stores !! i).
Proof.
  intros Hp. repeat apply conj.
  - unfold ValidateChain.
    destruct (Nat.eqb_spec (length stores) 0) as [E | E]; [now rewrite E |].
    now rewrite runTasks_length, length_replicate.
  - intros i s Hs.
    rewrite (ValidateChain_lookup clock schedule chain stores i s Hp Hs).
    split; [reflexivity |].
    symmetry. now apply (ValidateChain_lookup (fun _ => clock i) [0%nat] chain [s] 0 s).
  - intros stores' schedule' i s Hp' Hs Hs'.
    rewrite (ValidateChain_lookup clock schedule chain stores i s Hp Hs).
    now apply ValidateChain_lookup.
Qed.

Lemma ValidateChain_per_store_witness :
  ValidateChain (fun _ => 0) [2; 0; 1]%nat chainWithRoot
    [storeKnownMissing; storeUnresolved; storeAvailable] !! 2%nat =
  Some (validateAgainstStore 0 chainWithRoot storeAvailable).
Proof.
  assert (Hp : [2; 0; 1]%nat ≡ₚ
               seq 0 (length [storeKnownMissing; storeUnresolved; storeAvailable])).
  { simpl. apply (Permutation_cons_append [0; 1]%nat 2%nat). }
  destruct (ValidateChain_per_store (fun _ => 0) [2; 0; 1]%nat chainWithRoot
              [storeKnownMissing; storeUnresolved; storeAvailable] Hp)
    as (_ & T & _).
  exact (proj1 (T 2%nat storeAvailable eq_refl)).
Defined.

(** C3: when path verification fails for a store, the supplied
    intermediate list is not empty and the fingerprint of its last entry
    (a digest of 32 bytes) is among the fingerprints of the store that
    do not resolve in the registry, the result is untrusted with the
    reason "chain roots at known CA (fingerprint FP) but certificate
    data unavailable", where FP is the canonical text of that
    fingerprint: 32 upper-case hex byte pairs joined by colons, which
    parses back to the fingerprint.  Only the last entry is looked at:
    in every other case the reason is the classified verification
    error. *)
Theorem known_root_without_data {H : Host}
  (now : Time) (chain : CertChain.t) (store : Store.t) (err : VerifyError) :
  anchors store <> [] ->
  Verify (CertChain.ServerCert chain)
         {| Roots := anchors store;
            Intermediates := CertChain.Intermediates chain |} = inr err ->
  (forall lastCert,
     last (CertChain.Intermediates chain) = Some lastCert ->
     missing store (FingerprintFromCert lastCert) ->
     wf (FingerprintFromCert lastCert) ->
     exists FP : string,
       FingerprintSpec.canonicalForm (GoString.chars FP) /\
       ParseFingerprint FP = inl (FingerprintFromCert lastCert) /\
       validateAgainstStore now chain store =
       {| TrustResult.Platform := platformVersion store;
          TrustResult.Trusted := false;
          TrustResult.MatchedCA := "";
          TrustResult.VerifiedChain := [];
          TrustResult.FailureReason :=
            "chain roots at known CA (fingerprint " +:+ FP +:+
            ") but certificate data unavailable" |}) /\
  (forall lastCert,
     last (CertChain.Intermediates chain) = Some lastCert ->
     ~ missing store (FingerprintFromCert lastCert) ->
     validateAgainstStore now chain store =
     failed (platformVersion store) (parseVerifyError err)) /\
  (CertChain.Intermediates chain = [] ->
     validateAgainstStore now chain store =
     failed (platformVersion store) (parseVerifyError err)).
Proof.
  intros Hne Hv.
  pose proof (validateAgainstStore_verify_error now chain store err Hne Hv) as E.
  repeat apply conj.
  - intros lastCert Hl Hm Hwf.
    exists (Fingerprint.String (FingerprintFromCert lastCert)).
    split; [now apply FingerprintFacts.String_canonical |].
    split; [now apply FingerprintFacts.ParseFingerprint_String |].
    rewrite E, Hl. apply resolveRoots_missing in Hm. now rewrite Hm.
  - intros lastCert Hl Hm. rewrite E, Hl.
    destruct (default false _) eqn:Ed; [| reflexivity].
    apply resolveRoots_missing in Ed. contradiction.
  - intros Hnil. rewrite E, Hnil. reflexivity.
Qed.

Lemma known_root_without_data_witness :
  exists FP : string,
    FingerprintSpec.canonicalForm (GoString.chars FP) /\
    ParseFingerprint FP = inl missingFP /\
    TrustResult.FailureReason
      (validateAgainstStore 0 chainWithRoot storeKnownMissing) =
    "chain roots at known CA (fingerprint " +:+ FP +:+
    ") but certificate data unavailable".
Proof.
  assert (Hne : anchors storeKnownMissing <> []) by (vm_compute; discriminate).
  assert (Hv : Verify (CertChain.ServerCert chainWithRoot)
                 {| Roots := anchors storeKnownMissing;
                    Intermediates := CertChain.Intermediates chainWithRoot |}
               = inr UnknownAuthorityError) by (vm_compute; reflexivity).
  destruct (known_root_without_data 0 chainWithRoot storeKnownMissing
              UnknownAuthorityError Hne Hv) as (T & _).
  destruct (T missingRootCA eq_refl) as (FP & Hc & Hp & Hr).
  - split; [| vm_compute; reflexivity].
    apply elem_of_cons. left. reflexivity.
  - split; [reflexivity |].
    repeat constructor; unfold isByte; lia.
  - exists FP. split; [exact Hc |]. split; [exact Hp |].
    now rewrite Hr.
Defined.

End validatorClaims.

(* ===================================================================== *)
(** * Further properties of fingerprints                                  *)
(* ===================================================================== *)

Module FingerprintOpsFacts.
Import GoString Regexp Fingerprint FingerprintSpec FingerprintFacts
       FingerprintOps.

Lemma sepTail_length sep gs :
  Forall (fun g => length g = 2%nat) gs ->
  length (sepTail sep gs) = (3 * length gs)%nat.
Proof.
  induction 1 as [| g gs Hg HF IH]; [reflexivity |].
  change (sepTail sep (g :: gs)) with (sep :: g ++ sepTail sep gs).
  simpl. rewrite length_app, Hg, IH. lia.
Qed.

Lemma sepTail_take sep gs : forall k,
  Forall (fun g => length g = 2%nat) gs ->
  take (3 * k) (sepTail sep gs) = sepTail sep (take k gs).
Proof.
  induction gs as [| g gs IH]; intros k HF.
  - unfold sepTail. simpl. now rewrite !take_nil.
  - inversion HF as [| ? ? Hg HF']; subst. destruct k as [| k].
    + reflexivity.
    + destruct g as [| a [| b [| ? ?]]]; try discriminate.
      change (sepTail sep ([a; b] :: gs)) with (sep :: a :: b :: sepTail sep gs).
      replace (3 * S k)%nat with (S (S (S (3 * k)))) by lia.
      cbn [take]. rewrite IH by assumption. reflexivity.
Qed.

Lemma Join_pairs_length sep g gs :
  Forall (fun g => length g = 2%nat) (g :: gs) ->
  length (Join (g :: gs) [sep]) = (3 * length (g :: gs) - 1)%nat.
Proof.
  intros HF. inversion HF as [| ? ? Hg HF']; subst.
  rewrite Join_cons, length_app, Hg, sepTail_length by assumption.
  simpl. lia.
Qed.

Lemma Join_pairs_take sep gs n :
  Forall (fun g => length g = 2%nat) gs ->
  (0 < n)%nat ->
  take (3 * n - 1) (Join gs [sep]) = Join (take n gs) [sep].
Proof.
  intros HF Hn. destruct gs as [| g gs]; [simpl; now rewrite !take_nil |].
  inversion HF as [| ? ? Hg HF']; subst.
  destruct n as [| n]; [lia |].
  cbn [take]. rewrite !Join_cons.
  destruct g as [| a [| b [| ? ?]]]; try discriminate.
  replace (3 * S n - 1)%nat with (S (S (3 * n))) by lia.
  cbn [app take]. now rewrite sepTail_take.
Qed.

Lemma Forall_Sprintf_len2 (f : list Z) :
  Forall (fun g => length g = 2%nat) (map Sprintf02X f).
Proof. induction f; constructor; auto. Qed.

Lemma String_length f :
  length f = sha256Size -> length (chars (String f)) = 95%nat.
Proof.
  intros Hl. rewrite chars_String.
  destruct f as [| b f]; [discriminate |].
  change (map Sprintf02X (b :: f)) with (Sprintf02X b :: map Sprintf02X f).
  rewrite Join_pairs_length by apply (Forall_Sprintf_len2 (b :: f)).
  simpl in *. rewrite length_map. unfold sha256Size in Hl. lia.
Qed.

Lemma chars_str l : chars (str l) = l.
Proof. apply list_ascii_of_string_of_list_ascii. Qed.

Lemma str_chars s : str (chars s) = s.
Proof. apply string_of_list_ascii_of_string. Qed.

End FingerprintOpsFacts.

Module FingerprintOpsClaims.
Import GoString Regexp Fingerprint FingerprintSpec FingerprintFacts
       FingerprintOps FingerprintOpsFacts Samples.

(** The cases of [TestFingerprintTruncate] and [TestFingerprintFromBytes]. *)
Example truncate_4 : Truncate validFP 4 = "D7:A7:A0:FB...".
Proof. vm_compute. reflexivity. Qed.

Example truncate_100 : Truncate validFP 100 = validSHA256Formatted.
Proof. vm_compute. reflexivity. Qed.

Example truncate_negative : Truncate validFP (-1) = "".
Proof. reflexivity. Qed.

Example from_bytes_string :
  option_map String (FingerprintFromBytes (map Z.of_nat (seq 0 32))) =
  Some "00:01:02:03:04:05:06:07:08:09:0A:0B:0C:0D:0E:0F:10:11:12:13:14:15:16:17:18:19:1A:1B:1C:1D:1E:1F".
Proof. vm_compute. reflexivity. Qed.

(** X1: the only errors of [ParseFingerprint] are "empty fingerprint",
    exactly when nothing is left after trimming, and the format error;
    the parser, pair count and hex decoding errors behind the format
    check never occur.  Every value it returns has 32 bytes in range. *)
Theorem ParseFingerprint_errors (s : string) :
  (forall e, ParseFingerprint s = inr e -> e = ErrEmpty \/ e = ErrFormat) /\
  (ParseFingerprint s = inr ErrEmpty <-> TrimSpace (chars s) = []) /\
  (forall f, ParseFingerprint s = inl f -> wf f).
Proof.
  split_and!.
  - intros e He. rewrite ParseFingerprint_unfold in He.
    set (t := TrimSpace (chars s)) in *.
    destruct (matches rawHexRe t || matches separatorRe t) eqn:Hm.
    + apply acceptedShape_matches in Hm.
      destruct (parseTrimmed_accepted t Hm) as (f & Ef & _). congruence.
    + apply orb_false_iff in Hm as [H1 H2]. unfold parseTrimmed in He.
      destruct t; [left; congruence |]. rewrite H1, H2 in He.
      right. simpl in He. congruence.
  - rewrite ParseFingerprint_unfold. set (t := TrimSpace (chars s)). split.
    + intros He. destruct t as [| c t'] eqn:Et; [reflexivity |].
      rewrite <- Et in He.
      destruct (matches rawHexRe t || matches separatorRe t) eqn:Hm.
      * apply acceptedShape_matches in Hm.
        destruct (parseTrimmed_accepted t Hm) as (f & Ef & _). congruence.
      * apply orb_false_iff in Hm as [H1 H2]. unfold parseTrimmed in He.
        rewrite Et in He. rewrite <- Et in He. rewrite H1, H2 in He.
        simpl in He. discriminate.
    + intros ->. reflexivity.
  - intros f Hf. now apply ParseFingerprint_inl in Hf.
Qed.

Lemma ParseFingerprint_errors_witness :
  wf validFP /\ ParseFingerprint "D7A7A0FB" = inr ErrFormat.
Proof.
  split.
  - apply (proj2 (proj2 (ParseFingerprint_errors validSHA256)) validFP).
    vm_compute. reflexivity.
  - destruct (proj1 (ParseFingerprint_errors "D7A7A0FB") ErrFormat) as [E | E].
    + vm_compute. reflexivity.
    + discriminate E.
    + reflexivity.
Defined.

(** X2: the canonical form loses nothing: for every 32-byte value [f],
    [ParseFingerprint(f.String())] is [f]; hence two values with the same
    [String] are equal.  [FingerprintFromBytes] returns exactly the 32
    bytes it is given, and panics on any other length. *)
Theorem String_ParseFingerprint_roundtrip :
  (forall f, wf f -> ParseFingerprint (String f) = inl f) /\
  (forall f g, wf f -> wf g -> String f = String g -> f = g) /\
  (forall bytes f,
     FingerprintFromBytes bytes = Some f <->
     length bytes = 32%nat /\ f = bytes).
Proof.
  split_and!.
  - apply ParseFingerprint_String.
  - intros f g Hf Hg E.
    pose proof (ParseFingerprint_String f Hf) as Ef.
    pose proof (ParseFingerprint_String g Hg) as Eg.
    rewrite E in Ef. congruence.
  - intros bytes f. unfold FingerprintFromBytes, sha256Size.
    destruct (Nat.eqb_spec (length bytes) 32) as [E | E]; simpl.
    + rewrite (copyInto_id bytes E). split.
      * intros [= <-]. auto.
      * intros [_ ->]. reflexivity.
    + split; [discriminate | intros [? _]; contradiction].
Qed.

Lemma String_ParseFingerprint_roundtrip_witness :
  ParseFingerprint (String validFP) = inl validFP.
Proof.
  apply (proj1 String_ParseFingerprint_roundtrip).
  split; [reflexivity |].
  apply List.Forall_forall. intros x Hx.
  assert (Hb : forallb (fun b => (0 <=? b) && (b <? 256)) validFP = true)
    by (vm_compute; reflexivity).
  rewrite forallb_forall in Hb. specialize (Hb x Hx). unfold isByte. lia.
Defined.

(** X3: the [String] form of a 32-byte value has 95 characters.
    [Truncate(n)] is empty for [n <= 0], the whole [String] form for
    [n >= 32], and otherwise the first [3n - 1] characters of the
    [String] form followed by ["..."]. *)
Theorem Truncate_prefix (f : Fingerprint) (n : Z) :
  length f = 32%nat ->
  length (chars (String f)) = 95%nat /\
  (n <= 0 -> Truncate f n = "") /\
  (32 <= n -> Truncate f n = String f) /\
  (0 < n < 32 ->
     chars (Truncate f n) =
     take (Z.to_nat (3 * n - 1)) (chars (String f)) ++ chars "...").
Proof.
  intros Hl. split_and!.
  - now apply String_length.
  - intros Hn. unfold Truncate. apply Z.leb_le in Hn. now rewrite Hn.
  - intros Hn. unfold Truncate, sha256Size.
    destruct (Z.leb_spec n 0); [lia |].
    destruct (Z.geb_spec n (Z.of_nat 32)); [reflexivity | lia].
  - intros Hn. unfold Truncate, sha256Size.
    destruct (Z.leb_spec n 0); [lia |].
    destruct (Z.geb_spec n (Z.of_nat 32)); [lia |].
    rewrite chars_str, chars_String. f_equal.
    replace (Z.to_nat (3 * n - 1)) with (3 * Z.to_nat n - 1)%nat by lia.
    rewrite Join_pairs_take by (apply Forall_Sprintf_len2 || lia).
    now rewrite <- List.firstn_map.
Qed.

Lemma Truncate_prefix_witness :
  chars (Truncate validFP 4) =
  take 11 (chars (String validFP)) ++ chars "...".
Proof.
  destruct (Truncate_prefix validFP 4 eq_refl) as (_ & _ & _ & T).
  apply T. lia.
Defined.

End FingerprintOpsClaims.

(* ===================================================================== *)
(** * Further properties of the validation engine                         *)
(* ===================================================================== *)

Module validatorMoreFacts.
Import Fingerprint truststore validator validatorSpec validatorFacts
       validatorMore.
Section WithHost.
Context {H : Host}.

(** [validateAgainstStore] when no fingerprint of the store resolves. *)
Lemma validateAgainstStore_no_anchor now chain store :
  anchors store = [] ->
  validateAgainstStore now chain store =
  failed (platformVersion store) "no valid root certificates in trust store".
Proof.
  intros Ha. unfold validateAgainstStore.
  pose proof (resolveRoots_anchors store) as Ea.
  destruct (resolveRoots (Store.Fingerprints store)) as [rootCerts miss].
  simpl in Ea. subst rootCerts. now rewrite Ha.
Qed.

(** [validateAgainstStore] when path verification succeeds with a first
    chain that is not empty. *)
Lemma validateAgainstStore_verified now chain store c0 rest others :
  anchors store <> [] ->
  Verify (CertChain.ServerCert chain) (verifyOptions chain store) =
    inl ((c0 :: rest) :: others) ->
  let root := List.last (c0 :: rest) c0 in
  let violation :=
    checkConstraints now chain
      (Store.ConstraintFor store (FingerprintFromCert root)) in
  validateAgainstStore now chain store =
  {| TrustResult.Platform := platformVersion store;
     TrustResult.Trusted := String.eqb violation "";
     TrustResult.MatchedCA := displayName root;
     TrustResult.VerifiedChain := c0 :: rest;
     TrustResult.FailureReason := violation |}.
Proof.
  intros Hne Hv root violation. unfold validateAgainstStore.
  pose proof (resolveRoots_anchors store) as Ea.
  destruct (resolveRoots (Store.Fingerprints store)) as [rootCerts miss].
  simpl in Ea. subst rootCerts.
  destruct (anchors store) as [| a l] eqn:E; [congruence |].
  cbn [length Nat.eqb]. unfold verifyOptions in Hv. rewrite E in Hv.
  rewrite Hv. fold root. fold violation. unfold platformVersion, displayName.
  destruct (String.eqb_spec violation "") as [Ev | Ev]; simpl.
  - now rewrite Ev.
  - reflexivity.
Qed.

Lemma validateAgainstStore_trusted_inv now chain store :
  TrustResult.Trusted (validateAgainstStore now chain store) = true ->
  anchors store <> [] /\
  exists chains,
    Verify (CertChain.ServerCert chain) (verifyOptions chain store) =
      inl chains.
Proof.
  intros Ht.
  destruct (anchors store) as [| a l] eqn:Ea.
  - rewrite validateAgainstStore_no_anchor in Ht by assumption. discriminate.
  - split; [discriminate |].
    destruct (Verify (CertChain.ServerCert chain) (verifyOptions chain store))
      as [chains | err] eqn:Ev; [eauto |].
    unfold verifyOptions in Ev.
    rewrite (validateAgainstStore_verify_error now chain store err) in Ht;
      [discriminate | rewrite Ea; discriminate | exact Ev].
Qed.

Lemma checkDistrustDate_mono now now' c :
  now' <= now -> checkDistrustDate now c = None ->
  checkDistrustDate now' c = None.
Proof.
  unfold checkDistrustDate. intros Hle.
  destruct (Constraints.DistrustDate c) as [d |]; [| reflexivity].
  destruct (After now d) eqn:E; [discriminate |]. intros _.
  apply After_false in E.
  assert (After now' d = false) as -> by (apply After_false; lia).
  reflexivity.
Qed.

Lemma checkSCTNotAfter_None chain c :
  checkSCTNotAfter chain c = None <->
  match Constraints.SCTNotAfter c with
  | Some d => Exists (fun sct => SCT.Timestamp sct <= d) (CertChain.SCTs chain)
  | None => True
  end.
Proof.
  unfold checkSCTNotAfter.
  destruct (Constraints.SCTNotAfter c) as [d |]; [| tauto].
  destruct (CertChain.SCTs chain) as [| sct scts] eqn:Es.
  - split; [discriminate | intros HE; inversion HE].
  - rewrite <- hasValidSCT_true, <- (negb_involutive (hasValidSCT _ d)),
      hasValidSCT_forallb.
    destruct (forallb _ (sct :: scts)); simpl; split;
      (reflexivity || discriminate).
Qed.

End WithHost.
End validatorMoreFacts.

Module validatorMoreClaims.
Import Fingerprint truststore validator validatorSpec validatorFacts
       validatorMore validatorMoreFacts Samples.

#[local] Existing Instance testHost.

(** X4: [validateAgainstStore] always reports the platform and version
    of the store; it reports a store as trusted only if at least one of
    its fingerprints resolves in the registry and path verification
    against the resolved roots succeeded; and a trusted result carries
    no failure reason. *)
Theorem validateAgainstStore_trusted_only_if_verified {H : Host}
  (now : Time) (chain : CertChain.t) (store : Store.t) :
  TrustResult.Platform (validateAgainstStore now chain store) =
    platformVersion store /\
  (TrustResult.Trusted (validateAgainstStore now chain store) = true ->
     anchors store <> [] /\
     (exists chains,
        Verify (CertChain.ServerCert chain) (verifyOptions chain store) =
          inl chains) /\
     TrustResult.FailureReason (validateAgainstStore now chain store) = "").
Proof.
  split.
  - unfold validateAgainstStore.
    destruct (resolveRoots (Store.Fingerprints store)) as [rootCerts miss].
    destruct (Nat.eqb (length rootCerts) 0); [reflexivity |].
    destruct (Verify _ _) as [chains | err].
    + destruct chains as [| [| c0 rest] others]; try reflexivity.
      cbv zeta. destruct (negb _); reflexivity.
    + destruct (last _); [| reflexivity].
      destruct (default false _); reflexivity.
  - intros Ht.
    destruct (validateAgainstStore_trusted_inv now chain store Ht)
      as (Hne & chains & Ev).
    split; [assumption |]. split; [eauto |].
    destruct chains as [| [| c0 rest] others].
    + revert Ht. unfold validateAgainstStore.
      pose proof (resolveRoots_anchors store) as Ea.
      destruct (resolveRoots (Store.Fingerprints store)) as [rootCerts miss].
      simpl in Ea. subst rootCerts. unfold verifyOptions in Ev.
      destruct (anchors store); [congruence |]. cbn [length Nat.eqb].
      now rewrite Ev.
    + revert Ht. unfold validateAgainstStore.
      pose proof (resolveRoots_anchors store) as Ea.
      destruct (resolveRoots (Store.Fingerprints store)) as [rootCerts miss].
      simpl in Ea. subst rootCerts. unfold verifyOptions in Ev.
      destruct (anchors store); [congruence |]. cbn [length Nat.eqb].
      now rewrite Ev.
    + rewrite (validateAgainstStore_verified now chain store c0 rest others)
        in * by assumption.
      cbn in *. now apply String.eqb_eq in Ht.
Qed.

Lemma validateAgainstStore_trusted_only_if_verified_witness :
  TrustResult.FailureReason
    (validateAgainstStore 0 chainSigned storeAvailable) = "".
Proof.
  apply (proj2 (validateAgainstStore_trusted_only_if_verified
                  0 chainSigned storeAvailable)).
  vm_compute. reflexivity.
Defined.

(** X5: a store none of whose fingerprints resolves in the registry
    (a store without fingerprints among them) is reported untrusted with
    the reason "no valid root certificates in trust store", whatever the
    chain; path verification has no part in the result. *)
Theorem validateAgainstStore_no_resolved_root {H : Host}
  (now : Time) (chain : CertChain.t) (store : Store.t) :
  Forall (fun fp => getCertByFingerprint fp = None) (Store.Fingerprints store) ->
  validateAgainstStore now chain store =
  {| TrustResult.Platform := platformVersion store;
     TrustResult.Trusted := false;
     TrustResult.MatchedCA := "";
     TrustResult.VerifiedChain := [];
     TrustResult.FailureReason := "no valid root certificates in trust store" |}.
Proof.
  intros HF. apply validateAgainstStore_no_anchor.
  unfold anchors. induction HF as [| fp fps Hfp HF IH]; [reflexivity |].
  simpl. now rewrite Hfp.
Qed.

Lemma validateAgainstStore_no_resolved_root_witness :
  TrustResult.FailureReason
    (validateAgainstStore 0 chainSigned storeUnresolved) =
  "no valid root certificates in trust store".
Proof.
  rewrite (validateAgainstStore_no_resolved_root 0 chainSigned storeUnresolved);
    [reflexivity |].
  repeat constructor.
Defined.

(** X6: when path verification succeeds, the root is the last
    certificate of the first verified chain: the result carries that
    chain and the display name of the root (CommonName, else the first
    Organization, else empty), it is trusted exactly when
    [checkConstraints] finds no violation of the store's constraints for
    the fingerprint of that root, and its failure reason is the
    violation.  In particular a root without constraints in the store is
    trusted. *)
Theorem validateAgainstStore_verified_chain {H : Host}
  (now : Time) (chain : CertChain.t) (store : Store.t)
  (c0 : Certificate.t) (rest : list Certificate.t)
  (others : list (list Certificate.t)) :
  anchors store <> [] ->
  Verify (CertChain.ServerCert chain) (verifyOptions chain store) =
    inl ((c0 :: rest) :: others) ->
  let root := List.last (c0 :: rest) c0 in
  let r := validateAgainstStore now chain store in
  let constraints := Store.ConstraintFor store (FingerprintFromCert root) in
  TrustResult.VerifiedChain r = c0 :: rest /\
  TrustResult.MatchedCA r = displayName root /\
  TrustResult.FailureReason r = checkConstraints now chain constraints /\
  (TrustResult.Trusted r = true <->
   checkConstraints now chain constraints = "") /\
  (Store.Constraints store !! FingerprintFromCert root = None ->
   TrustResult.Trusted r = true).
Proof.
  intros Hne Hv root r constraints. subst r.
  rewrite (validateAgainstStore_verified now chain store c0 rest others)
    by assumption.
  cbn. fold root. fold constraints. split_and!; try reflexivity.
  - apply String.eqb_eq.
  - intros Hn. subst constraints. unfold Store.ConstraintFor. rewrite Hn.
    reflexivity.
Qed.

Lemma validateAgainstStore_verified_chain_witness :
  TrustResult.MatchedCA (validateAgainstStore 0 chainSigned storeAvailable) =
  "Available CA".
Proof.
  assert (Hne : anchors storeAvailable <> []) by (vm_compute; discriminate).
  assert (Hv : Verify (CertChain.ServerCert chainSigned)
                 (verifyOptions chainSigned storeAvailable) =
               inl ((signedLeaf :: [availableCA]) :: []))
    by (vm_compute; reflexivity).
  destruct (validateAgainstStore_verified_chain 0 chainSigned storeAvailable
              signedLeaf [availableCA] [] Hne Hv) as (_ & E & _).
  rewrite E. reflexivity.
Defined.

(** X7: a root that the store distrusts since a date before the time of
    validation is never trusted: when path verification succeeds and the
    constraints of the matched root have a DistrustDate strictly before
    now, the result is untrusted with a non-empty reason, whatever the
    other constraints and the SCTs are. *)
Theorem validateAgainstStore_distrusted_root {H : Host}
  (now : Time) (chain : CertChain.t) (store : Store.t)
  (c0 : Certificate.t) (rest : list Certificate.t)
  (others : list (list Certificate.t)) (d : Time) :
  anchors store <> [] ->
  Verify (CertChain.ServerCert chain) (verifyOptions chain store) =
    inl ((c0 :: rest) :: others) ->
  Constraints.DistrustDate
    (Store.ConstraintFor store
       (FingerprintFromCert (List.last (c0 :: rest) c0))) = Some d ->
  d < now ->
  TrustResult.Trusted (validateAgainstStore now chain store) = false /\
  TrustResult.FailureReason (validateAgainstStore now chain store) <> "".
Proof.
  intros Hne Hv Hd Hlt.
  rewrite (validateAgainstStore_verified now chain store c0 rest others)
    by assumption.
  cbn. set (c := Store.ConstraintFor store _) in *.
  assert (Hviol : checkConstraints now chain c <> "").
  { intros E. rewrite checkConstraints_firstViolation in E.
    rewrite firstViolation_empty in E by apply checks_nonempty.
    inversion E as [| ? ? _ E1]; subst. inversion E1 as [| ? ? Hdd _]; subst.
    unfold checkDistrustDate in Hdd. rewrite Hd in Hdd.
    assert (After now d = true) as Ha by now apply After_true.
    rewrite Ha in Hdd. discriminate. }
  split; [| assumption]. now apply String.eqb_neq.
Qed.

Lemma validateAgainstStore_distrusted_root_witness :
  TrustResult.Trusted
    (validateAgainstStore 101 chainSigned SamplesMore.storeDistrusting) = false.
Proof.
  apply (validateAgainstStore_distrusted_root 101 chainSigned
           SamplesMore.storeDistrusting signedLeaf [availableCA] [] 100).
  - vm_compute. discriminate.
  - vm_compute. reflexivity.
  - vm_compute. reflexivity.
  - lia.
Defined.

(** X8: constraint checking is monotone in time and in the SCTs: a
    chain that passes at some time passes at every earlier time; the
    order of the SCTs does not matter; and a chain that passes still
    passes with further SCTs. *)
Theorem checkConstraints_monotone {H : Host}
  (now : Time) (chain : CertChain.t) (c : Constraints.t) :
  (forall now', now' <= now ->
     checkConstraints now chain c = "" ->
     checkConstraints now' chain c = "") /\
  (forall scts, scts ≡ₚ CertChain.SCTs chain ->
     (checkConstraints now (withSCTs chain scts) c = "" <->
      checkConstraints now chain c = "")) /\
  (forall more,
     checkConstraints now chain c = "" ->
     checkConstraints now
       (withSCTs chain (CertChain.SCTs chain ++ more)) c = "").
Proof.
  assert (Hiff : forall now0 ch,
            checkConstraints now0 ch c = "" <->
            checkNotBeforeMax ch c = None /\ checkDistrustDate now0 c = None /\
            checkSCTNotAfter ch c = None).
  { intros now0 ch. rewrite checkConstraints_firstViolation.
    rewrite firstViolation_empty by apply checks_nonempty. split.
    - intros HF. inversion HF as [| ? ? H1 HF1]; subst.
      inversion HF1 as [| ? ? H2 HF2]; subst. inversion HF2; subst. auto.
    - intros (-> & -> & ->). repeat constructor. }
  split_and!.
  - intros now' Hle. rewrite !Hiff. intros (H1 & H2 & H3).
    split_and!; try assumption. now apply (checkDistrustDate_mono now).
  - intros scts Hp. rewrite !Hiff.
    assert (E1 : checkNotBeforeMax (withSCTs chain scts) c =
                 checkNotBeforeMax chain c) by reflexivity.
    assert (E3 : checkSCTNotAfter (withSCTs chain scts) c = None <->
                 checkSCTNotAfter chain c = None).
    { rewrite !checkSCTNotAfter_None.
      destruct (Constraints.SCTNotAfter c); [| tauto].
      cbn [withSCTs CertChain.SCTs]. now rewrite Hp. }
    rewrite E1, E3. tauto.
  - intros more. rewrite !Hiff. intros (H1 & H2 & H3).
    split_and!; try assumption.
    apply checkSCTNotAfter_None. apply checkSCTNotAfter_None in H3.
    destruct (Constraints.SCTNotAfter c); [| exact I].
    cbn [withSCTs CertChain.SCTs]. apply Exists_app. now left.
Qed.

Lemma checkConstraints_monotone_witness :
  checkConstraints 0
    (withSCTs chainSigned
       (CertChain.SCTs (withSCTs chainSigned [SamplesMore.sctAt 400])
        ++ [SamplesMore.sctAt 600]))
    SamplesMore.sctBefore500 = "".
Proof.
  apply (proj2 (proj2 (checkConstraints_monotone 0
                         (withSCTs chainSigned [SamplesMore.sctAt 400])
                         SamplesMore.sctBefore500))).
  vm_compute. reflexivity.
Defined.

End validatorMoreClaims.

(* ===================================================================== *)
(** * The loader of the trust stores                                      *)
(* ===================================================================== *)

Module storeLoaderFacts.
Import GoString Fingerprint truststore storeLoader storeLoaderSpec.

Lemma IsEmpty_empty c :
  Constraints.IsEmpty c = true -> c = Constraints.empty.
Proof.
  destruct c as [[a |] [b |] [d |]]; cbn; intros E; try discriminate.
  reflexivity.
Qed.

Lemma buildLoop_fields i es st :
  Store.Platform (buildLoop i es st) = Store.Platform st /\
  Store.Version (buildLoop i es st) = Store.Version st /\
  Store.Constraints (buildLoop i es st) =
    foldl addConstraint (Store.Constraints st) es.
Proof.
  revert i st. induction es as [| e es IH]; intros i st; [auto |].
  cbn [buildLoop foldl]. destruct (IH (S i) (buildStep st i e)) as (-> & -> & ->).
  auto.
Qed.

Lemma buildLoop_Fingerprints es : forall i st,
  length (Store.Fingerprints st) = (i + length es)%nat ->
  Store.Fingerprints (buildLoop i es st) =
  take i (Store.Fingerprints st) ++ map fingerprint es.
Proof.
  induction es as [| e es IH]; intros i st Hl.
  - cbn [buildLoop map length] in *. rewrite app_nil_r.
    rewrite take_ge; [reflexivity | lia].
  - cbn [buildLoop map length] in *.
    rewrite IH by (cbn; rewrite length_insert; lia). cbn.
    assert (Hi : (i < length (Store.Fingerprints st))%nat) by lia.
    rewrite (take_S_r _ i (fingerprint e))
      by (apply list_lookup_insert_eq; exact Hi).
    rewrite take_insert_ge by lia. now rewrite <- app_assoc.
Qed.

Lemma buildStore_Fingerprints key es :
  Store.Fingerprints (buildStore key es) = map fingerprint es.
Proof.
  unfold buildStore. rewrite buildLoop_Fingerprints.
  - reflexivity.
  - cbn. now rewrite length_replicate.
Qed.

Lemma buildStore_Constraints key es :
  Store.Constraints (buildStore key es) = foldl addConstraint ∅ es.
Proof.
  unfold buildStore. now destruct (buildLoop_fields 0 es
    {| Store.Platform := key.1; Store.Version := key.2;
       Store.Fingerprints := replicate (length es) zeroFingerprint;
       Store.Constraints := ∅ |}) as (_ & _ & ->).
Qed.

Lemma addConstraints_keep fp es : forall m,
  (forall e, In e es -> fingerprint e = fp ->
             Constraints.IsEmpty (constraints e) = true) ->
  foldl addConstraint m es !! fp = m !! fp.
Proof.
  induction es as [| e es IH]; intros m Hk; [reflexivity |].
  cbn [foldl]. rewrite IH by (intros e' Hin; apply Hk; now right).
  unfold addConstraint.
  destruct (Constraints.IsEmpty (constraints e)) eqn:E; [reflexivity |].
  cbn. apply lookup_insert_ne. intros Heq.
  rewrite (Hk e (or_introl eq_refl) Heq) in E. discriminate.
Qed.

Lemma addConstraints_inv es : forall m fp c,
  foldl addConstraint m es !! fp = Some c ->
  m !! fp = Some c \/
  (Constraints.IsEmpty c = false /\
   exists e, In e es /\ fingerprint e = fp /\ constraints e = c).
Proof.
  induction es as [| e es IH]; intros m fp c Hl; [now left |].
  cbn [foldl] in Hl. apply IH in Hl as [Hl | (Hne & e' & Hin & Hf & Hc)].
  - unfold addConstraint in Hl.
    destruct (Constraints.IsEmpty (constraints e)) eqn:E; [now left |].
    cbn in Hl. destruct (decide (fingerprint e = fp)) as [Heq | Hneq].
    + subst fp. rewrite lookup_insert_eq in Hl. injection Hl as <-.
      right. split; [assumption |]. exists e. split; [now left | auto].
    + rewrite lookup_insert_ne in Hl by assumption. now left.
  - right. split; [assumption |]. exists e'. split; [now right | auto].
Qed.

Lemma ConstraintFor_last key es1 e es2 :
  Constraints.IsEmpty (constraints e) = false ->
  (forall e', In e' es2 -> fingerprint e' = fingerprint e ->
              Constraints.IsEmpty (constraints e') = true) ->
  Store.ConstraintFor (buildStore key (es1 ++ e :: es2)) (fingerprint e) =
  constraints e.
Proof.
  intros Hne Hlater. unfold Store.ConstraintFor.
  rewrite buildStore_Constraints, foldl_app. cbn [foldl].
  rewrite addConstraints_keep by assumption.
  unfold addConstraint. rewrite Hne. cbn. now rewrite lookup_insert_eq.
Qed.

Section WithTime.
Variable timeParse : string -> option Time.

Lemma parseColumn_cases record i err :
  (parseColumn timeParse record i err = inl None /\
   (record !! i = None \/ record !! i = Some "")) \/
  (exists s t, record !! i = Some s /\ s <> "" /\ timeParse s = Some t /\
               parseColumn timeParse record i err = inl (Some t)) \/
  (exists s, record !! i = Some s /\ s <> "" /\ timeParse s = None /\
             parseColumn timeParse record i err = inr (err s)).
Proof.
  unfold parseColumn. destruct (record !! i) as [s |]; [| left; auto].
  destruct (String.eqb_spec s "") as [-> | Hs]; [left; auto |].
  destruct (timeParse s) as [t |] eqn:Et.
  - right; left. exists s, t. auto.
  - right; right. exists s. auto.
Qed.

Lemma parseColumn_inr record i err e :
  parseColumn timeParse record i err = inr e ->
  unparsable timeParse record i /\
  exists s, record !! i = Some s /\ e = err s.
Proof.
  unfold parseColumn, unparsable.
  destruct (record !! i) as [s |]; [| discriminate].
  destruct (String.eqb_spec s "") as [-> | Hs]; [discriminate |].
  destruct (timeParse s) as [t |] eqn:Et; [discriminate |].
  intros [= <-]. split; exists s; auto.
Qed.

Lemma parseColumn_inl record i err d :
  parseColumn timeParse record i err = inl d ->
  columnDate timeParse record i d /\
  (d = None <-> blank record i) /\
  ~ unparsable timeParse record i.
Proof.
  unfold parseColumn, unparsable, columnDate, blank.
  destruct (record !! i) as [s |].
  - destruct (String.eqb_spec s "") as [-> | Hs].
    + intros [= <-]. split_and!; [reflexivity | tauto |].
      intros (s & [= <-] & Hn & _). congruence.
    + destruct (timeParse s) as [t |] eqn:Et; [| discriminate].
      intros [= <-]. split_and!; [reflexivity | |].
      * split; [discriminate | intros [? | ?]; congruence].
      * intros (s' & [= <-] & _ & Hn). congruence.
  - intros [= <-]. split_and!; [reflexivity | tauto |].
    intros (s & ? & _). discriminate.
Qed.

Lemma unparsable_inr record i err :
  unparsable timeParse record i ->
  exists s, record !! i = Some s /\ s <> "" /\ timeParse s = None /\
            parseColumn timeParse record i err = inr (err s).
Proof.
  intros (s & Hs & Hn & Ht). exists s. split_and!; try assumption.
  unfold parseColumn. rewrite Hs.
  destruct (String.eqb_spec s "") as [-> | _]; [congruence |].
  now rewrite Ht.
Qed.

Lemma appendEntry_lookup result key entry k :
  default [] (appendEntry result key entry !! k) =
  default [] (result !! k) ++ entriesOf k [(key, entry)].
Proof.
  unfold appendEntry, entriesOf. cbn [List.filter fst].
  destruct (decide (key = k)) as [-> | Hne].
  - rewrite lookup_insert_eq, bool_decide_eq_true_2 by reflexivity.
    reflexivity.
  - rewrite lookup_insert_ne, bool_decide_eq_false_2 by assumption.
    cbn. now rewrite app_nil_r.
Qed.

Lemma entriesOf_cons k p parsed :
  entriesOf k (p :: parsed) = entriesOf k [p] ++ entriesOf k parsed.
Proof.
  unfold entriesOf. cbn [List.filter].
  destruct (bool_decide (p.1 = k)); reflexivity.
Qed.

Lemma entriesOf_nil_iff k parsed :
  entriesOf k parsed = [] <-> ~ In k (map fst parsed).
Proof.
  induction parsed as [| p parsed IH]; [cbn; tauto |].
  rewrite entriesOf_cons. cbn [map In]. unfold entriesOf at 1.
  cbn [List.filter]. destruct (bool_decide_reflect (p.1 = k)) as [E | E].
  - cbn. split; [discriminate | tauto].
  - cbn. rewrite IH. tauto.
Qed.

Lemma parseStoreRecordsFrom_ok reads : forall result result',
  parseStoreRecordsFrom timeParse result reads = Ok result' ->
  exists parsed,
    parsedAs timeParse reads parsed /\
    (forall k, default [] (result' !! k) =
               default [] (result !! k) ++ entriesOf k parsed) /\
    (forall k, result' !! k = None <->
               result !! k = None /\ ~ In k (map fst parsed)).
Proof.
  induction reads as [| rd reads IH]; intros result result' Hr.
  - cbn in Hr. injection Hr as <-. exists []. split; [constructor |].
    split; intros k; [cbn; now rewrite app_nil_r | cbn; tauto].
  - destruct rd as [record | e]; [| discriminate]. cbn in Hr.
    destruct (parseRecord timeParse record) as [[key entry] | e |] eqn:Ep;
      try discriminate.
    apply IH in Hr as (parsed & Hp & Hl & Hn).
    exists ((key, entry) :: parsed). split; [| split].
    + constructor; [| assumption]. exists record. auto.
    + intros k. rewrite Hl, appendEntry_lookup.
      rewrite (entriesOf_cons k (key, entry) parsed).
      symmetry. apply List.app_assoc.
    + intros k. rewrite Hn. cbn [map In fst]. unfold appendEntry.
      destruct (decide (key = k)) as [-> | Hne].
      * rewrite lookup_insert_eq. split; [intros [? _]; discriminate | tauto].
      * rewrite lookup_insert_ne by assumption. tauto.
Qed.

Lemma parseStoreRecordsFrom_complete reads parsed : forall result,
  parsedAs timeParse reads parsed ->
  exists result', parseStoreRecordsFrom timeParse result reads = Ok result'.
Proof.
  intros result Hp. revert result.
  induction Hp as [| rd p reads parsed (record & -> & Ep) _ IH]; intros result.
  - eexists. reflexivity.
  - cbn. rewrite Ep. destruct p as [key entry]. apply IH.
Qed.

Lemma parseStoreRecordsFrom_first_bad good parsed : forall result bad rest,
  parsedAs timeParse good parsed ->
  (forall record p, bad = Record_ record ->
                    parseRecord timeParse record <> Ok p) ->
  parseStoreRecordsFrom timeParse result (good ++ bad :: rest) =
  match bad with
  | ReadError e => Err (ErrReadRecord e)
  | Record_ record =>
      match parseRecord timeParse record with
      | Ok _ => Panic
      | Err e => Err e
      | Panic => Panic
      end
  end.
Proof.
  intros result bad rest Hp. revert result.
  induction Hp as [| rd p reads parsed' (record & -> & Ep) _ IH];
    intros result Hbad.
  - cbn. destruct bad as [record | e]; [| reflexivity].
    destruct (parseRecord timeParse record) as [p | e |] eqn:Ep;
      try reflexivity.
    now destruct (Hbad record p eq_refl).
  - cbn. rewrite Ep. destruct p as [key entry]. now apply IH.
Qed.

Lemma parseStoreRecordsFrom_nonempty reads : forall result result',
  parseStoreRecordsFrom timeParse result reads = Ok result' ->
  (forall k es, result !! k = Some es -> es <> []) ->
  forall k es, result' !! k = Some es -> es <> [].
Proof.
  induction reads as [| rd reads IH]; intros result result' Hr Hne.
  - cbn in Hr. injection Hr as <-. exact Hne.
  - destruct rd as [record | e]; [| discriminate]. cbn in Hr.
    destruct (parseRecord timeParse record) as [[key entry] | e |] eqn:Ep;
      try discriminate.
    apply (IH _ _ Hr). intros k es. unfold appendEntry.
    destruct (decide (key = k)) as [-> | Hk].
    + rewrite lookup_insert_eq. intros [= <-].
      destruct (default [] (result !! k)); discriminate.
    + rewrite lookup_insert_ne by assumption. apply Hne.
Qed.

Lemma parseRecord_wf record key entry :
  parseRecord timeParse record = Ok (key, entry) ->
  wf (fingerprint entry).
Proof.
  unfold parseRecord.
  destruct (record !! 0%nat) as [platform |]; [| discriminate].
  destruct (record !! 1%nat) as [version |]; [| discriminate].
  destruct (record !! 2%nat) as [fpStr |]; [| discriminate].
  destruct (ParseFingerprint fpStr) as [fp | e] eqn:Ef; [| discriminate].
  destruct (parseConstraintColumns timeParse record) as [c | e];
    [| discriminate].
  intros [= <- <-]. cbn. now apply FingerprintFacts.ParseFingerprint_inl in Ef.
Qed.

Lemma parsedAs_wf reads parsed :
  parsedAs timeParse reads parsed ->
  forall k e, In e (entriesOf k parsed) -> wf (fingerprint e).
Proof.
  induction 1 as [| rd p reads parsed (record & -> & Ep) _ IH]; intros k e.
  - intros [].
  - rewrite entriesOf_cons. intros Hin. apply in_app_or in Hin as [Hin | Hin].
    + unfold entriesOf in Hin. cbn [List.filter] in Hin.
      destruct (bool_decide (p.1 = k)); [| destruct Hin].
      destruct Hin as [<- | []]. destruct p as [key entry].
      now apply (parseRecord_wf record key).
    + now apply (IH k).
Qed.

Lemma parseStoreRecords_ok reads storeMap :
  parseStoreRecords timeParse reads = Ok storeMap ->
  exists parsed,
    parsedAs timeParse reads parsed /\
    (forall key, default [] (storeMap !! key) = entriesOf key parsed) /\
    (forall key, storeMap !! key = None <-> ~ In key (map fst parsed)) /\
    (forall key, storeMap !! key <> Some []).
Proof.
  intros Hr. unfold parseStoreRecords in Hr.
  destruct (parseStoreRecordsFrom_ok reads ∅ storeMap Hr)
    as (parsed & Hp & Hd & Hn).
  exists parsed. split_and!; [assumption | | |].
  - intros key. rewrite Hd, lookup_empty. reflexivity.
  - intros key. rewrite Hn, lookup_empty. tauto.
  - intros key Hk.
    apply (parseStoreRecordsFrom_nonempty reads ∅ storeMap Hr) in Hk;
      [now apply Hk |].
    intros k es. rewrite lookup_empty. discriminate.
Qed.

Lemma fmap_map {A B} (f : A -> B) (l : list A) : f <$> l = map f l.
Proof. induction l as [| a l IH]; cbn; [reflexivity | now rewrite <- IH]. Qed.

Lemma foldl_append {A B} (f : A -> B) (l : list A) : forall acc : list B,
  foldl (fun stores ke => stores ++ [f ke]) acc l = acc ++ map f l.
Proof.
  induction l as [| a l IH]; intros acc; cbn.
  - now rewrite app_nil_r.
  - rewrite IH. symmetry. apply (List.app_assoc acc [f a]).
Qed.

Lemma keyOf_buildStore key es : keyOf (buildStore key es) = key.
Proof.
  unfold keyOf, buildStore.
  destruct (buildLoop_fields 0 es
    {| Store.Platform := key.1; Store.Version := key.2;
       Store.Fingerprints := replicate (length es) zeroFingerprint;
       Store.Constraints := ∅ |}) as (-> & -> & _).
  now destruct key.
Qed.

End WithTime.
End storeLoaderFacts.

Module storeLoaderClaims.
Import GoString Fingerprint truststore storeLoader storeLoaderSpec
       storeLoaderFacts.

Example load_sample :
  match loadStores sampleTimeParse map_to_list [] sampleReads with
  | Ok stores =>
      map (fun s => (keyOf s, length (Store.Fingerprints s))) stores
      ≡ₚ [(("chrome", "139"), 2%nat); (("ios", "18"), 1%nat)]
  | _ => False
  end.
Proof. vm_compute. reflexivity || apply Permutation_swap. Qed.

(** X9: [buildStore] keeps the platform and the version of the key and
    lists the fingerprints of the entries in their order.  Its
    constraints map holds only constraints that are not empty, each the
    constraints of an entry with that fingerprint.  Looked up with
    [ConstraintFor], a fingerprint that no entry has gives the empty
    constraints; when the fingerprints of the entries are distinct every
    entry gets back its own constraints; and in general the last entry
    with non-empty constraints for a fingerprint wins: a later entry of
    the same fingerprint without constraints does not erase them. *)
Theorem buildStore_ConstraintFor (key : storeKey)
  (entries : list storeEntry) :
  keyOf (buildStore key entries) = key /\
  Store.Fingerprints (buildStore key entries) = map fingerprint entries /\
  (forall fp c,
     Store.Constraints (buildStore key entries) !! fp = Some c ->
     Constraints.IsEmpty c = false /\
     exists e, In e entries /\ fingerprint e = fp /\ constraints e = c) /\
  (forall fp,
     ~ In fp (map fingerprint entries) ->
     Store.ConstraintFor (buildStore key entries) fp = Constraints.empty) /\
  (List.NoDup (map fingerprint entries) ->
   forall e, In e entries ->
     Store.ConstraintFor (buildStore key entries) (fingerprint e) =
     constraints e) /\
  (forall es1 e es2,
     entries = es1 ++ e :: es2 ->
     Constraints.IsEmpty (constraints e) = false ->
     (forall e', In e' es2 -> fingerprint e' = fingerprint e ->
                 Constraints.IsEmpty (constraints e') = true) ->
     Store.ConstraintFor (buildStore key entries) (fingerprint e) =
     constraints e).
Proof.
  split_and!.
  - unfold keyOf, buildStore.
    destruct (buildLoop_fields 0 entries
      {| Store.Platform := key.1; Store.Version := key.2;
         Store.Fingerprints := replicate (length entries) zeroFingerprint;
         Store.Constraints := ∅ |}) as (-> & -> & _).
    now destruct key.
  - apply buildStore_Fingerprints.
  - intros fp c Hl. rewrite buildStore_Constraints in Hl.
    apply addConstraints_inv in Hl as [Hl | Hl]; [| exact Hl].
    rewrite lookup_empty in Hl. discriminate.
  - intros fp Hnot. unfold Store.ConstraintFor.
    rewrite buildStore_Constraints, addConstraints_keep.
    + now rewrite lookup_empty.
    + intros e Hin <-. destruct Hnot. now apply in_map.
  - intros Hnd e Hin.
    destruct (in_split _ _ Hin) as (es1 & es2 & ->).
    rewrite map_app in Hnd. cbn [map] in Hnd.
    apply List.NoDup_remove_2 in Hnd.
    assert (Hother : forall e', In e' (es1 ++ es2) ->
                                fingerprint e' <> fingerprint e).
    { intros e' Hin' Heq. apply Hnd. rewrite <- Heq, <- map_app.
      now apply in_map. }
    destruct (Constraints.IsEmpty (constraints e)) eqn:E.
    + unfold Store.ConstraintFor.
      rewrite buildStore_Constraints, addConstraints_keep.
      * rewrite lookup_empty. cbn. symmetry. now apply IsEmpty_empty.
      * intros e' Hin' Heq. apply in_app_or in Hin' as [Hin' | [<- | Hin']];
          [| assumption |];
          destruct (Hother e'); auto using in_or_app.
    + apply ConstraintFor_last; [assumption |].
      intros e' Hin' Heq. destruct (Hother e'); auto using in_or_app.
  - intros es1 e es2 -> Hne Hlater. now apply ConstraintFor_last.
Qed.

Lemma buildStore_ConstraintFor_witness :
  let shadowed :=
    [ {| fingerprint := zeroFingerprint;
         constraints := SamplesMore.sctBefore500 |};
      {| fingerprint := zeroFingerprint;
         constraints := Constraints.empty |} ] in
  Store.ConstraintFor (buildStore ("chrome", "139") shadowed) zeroFingerprint =
  SamplesMore.sctBefore500.
Proof.
  intros shadowed.
  destruct (buildStore_ConstraintFor ("chrome", "139") shadowed)
    as (_ & _ & _ & _ & _ & Hlast).
  apply (Hlast [] {| fingerprint := zeroFingerprint;
                     constraints := SamplesMore.sctBefore500 |}
               [ {| fingerprint := zeroFingerprint;
                    constraints := Constraints.empty |} ]).
  - reflexivity.
  - reflexivity.
  - intros e' [<- | []] _. reflexivity.
Defined.

(** X10: [parseConstraintColumns] reads the columns 3, 4 and 5 of a
    record and nothing else.  It fails exactly when one of them holds a
    non-empty text that is not a date, and the error names the first
    such column.  When it succeeds, each field is the date of its column,
    or nil for a column that is missing or empty; so the result is empty
    exactly when the three columns are missing or empty. *)
Theorem parseConstraintColumns_columns (timeParse : string -> option Time)
  (record : list string) :
  ((exists e, parseConstraintColumns timeParse record = inr e) <->
   unparsable timeParse record 3 \/ unparsable timeParse record 4 \/
   unparsable timeParse record 5) /\
  (forall s, record !! 3%nat = Some s -> s <> "" -> timeParse s = None ->
     parseConstraintColumns timeParse record = inr (ErrParseNotBeforeMax s)) /\
  (forall c, parseConstraintColumns timeParse record = inl c ->
     columnDate timeParse record 3 (Constraints.NotBeforeMax c) /\
     columnDate timeParse record 4 (Constraints.DistrustDate c) /\
     columnDate timeParse record 5 (Constraints.SCTNotAfter c) /\
     (Constraints.IsEmpty c = true <->
      blank record 3 /\ blank record 4 /\ blank record 5)).
Proof.
  unfold parseConstraintColumns. split_and!.
  - split.
    + intros (e & He).
      destruct (parseColumn timeParse record 3 _) as [d3 | e3] eqn:E3;
        [| left; now apply parseColumn_inr in E3 as [? _]].
      destruct (parseColumn timeParse record 4 _) as [d4 | e4] eqn:E4;
        [| right; left; now apply parseColumn_inr in E4 as [? _]].
      destruct (parseColumn timeParse record 5 _) as [d5 | e5] eqn:E5;
        [discriminate |].
      right; right. now apply parseColumn_inr in E5 as [? _].
    + intros Hbad.
      destruct (parseColumn timeParse record 3 _) as [d3 | e3] eqn:E3;
        [| eauto].
      destruct (parseColumn timeParse record 4 _) as [d4 | e4] eqn:E4;
        [| eauto].
      destruct (parseColumn timeParse record 5 _) as [d5 | e5] eqn:E5;
        [| eauto].
      apply parseColumn_inl in E3 as (_ & _ & N3).
      apply parseColumn_inl in E4 as (_ & _ & N4).
      apply parseColumn_inl in E5 as (_ & _ & N5). tauto.
  - intros s Hs Hn Ht.
    destruct (unparsable_inr timeParse record 3 ErrParseNotBeforeMax)
      as (s' & Hs' & _ & _ & ->); [exists s; auto |]. congruence.
  - intros c Hc.
    destruct (parseColumn timeParse record 3 _) as [d3 | e3] eqn:E3;
      [| discriminate].
    destruct (parseColumn timeParse record 4 _) as [d4 | e4] eqn:E4;
      [| discriminate].
    destruct (parseColumn timeParse record 5 _) as [d5 | e5] eqn:E5;
      [| discriminate].
    injection Hc as <-. cbn.
    apply parseColumn_inl in E3 as (C3 & B3 & _).
    apply parseColumn_inl in E4 as (C4 & B4 & _).
    apply parseColumn_inl in E5 as (C5 & B5 & _).
    split_and!; try assumption.
    rewrite <- B3, <- B4, <- B5. unfold Constraints.IsEmpty. cbn.
    destruct d3, d4, d5; intuition congruence.
Qed.

Lemma parseConstraintColumns_columns_witness :
  parseConstraintColumns sampleTimeParse
    ["chrome"; "139"; sampleFP1; "yesterday"; ""; "2025-04-15T23:59:59Z"] =
  inr (ErrParseNotBeforeMax "yesterday").
Proof.
  apply (proj1 (proj2 (parseConstraintColumns_columns sampleTimeParse
           ["chrome"; "139"; sampleFP1; "yesterday"; "";
            "2025-04-15T23:59:59Z"]))).
  - reflexivity.
  - discriminate.
  - reflexivity.
Defined.

(** X11: [parseStoreRecords] groups the records by platform and
    version.  When it succeeds every record read was well formed, and
    the map holds, for each key, the entries of the records with that
    platform and version in the order of the file; a key without record
    is absent and no key has an empty list.  It succeeds whenever every
    record is well formed; and it stops at the first read error or
    record that is not well formed: what follows is not read and the
    call does not succeed. *)
Theorem parseStoreRecords_groups (timeParse : string -> option Time)
  (reads : list ReadResult) :
  (forall storeMap,
     parseStoreRecords timeParse reads = Ok storeMap ->
     exists parsed,
       parsedAs timeParse reads parsed /\
       (forall key, default [] (storeMap !! key) = entriesOf key parsed) /\
       (forall key, storeMap !! key = None <-> ~ In key (map fst parsed)) /\
       (forall key, storeMap !! key <> Some [])) /\
  (forall parsed,
     parsedAs timeParse reads parsed ->
     exists storeMap, parseStoreRecords timeParse reads = Ok storeMap) /\
  (forall good parsed bad rest,
     reads = good ++ bad :: rest ->
     parsedAs timeParse good parsed ->
     (forall record p, bad = Record_ record ->
                       parseRecord timeParse record <> Ok p) ->
     parseStoreRecords timeParse reads =
       parseStoreRecords timeParse (good ++ [bad]) /\
     forall storeMap, parseStoreRecords timeParse reads <> Ok storeMap).
Proof.
  split_and!.
  - apply parseStoreRecords_ok.
  - intros parsed Hp. now apply (parseStoreRecordsFrom_complete _ _ parsed).
  - intros good parsed bad rest -> Hp Hbad. unfold parseStoreRecords.
    rewrite (parseStoreRecordsFrom_first_bad timeParse good parsed ∅ bad rest)
      by assumption.
    rewrite (parseStoreRecordsFrom_first_bad timeParse good parsed ∅ bad [])
      by assumption.
    split; [reflexivity |]. intros storeMap.
    destruct bad as [record | e]; [| discriminate].
    destruct (parseRecord timeParse record); discriminate.
Qed.

Lemma parseStoreRecords_groups_witness :
  exists storeMap,
    parseStoreRecords sampleTimeParse (tail sampleReads) = Ok storeMap /\
    storeMap !! ("ios", "18") <> Some [].
Proof.
  destruct (parseStoreRecords sampleTimeParse (tail sampleReads))
    as [storeMap | e |] eqn:E.
  - exists storeMap. split; [reflexivity |].
    destruct (proj1 (parseStoreRecords_groups sampleTimeParse
                       (tail sampleReads)) storeMap E)
      as (parsed & _ & _ & _ & Hne).
    apply Hne.
  - vm_compute in E. discriminate.
  - vm_compute in E. discriminate.
Defined.

(** X12: [loadStores] skips the header and appends to [Stores] one
    store for each platform and version that occurs in the records,
    whatever the order in which the map is visited: the new stores have
    distinct platform-version pairs, every pair of a record has its
    store, each store is [buildStore] of the entries of its records in
    the order of the file, and each store has at least one fingerprint,
    all of 32 bytes. *)
Theorem loadStores_one_store_per_key (timeParse : string -> option Time)
  (rangeMap : gmap storeKey (list storeEntry) ->
              list (storeKey * list storeEntry))
  (Hrange : forall m, rangeMap m ≡ₚ map_to_list m)
  (Stores : list Store.t) (header : list string) (rest : list ReadResult)
  (stores : list Store.t) :
  loadStores timeParse rangeMap Stores (Record_ header :: rest) = Ok stores ->
  exists parsed new,
    parsedAs timeParse rest parsed /\
    stores = Stores ++ new /\
    List.NoDup (map keyOf new) /\
    (forall s, In s new ->
       s = buildStore (keyOf s) (entriesOf (keyOf s) parsed) /\
       Store.Fingerprints s <> [] /\
       Forall wf (Store.Fingerprints s)) /\
    (forall key, In key (map fst parsed) ->
       exists s, In s new /\ keyOf s = key).
Proof.
  intros Hl. unfold loadStores in Hl.
  destruct (parseStoreRecords timeParse rest) as [m | e |] eqn:Em;
    try discriminate.
  injection Hl as <-. rewrite foldl_append.
  destruct (parseStoreRecords_ok timeParse rest m Em)
    as (parsed & Hp & Hd & Hn & Hne).
  exists parsed, (map (fun ke => buildStore ke.1 ke.2) (rangeMap m)).
  assert (Hin : forall k es, In (k, es) (rangeMap m) <-> m !! k = Some es).
  { intros k es. rewrite <- elem_of_map_to_list, <- list_elem_of_In.
    now rewrite (Hrange m). }
  split_and!; [assumption | reflexivity | | |].
  - rewrite map_map.
    rewrite (map_ext _ fst) by (intros [k es]; apply keyOf_buildStore).
    apply (Permutation_NoDup (l := map fst (map_to_list m))).
    + symmetry. apply Permutation_map, Hrange.
    + rewrite <- fmap_map. apply NoDup_ListNoDup, NoDup_fst_map_to_list.
  - intros s Hs. apply in_map_iff in Hs as ([k es] & <- & Hke).
    apply Hin in Hke. cbn [fst snd]. rewrite keyOf_buildStore.
    assert (Ees : es = entriesOf k parsed).
    { rewrite <- Hd, Hke. reflexivity. }
    split_and!.
    + now rewrite Ees.
    + rewrite buildStore_Fingerprints. intros Hnil.
      apply map_eq_nil in Hnil. rewrite Hnil in Hke. now apply (Hne k).
    + rewrite buildStore_Fingerprints. apply List.Forall_forall.
      intros fp Hfp. apply in_map_iff in Hfp as (e & <- & He).
      rewrite Ees in He. now apply (parsedAs_wf timeParse rest parsed Hp k).
  - intros key Hkey.
    destruct (m !! key) as [es |] eqn:Ek.
    + exists (buildStore key es). split; [| apply keyOf_buildStore].
      apply in_map_iff. exists (key, es). split; [reflexivity |].
      now apply Hin.
    + apply Hn in Ek. now destruct Ek.
Qed.

Lemma loadStores_one_store_per_key_witness :
  exists stores,
    loadStores sampleTimeParse map_to_list [] sampleReads = Ok stores /\
    List.NoDup (map keyOf stores).
Proof.
  destruct (loadStores sampleTimeParse map_to_list [] sampleReads)
    as [stores | e |] eqn:E.
  - exists stores. split; [reflexivity |].
    destruct (loadStores_one_store_per_key sampleTimeParse map_to_list
                (fun m => Permutation_refl _) [] sampleHeader
                (tail sampleReads) stores E)
      as (parsed & new & _ & -> & Hnd & _).
    exact Hnd.
  - vm_compute in E. discriminate.
  - vm_compute in E. discriminate.
Defined.

End storeLoaderClaims.
(* ===================================================================== *)
(** * Further properties of the filter                                    *)
(* ===================================================================== *)

Module filterMoreFacts.
Import truststore filter.
Section WithSemver.
Context {L : Semver.Lib}.

(** The group of a platform: the constraints of that platform, in the
    order of the filter; a platform without constraint has no group. *)
Lemma groupBy_foldl_lookup p cs : forall m : gmap string (list Constraint),
  foldl (fun m c => <[Platform c := default [] (m !! Platform c) ++ [c]]> m)
        m cs !! p =
  match List.filter (fun c => String.eqb (Platform c) p) cs with
  | [] => m !! p
  | l => Some (default [] (m !! p) ++ l)
  end.
Proof.
  induction cs as [| c cs IH]; intros m; [reflexivity |].
  cbn [foldl List.filter]. rewrite IH.
  destruct (String.eqb_spec (Platform c) p) as [E | E].
  - rewrite E, lookup_insert_eq.
    destruct (List.filter _ cs) as [| c' l]; [reflexivity |].
    f_equal. symmetry. apply (List.app_assoc _ [c] (c' :: l)).
  - now rewrite lookup_insert_ne.
Qed.

Lemma groupByPlatform_lookup p cs :
  groupByPlatform cs !! p =
  match List.filter (fun c => String.eqb (Platform c) p) cs with
  | [] => None
  | l => Some l
  end.
Proof.
  unfold groupByPlatform. rewrite groupBy_foldl_lookup, lookup_empty.
  reflexivity.
Qed.

Lemma Match_iff f pv :
  Constraints f <> [] ->
  Match (Some f) pv = true <->
  (exists c, In c (Constraints f) /\
             Platform c = PlatformVersion.Platform pv) /\
  (forall c, In c (Constraints f) ->
             Platform c = PlatformVersion.Platform pv ->
             matchConstraint c (PlatformVersion.Version pv) = true).
Proof.
  intros Hne. unfold Match.
  destruct (Constraints f) as [| c0 cs0] eqn:Ec; [congruence |].
  cbn [length Nat.eqb]. rewrite groupByPlatform_lookup.
  set (cs := c0 :: cs0) in *.
  set (p := PlatformVersion.Platform pv).
  set (same := fun c : Constraint => String.eqb (Platform c) p).
  assert (Hin : forall c, In c (List.filter same cs) <->
                          In c cs /\ Platform c = p).
  { intros c. rewrite filter_In. unfold same.
    now rewrite String.eqb_eq. }
  destruct (List.filter same cs) as [| c l] eqn:El.
  - split; [discriminate |]. intros ((c & Hc & Hp) & _).
    destruct (proj2 (Hin c) (conj Hc Hp)).
  - rewrite forallb_forall. split.
    + intros Hall. split.
      * exists c. apply Hin. now left.
      * intros c' Hc' Hp'. apply Hall, Hin. auto.
    + intros (_ & Hall) c' Hc'. apply Hin in Hc' as [Hc' Hp'].
      now apply Hall.
Qed.

End WithSemver.
End filterMoreFacts.

Module filterMoreClaims.
Import truststore filter filterMoreFacts Samples.

(** X13: for a filter with at least one constraint, [Match] accepts a
    platform version exactly when some constraint names its platform and
    every constraint of that platform holds for its version: constraints
    of one platform are conjoined, constraints of other platforms are
    not looked at.  Hence the order of the constraints does not
    matter. *)
Theorem Match_same_platform_conjunction {L : Semver.Lib} (f : Filter)
  (pv : PlatformVersion.t) :
  Constraints f <> [] ->
  (Match (Some f) pv = true <->
   (exists c, In c (Constraints f) /\
              Platform c = PlatformVersion.Platform pv) /\
   (forall c, In c (Constraints f) ->
              Platform c = PlatformVersion.Platform pv ->
              matchConstraint c (PlatformVersion.Version pv) = true)) /\
  (forall f', Constraints f' ≡ₚ Constraints f ->
              Match (Some f') pv = Match (Some f) pv).
Proof.
  intros Hne. split; [now apply Match_iff |].
  intros f' Hp.
  assert (Hne' : Constraints f' <> []).
  { intros E. rewrite E in Hp. now apply Permutation_nil in Hp. }
  apply eq_true_iff_eq. rewrite !Match_iff by assumption.
  assert (Hin : forall c, In c (Constraints f') <-> In c (Constraints f)).
  { intros c. split; apply Permutation_in; [| symmetry]; assumption. }
  split; intros ((c & Hc & Hpc) & Hall); split;
    try (exists c; split; [now apply Hin | assumption]);
    intros c' Hc' Hp'; apply Hall; try assumption; now apply Hin.
Qed.

Lemma Match_same_platform_conjunction_witness :
  Match (Some androidRange) (pv "android" "12") = true.
Proof.
  assert (Hne : Constraints androidRange <> []) by discriminate.
  apply (proj1 (Match_same_platform_conjunction androidRange
                  (pv "android" "12") Hne)).
  split.
  - eexists. split; [left; reflexivity | reflexivity].
  - intros c [<- | [<- | []]] _; vm_compute; reflexivity.
Defined.

End filterMoreClaims.

(* ===================================================================== *)
(** * The parser of filter expressions                                    *)
(* ===================================================================== *)

Module filterParserFacts.
Import GoString truststore filterLexer filter filterParser filterParserSpec.

Lemma span_app p s : forall m r, span p s = (m, r) -> s = m ++ r.
Proof.
  induction s as [| c s IH]; intros m r H; cbn in H.
  - now injection H as <- <-.
  - destruct (p c).
    + destruct (span p s) as [m' r'] eqn:E. injection H as <- <-.
      cbn. f_equal. now apply IH.
    + now injection H as <- <-.
Qed.

Lemma literal_inv lit s m r :
  literal lit s = Some (m, r) -> m = lit /\ s = lit ++ r.
Proof.
  unfold literal. destruct (stripPrefix lit s) as [r' |] eqn:E;
    [| discriminate].
  intros [= <- <-]. split; [reflexivity |].
  now apply FingerprintFacts.stripPrefix_app.
Qed.

Lemma firstOf_inv alts s x :
  firstOf alts s = Some x -> exists alt, In alt alts /\ alt s = Some x.
Proof.
  induction alts as [| alt alts IH]; [discriminate |]. cbn.
  destruct (alt s) as [y |] eqn:E.
  - intros [= <-]. exists alt. auto.
  - intros H. destruct (IH H) as (alt' & Hin & Hs). exists alt'. auto.
Qed.

Lemma matchOperator_inv s m r :
  matchOperator s = Some (m, r) -> isOperator (str m) /\ s = m ++ r.
Proof.
  unfold matchOperator. intros H.
  apply firstOf_inv in H as (alt & Hin & Hs).
  apply in_map_iff in Hin as (lit & <- & Hlit).
  apply literal_inv in Hs as [-> ->]. split; [| reflexivity].
  unfold isOperator. cbn in Hlit.
  destruct Hlit as [<- | [<- | [<- | [<- | [<- | []]]]]]; cbn; tauto.
Qed.

Lemma isASCII_app s t : isASCII (s ++ t) <-> isASCII s /\ isASCII t.
Proof. unfold isASCII. apply Forall_app. Qed.

Lemma foldedLetter_inv letter s m r :
  foldedLetter letter s = Some (m, r) ->
  s = m ++ r /\ (isASCII s -> map lower m = [letter]).
Proof.
  unfold foldedLetter. destruct s as [| c s']; [discriminate |].
  destruct (Ascii.eqb_spec (lower c) letter) as [E | E].
  - intros [= <- <-]. split; [reflexivity |]. intros _. cbn. now rewrite E.
  - destruct (Ascii.eqb letter "s"); [| discriminate].
    intros H. apply literal_inv in H as [-> Hs]. split; [assumption |].
    intros Ha. rewrite Hs in Ha. inversion Ha as [| ? ? Hc _]; subst.
    vm_compute in Hc. discriminate.
Qed.

Lemma foldedName_inv name : forall s m r,
  foldedName name s = Some (m, r) ->
  s = m ++ r /\ (isASCII s -> map lower m = name).
Proof.
  induction name as [| letter name IH]; intros s m r H; cbn in H.
  - injection H as <- <-. auto.
  - destruct (foldedLetter letter s) as [[m1 r1] |] eqn:E1; [| discriminate].
    destruct (foldedName name r1) as [[m2 r2] |] eqn:E2; [| discriminate].
    injection H as <- <-.
    apply foldedLetter_inv in E1 as [-> H1]. apply IH in E2 as [-> H2].
    split; [now rewrite <- app_assoc |].
    intros Ha. rewrite map_app, H1 by assumption.
    apply isASCII_app in Ha as [_ Ha]. now rewrite H2.
Qed.

Lemma matchPlatform_inv s m r :
  matchPlatform s = Some (m, r) ->
  s = m ++ r /\ (isASCII s -> In (str (ToLower m)) platformNames).
Proof.
  unfold matchPlatform. intros H.
  apply firstOf_inv in H as (alt & Hin & Hs).
  apply in_map_iff in Hin as (name & <- & Hname).
  unfold boundedName in Hs.
  destruct (boundary None (head s)); [| discriminate].
  destruct (foldedName (chars name) s) as [[m' r'] |] eqn:E; [| discriminate].
  destruct (boundary (last m') (head r')); [| discriminate].
  injection Hs as <- <-. apply foldedName_inv in E as [-> Hl].
  split; [reflexivity |]. intros Ha. unfold ToLower.
  rewrite Hl by assumption. now rewrite FingerprintOpsFacts.str_chars.
Qed.

Lemma matchVersion_inv s m r :
  matchVersion s = Some (m, r) -> s = m ++ r.
Proof.
  unfold matchVersion. destruct s as [| c s']; [discriminate |].
  destruct (isDigit c).
  - intros [= <- <-]. cbn. f_equal. symmetry. apply take_drop.
  - intros H. now apply literal_inv in H as [-> ->].
Qed.

Lemma matchWhitespace_inv s m r :
  matchWhitespace s = Some (m, r) -> s = m ++ r.
Proof.
  unfold matchWhitespace.
  destruct (span (in_class spaceClass) s) as [[| c m'] r'] eqn:E;
    [discriminate |].
  intros [= <- <-]. now apply span_app in E.
Qed.

Lemma firstRule_inv s t r :
  firstRule rules s = Some (t, r) ->
  s = Value t ++ r /\ operatorOK t /\ (isASCII s -> platformOK t).
Proof.
  unfold rules, operatorOK, platformOK. cbn [firstRule].
  destruct (matchWhitespace s) as [[m r'] |] eqn:E1.
  { intros [= <- <-]. cbn. apply matchWhitespace_inv in E1.
    split_and!; [assumption | discriminate | intros _; discriminate]. }
  destruct (matchComma s) as [[m r'] |] eqn:E2.
  { intros [= <- <-]. cbn. apply literal_inv in E2 as [-> ->].
    split_and!; [reflexivity | discriminate | intros _; discriminate]. }
  destruct (matchOperator s) as [[m r'] |] eqn:E3.
  { intros [= <- <-]. cbn. apply matchOperator_inv in E3 as [Hop ->].
    split_and!; [reflexivity | auto | intros _; discriminate]. }
  destruct (matchPlatform s) as [[m r'] |] eqn:E4.
  { intros [= <- <-]. cbn [Type_ Value].
    apply matchPlatform_inv in E4 as [Hs Hp].
    split_and!; [assumption | discriminate | intros Ha _; exact (Hp Ha)]. }
  destruct (matchVersion s) as [[m r'] |] eqn:E5; [| discriminate].
  intros [= <- <-]. cbn. apply matchVersion_inv in E5.
  split_and!; [assumption | discriminate | intros _; discriminate].
Qed.

Lemma lexFuel_tokens fuel : forall s ts,
  lexFuel fuel s = Some ts ->
  Forall operatorOK ts /\ (isASCII s -> Forall platformOK ts).
Proof.
  induction fuel as [| fuel IH]; intros s ts H.
  - destruct s; [| discriminate]. injection H as <-. split; constructor.
  - destruct s as [| c s']; [injection H as <-; split; constructor |].
    cbn [lexFuel] in H.
    destruct (firstRule rules (c :: s')) as [[t r] |] eqn:E; [| discriminate].
    destruct (lexFuel fuel r) as [ts' |] eqn:E'; [| discriminate].
    injection H as <-. apply firstRule_inv in E as (Hs & Hop & Hp).
    apply IH in E' as [Hops Hps]. split.
    + now constructor.
    + intros Ha. rewrite Hs in Ha. pose proof Ha as Ha'.
      apply isASCII_app in Ha' as [_ Hr]. rewrite <- Hs in Ha.
      constructor; auto.
Qed.

Lemma elide_Forall (P : token -> Prop) ts :
  Forall P ts -> Forall P (elide ts).
Proof.
  intros H. unfold elide. apply List.Forall_forall. intros t Ht.
  apply filter_In in Ht as [Ht _].
  now apply (proj1 (List.Forall_forall P ts) H).
Qed.

Lemma isType_true r t : isType r t = true -> Type_ t = r.
Proof. unfold isType. destruct (Type_ t), r; congruence. Qed.

Lemma optional_inv (P : token -> Prop) r ts v rest :
  optional r ts = (v, rest) -> Forall P ts ->
  Forall P rest /\
  (v = [] \/ exists t, P t /\ Type_ t = r /\ v = Value t) /\
  (length rest <= length ts)%nat.
Proof.
  unfold optional. destruct ts as [| t ts'].
  - intros [= <- <-] _. split_and!; [constructor | now left | lia].
  - destruct (isType r t) eqn:E.
    + intros [= <- <-] HF. inversion HF; subst.
      split_and!; [assumption | | cbn; lia].
      right. exists t. split_and!; [assumption | | reflexivity].
      now apply isType_true.
    + intros [= <- <-] HF. split_and!; [assumption | now left | lia].
Qed.

Lemma parseConstraintExpr_inv (P : token -> Prop) ts c rest :
  parseConstraintExpr ts = Some (c, rest) -> Forall P ts ->
  exprFrom P c /\ Forall P rest /\ (length rest < length ts)%nat.
Proof.
  unfold parseConstraintExpr. destruct ts as [| t ts1]; [discriminate |].
  destruct (isType filterLexer.Platform t) eqn:Et; [| discriminate].
  destruct (optional filterLexer.Operator ts1) as [op ts2] eqn:E1.
  destruct (optional filterLexer.Version ts2) as [ver ts3] eqn:E2.
  intros [= <- <-] HF. inversion HF as [| ? ? Ht HF1]; subst.
  destruct (optional_inv P _ _ _ _ E1 HF1) as (HF2 & Hop & Hl2).
  destruct (optional_inv P _ _ _ _ E2 HF2) as (HF3 & _ & Hl3).
  split_and!; [| assumption | cbn; lia].
  split; cbn.
  - exists t. split_and!; [assumption | now apply isType_true | reflexivity].
  - exact Hop.
Qed.

Lemma parseMore_inv (P : token -> Prop) fuel : forall ts cs,
  parseMore fuel ts = Some cs -> Forall P ts -> Forall (exprFrom P) cs.
Proof.
  induction fuel as [| fuel IH]; intros ts cs H HF.
  - destruct ts; [| discriminate]. injection H as <-. constructor.
  - destruct ts as [| t ts']; [injection H as <-; constructor |].
    cbn [parseMore] in H. destruct (isType filterLexer.Comma t); [| discriminate].
    destruct (parseConstraintExpr ts') as [[c rest] |] eqn:E;
      [| discriminate].
    destruct (parseMore fuel rest) as [cs' |] eqn:E'; [| discriminate].
    injection H as <-. inversion HF; subst.
    destruct (parseConstraintExpr_inv P _ _ _ E) as (Hc & Hrest & _);
      [assumption |].
    constructor; [assumption |]. now apply (IH rest).
Qed.

Lemma parseFilterExpr_inv (P : token -> Prop) ts cs :
  parseFilterExpr ts = Some cs -> Forall P ts ->
  cs <> [] /\ Forall (exprFrom P) cs.
Proof.
  unfold parseFilterExpr.
  destruct (parseConstraintExpr ts) as [[c rest] |] eqn:E; [| discriminate].
  destruct (parseMore (length rest) rest) as [cs' |] eqn:E'; [| discriminate].
  intros [= <-] HF. split; [discriminate |].
  destruct (parseConstraintExpr_inv P _ _ _ E HF) as (Hc & Hrest & _).
  constructor; [assumption |]. now apply (parseMore_inv P _ _ _ E').
Qed.

Section WithSemver.
Context {L : Semver.Lib}.

Lemma isEmpty_true s : isEmpty s = true <-> s = [].
Proof. destruct s; cbn; split; congruence. Qed.

Lemma convertConstraint_inv (P : token -> Prop) c k :
  (forall t, P t -> operatorOK t) ->
  convertConstraint c = inl k -> exprFrom P c ->
  parsedConstraint k /\ Platform k = str (ToLower (ExprPlatform c)).
Proof.
  intros HP Hk [_ Hop]. unfold convertConstraint in Hk.
  assert (Hop' : ExprOperator c <> [] -> isOperator (str (ExprOperator c))).
  { intros Hne. destruct Hop as [E | (t & Ht & Hty & ->)]; [congruence |].
    now apply (HP t Ht). }
  destruct (isEmpty (ExprOperator c)) eqn:Eo.
  - destruct (isEmpty (ExprVersion c)); [| discriminate]. cbn in Hk.
    injection Hk as <-. split; [| reflexivity]. left. reflexivity.
  - cbn in Hk. destruct (isEmpty (ExprVersion c)); [discriminate |].
    assert (Hne : ExprOperator c <> []).
    { intros E. apply isEmpty_true in E. congruence. }
    destruct (String.eqb (str (ExprVersion c)) "current").
    + injection Hk as <-. split; [| reflexivity]. right; left. cbn. auto.
    + destruct (Semver.NewVersion (str (ExprVersion c))) as [ver |] eqn:Ev;
        [| discriminate].
      injection Hk as <-. split; [| reflexivity]. right; right. cbn.
      split_and!; [auto | reflexivity |]. eauto.
Qed.

Lemma convertAll_inv (P : token -> Prop) cs : forall ks,
  (forall t, P t -> operatorOK t) ->
  convertAll cs = inl ks -> Forall (exprFrom P) cs ->
  length ks = length cs /\
  Forall parsedConstraint ks /\
  Forall2 (fun k c => Platform k = str (ToLower (ExprPlatform c))) ks cs.
Proof.
  induction cs as [| c cs IH]; intros ks HP H HF; cbn in H.
  - injection H as <-. split_and!; constructor.
  - destruct (convertConstraint c) as [k | e] eqn:Ek; [| discriminate].
    destruct (convertAll cs) as [ks' | e] eqn:Eks; [| discriminate].
    injection H as <-. inversion HF as [| ? ? Hc HF']; subst.
    destruct (IH ks' HP eq_refl HF') as (Hl & Hp & Hpl).
    destruct (convertConstraint_inv P c k HP Ek Hc) as [Hk Hkp].
    split_and!; [cbn; lia | now constructor | now constructor].
Qed.

Lemma Parse_inv expr f :
  Parse expr = inl f ->
  exists ts cs,
    TrimSpace (chars expr) <> [] /\
    lex (TrimSpace (chars expr)) = Some ts /\
    parseFilterExpr (elide ts) = Some cs /\
    convertAll cs = inl (Constraints f).
Proof.
  unfold Parse, ParseString.
  destruct (isEmpty (TrimSpace (chars expr))) eqn:Ee; [discriminate |].
  destruct (lex (TrimSpace (chars expr))) as [ts |] eqn:El; [| discriminate].
  destruct (parseFilterExpr (elide ts)) as [cs |] eqn:Ep; [| discriminate].
  destruct (convertAll cs) as [ks | e] eqn:Ec; [| discriminate].
  intros [= <-]. exists ts, cs. split_and!; try reflexivity; try assumption.
  intros E. apply isEmpty_true in E. congruence.
Qed.

Lemma Parse_shape expr f :
  Parse expr = inl f ->
  Constraints f <> [] /\ Forall parsedConstraint (Constraints f).
Proof.
  intros H. destruct (Parse_inv expr f H) as (ts & cs & _ & El & Ep & Ec).
  destruct (lexFuel_tokens _ _ _ El) as [Hops _].
  destruct (parseFilterExpr_inv operatorOK _ _ Ep (elide_Forall _ _ Hops))
    as [Hne HF].
  destruct (convertAll_inv operatorOK cs _ (fun t Ht => Ht) Ec HF)
    as (Hl & Hp & _).
  split; [| assumption]. intros E. rewrite E in Hl.
  destruct cs; [congruence | discriminate].
Qed.

Lemma matchConstraint_bare p ver : matchConstraint (bare p) ver = true.
Proof. reflexivity. Qed.

End WithSemver.

Lemma lower_cases : forall c l,
  isLower l = true -> lower c = l -> c = l \/ c = upper l.
Proof.
  assert (H : forall c l,
            implb (isLower l && Ascii.eqb (lower c) l)
                  (Ascii.eqb c l || Ascii.eqb c (upper l)) = true).
  { apply FingerprintFacts.ascii_forall2. vm_compute. reflexivity. }
  intros c l Hl E. specialize (H c l). rewrite Hl in H.
  rewrite (proj2 (Ascii.eqb_eq _ _) E) in H. cbn in H.
  apply orb_true_iff in H as [H | H]; apply Ascii.eqb_eq in H; auto.
Qed.

Lemma casings_complete name : forall s,
  forallb isLower name = true -> map lower s = name -> In s (casings name).
Proof.
  induction name as [| l name IH]; intros s Hl E.
  - destruct s; [now left | discriminate].
  - destruct s as [| c s]; [discriminate |]. cbn in E, Hl.
    injection E as Ec Es. apply andb_true_iff in Hl as [Hl Hn].
    cbn [casings]. apply in_flat_map. exists s. split; [now apply IH |].
    destruct (lower_cases c l Hl Ec) as [-> | ->]; cbn; auto.
Qed.

End filterParserFacts.

Module filterParserClaims.
Import GoString truststore filterLexer filter filterParser filterParserSpec
       filterMoreFacts filterParserFacts Samples.

Example parse_ios_ge_15 :
  Parse (L := Semver.specLib) "ios>=15" =
  inl {| Constraints := [numeric ">=" "ios" [15]] |}.
Proof. vm_compute. reflexivity. Qed.

Example parse_mixed_bare_and_constraint :
  Parse (L := Semver.specLib) "ios,android>=10" =
  inl {| Constraints := [bare "ios"; numeric ">=" "android" [10]] |}.
Proof. vm_compute. reflexivity. Qed.

Example parse_windows_current :
  Parse (L := Semver.specLib) "windows=current" =
  inl {| Constraints :=
           [{| Platform := "windows"; Operator_ := "="; Version := None;
               IsCurrent := true |}] |}.
Proof. vm_compute. reflexivity. Qed.

Example parse_spaces_between_tokens :
  Parse (L := Semver.specLib) " ios >= 15 , android " =
  inl {| Constraints := [numeric ">=" "ios" [15]; bare "android"] |}.
Proof. vm_compute. reflexivity. Qed.

Example parse_unknown_platform :
  Parse (L := Semver.specLib) "linux>=10" = inr ErrInvalidFilter.
Proof. vm_compute. reflexivity. Qed.

Example parse_invalid_operator :
  Parse (L := Semver.specLib) "ios>>15" = inr ErrInvalidFilter.
Proof. vm_compute. reflexivity. Qed.

Example parse_missing_version :
  Parse (L := Semver.specLib) "ios>=" =
  inr (ErrMissingVersion (chars "ios") (chars ">=")).
Proof. vm_compute. reflexivity. Qed.

Example parse_missing_operator :
  Parse (L := Semver.specLib) "ios 17" = inr (ErrMissingOperator (chars "ios")).
Proof. vm_compute. reflexivity. Qed.

(** Under [(?i)] the long s (U+017F) is read as an [s], and lower-casing
    leaves it: the platform of the constraint is none of the nine. *)
Example parse_long_s :
  Parse (L := Semver.specLib) (str (chars "vi" ++ longS ++ chars "ionos")) =
  inl {| Constraints := [bare (str (chars "vi" ++ longS ++ chars "ionos"))] |}.
Proof. vm_compute. reflexivity. Qed.

(** X14: [Parse] fails with "empty filter expression" exactly when the
    expression is empty after [strings.TrimSpace].  A filter that it
    returns has at least one constraint, and each constraint is a bare
    platform (operator [>=], no version), or one of the five operators
    with the sentinel, or one of the five operators with a version that
    the version library parsed; never both a version and the sentinel.
    So a filter that [Parse] returns matches no platform version whose
    platform it does not name. *)
Theorem Parse_result_shape {L : Semver.Lib} (expr : string) :
  (Parse expr = inr ErrEmptyExpression <-> TrimSpace (chars expr) = []) /\
  (forall f, Parse expr = inl f ->
     Constraints f <> [] /\
     Forall parsedConstraint (Constraints f) /\
     forall pv, Match (Some f) pv = true ->
       exists c, In c (Constraints f) /\
                 Platform c = PlatformVersion.Platform pv).
Proof.
  split.
  - unfold Parse. split.
    + destruct (isEmpty (TrimSpace (chars expr))) eqn:Ee;
        [intros _; now apply isEmpty_true |].
      destruct (ParseString (TrimSpace (chars expr))) as [ast |];
        [| discriminate].
      assert (Hno : forall cs, convertAll cs <> inr ErrEmptyExpression).
      { induction cs as [| c cs IH]; cbn; [discriminate |].
        unfold convertConstraint.
        destruct (isEmpty (ExprOperator c) && isEmpty (ExprVersion c)).
        - destruct (convertAll cs) as [ks | e]; [discriminate | congruence].
        - destruct (isEmpty (ExprOperator c)); [discriminate |].
          destruct (isEmpty (ExprVersion c)); [discriminate |].
          destruct (String.eqb (str (ExprVersion c)) "current").
          + destruct (convertAll cs) as [ks | e]; [discriminate | congruence].
          + destruct (Semver.NewVersion (str (ExprVersion c)));
              [| discriminate].
            destruct (convertAll cs) as [ks | e]; [discriminate | congruence]. }
      specialize (Hno ast). destruct (convertAll ast); [discriminate |].
      congruence.
    + intros E. now rewrite E.
  - intros f Hf. destruct (Parse_shape expr f Hf) as [Hne Hsh].
    split_and!; try assumption.
    intros pv Hm. now apply (Match_iff f pv Hne) in Hm as [Hex _].
Qed.

Lemma Parse_result_shape_witness :
  exists c, In c [numeric ">=" "ios" [15]; bare "android"] /\
            Platform c = "android".
Proof.
  destruct (Parse_result_shape (L := Semver.specLib) " ios >= 15 , android ")
    as [_ Hf].
  destruct (Hf {| Constraints := [numeric ">=" "ios" [15]; bare "android"] |})
    as (_ & _ & Hm); [vm_compute; reflexivity |].
  apply (Hm (pv "android" "14")). vm_compute. reflexivity.
Defined.

(** X15: in a filter that [Parse] returns for an expression of ASCII
    characters, the platform of every constraint is one of the nine
    platform names, in lower case, however the expression spells it. *)
Theorem Parse_platform_names {L : Semver.Lib} (expr : string) (f : Filter) :
  isASCII (chars expr) ->
  Parse expr = inl f ->
  Forall (fun c => In (Platform c) platformNames) (Constraints f).
Proof.
  intros Ha Hf.
  destruct (Parse_inv expr f Hf) as (ts & cs & _ & El & Ep & Ec).
  assert (Hat : isASCII (TrimSpace (chars expr))).
  { destruct (FingerprintFacts.TrimSpace_decompose (chars expr))
      as (p & q & Hs & _).
    rewrite Hs in Ha. apply isASCII_app in Ha as [_ Ha].
    now apply isASCII_app in Ha as [Ha _]. }
  destruct (lexFuel_tokens _ _ _ El) as [Hops Hps]. specialize (Hps Hat).
  set (P := fun t => operatorOK t /\ platformOK t).
  assert (HP : Forall P ts).
  { apply List.Forall_forall. intros t Ht. split.
    - now apply (proj1 (List.Forall_forall _ _) Hops).
    - now apply (proj1 (List.Forall_forall _ _) Hps). }
  destruct (parseFilterExpr_inv P _ _ Ep (elide_Forall _ _ HP)) as [_ HF].
  destruct (convertAll_inv P cs _ (fun t Ht => proj1 Ht) Ec HF)
    as (_ & _ & H2).
  clear -H2 HF. induction H2 as [| k c ks cs' Hk _ IH]; [constructor |].
  inversion HF as [| ? ? Hc HF']; subst. constructor; [| now apply IH].
  destruct Hc as [(t & [_ Ht] & Hty & Hv) _]. rewrite Hk, Hv.
  now apply Ht.
Qed.

Lemma Parse_platform_names_witness :
  Forall (fun c => In (Platform c) platformNames)
         [numeric ">=" "ios" [17; 4]; bare "android"].
Proof.
  apply (Parse_platform_names (L := Semver.specLib) "iOS>=17.4,Android"
           {| Constraints := [numeric ">=" "ios" [17; 4]; bare "android"] |}).
  - unfold isASCII. apply List.Forall_forall. intros c Hc.
    cbn in Hc. repeat (destruct Hc as [<- | Hc]; [vm_compute; reflexivity |]).
    destruct Hc.
  - vm_compute. reflexivity.
Defined.

(** X16: the platform names are not case-sensitive: an expression that
    spells one of the nine platform names with letters of either case
    parses to the bare constraint of the lower-case name; that filter
    matches exactly the platform versions of that platform, whatever
    their version, and [FilterStores] with it keeps exactly the stores
    of that platform. *)
Theorem Parse_bare_platform_any_case {L : Semver.Lib} (name s : string) :
  In name platformNames ->
  map lower (chars s) = chars name ->
  Parse s = inl {| Constraints := [bare name] |} /\
  (forall pv, Match (Some {| Constraints := [bare name] |}) pv = true <->
              PlatformVersion.Platform pv = name) /\
  (forall stores,
     FilterStores stores (Some {| Constraints := [bare name] |}) =
     List.filter (fun st => String.eqb (Store.Platform st) name) stores).
Proof.
  intros Hname Hs.
  assert (Hm : forall pv,
            Match (Some {| Constraints := [bare name] |}) pv = true <->
            PlatformVersion.Platform pv = name).
  { intros pv. rewrite Match_iff by discriminate. cbn [Constraints]. split.
    - intros ((c & [<- | []] & Hp) & _). now rewrite <- Hp.
    - intros Hp. split.
      + exists (bare name). split; [now left | now rewrite Hp].
      + intros c [<- | []] _. apply matchConstraint_bare. }
  split_and!; [| exact Hm |].
  - assert (Hall : forallb (fun t => isBareResult name (Parse (str t)))
                     (casings (chars name)) = true).
    { cbn in Hname.
      repeat (destruct Hname as [<- | Hname];
              [vm_compute; reflexivity |]).
      destruct Hname. }
    assert (Hlow : forallb isLower (chars name) = true).
    { cbn in Hname.
      repeat (destruct Hname as [<- | Hname];
              [vm_compute; reflexivity |]).
      destruct Hname. }
    rewrite forallb_forall in Hall.
    specialize (Hall (chars s) (casings_complete _ _ Hlow Hs)).
    rewrite FingerprintOpsFacts.str_chars in Hall.
    unfold isBareResult in Hall.
    destruct (Parse s) as [f | e]; [| discriminate].
    destruct f as [[| c [| c' cs]]]; cbn in Hall; try discriminate.
    destruct c as [p op [v |] cur]; cbn in Hall;
      [now rewrite andb_false_r in Hall |].
    rewrite andb_true_r in Hall.
    apply andb_true_iff in Hall as [Hall Hcur].
    apply andb_true_iff in Hall as [Hp Hop].
    apply String.eqb_eq in Hp, Hop. apply negb_true_iff in Hcur.
    subst. reflexivity.
  - intros stores. unfold FilterStores. apply List.filter_ext. intros st.
    apply eq_true_iff_eq. rewrite Hm. cbn. now rewrite String.eqb_eq.
Qed.

Lemma Parse_bare_platform_any_case_witness :
  Parse (L := Semver.specLib) "iPadOS" = inl {| Constraints := [bare "ipados"] |}.
Proof.
  apply (Parse_bare_platform_any_case (L := Semver.specLib) "ipados" "iPadOS").
  - cbn. tauto.
  - reflexivity.
Defined.

End filterParserClaims.

(* ===================================================================== *)
(** * Embedded SCTs and the certificate chain                             *)
(* ===================================================================== *)

Module fetcherChainFacts.
Import GoString Fingerprint truststore fetcher fetcherFacts fetcherChain
       fetcherChainSpec.

Lemma BigEndianUint16_uint16Bytes n rest :
  Z.of_nat n < 65536 ->
  Z.to_nat (BigEndianUint16 (uint16Bytes n ++ rest)) = n.
Proof.
  intros Hn. unfold uint16Bytes, BigEndianUint16. cbn [app].
  rewrite (lor_disjoint_add 8).
  - rewrite Z.shiftl_mul_pow2 by lia.
    change (2 ^ 8) with 256.
    pose proof (Z.div_mod (Z.of_nat n) 256 ltac:(lia)). lia.
  - lia.
  - change (2 ^ 8) with 256. apply Z.mod_pos_bound. lia.
  - rewrite Z.shiftl_mul_pow2 by lia. apply Z.mod_mul. lia.
Qed.

Lemma slice_middle (pre x rest : list Z) :
  slice (pre ++ x ++ rest) (length pre) (length pre + length x) = x.
Proof.
  unfold slice. rewrite drop_app_length.
  replace (length pre + length x - length pre)%nat with (length x) by lia.
  apply take_app_length.
Qed.

Lemma length_uint16Bytes n : length (uint16Bytes n) = 2%nat.
Proof. reflexivity. Qed.

Lemma length_encodeEntries_cons e es :
  length (encodeEntries (e :: es)) =
  (2 + length e + length (encodeEntries es))%nat.
Proof.
  unfold encodeEntries, encodeEntry. cbn [map concat].
  rewrite !length_app, length_uint16Bytes. lia.
Qed.

Lemma appendParsed_app scts data source :
  appendParsed scts data source = scts ++ appendParsed [] data source.
Proof.
  unfold appendParsed. destruct (parseSCT data source); cbn;
    [reflexivity | now rewrite app_nil_r].
Qed.

Lemma parsedEntries_cons source e es :
  parsedEntries source (e :: es) =
  match parseSCT e source with
  | inl sct => sct :: parsedEntries source es
  | inr _ => parsedEntries source es
  end.
Proof.
  unfold parsedEntries. cbn. now destruct (parseSCT e source).
Qed.

(** The loop does not depend on the fuel, once there is enough. *)
Lemma sctLoop_enough b listLen : forall fuel fuel' offset scts,
  (length b <= offset + fuel)%nat -> (length b <= offset + fuel')%nat ->
  sctLoop fuel b listLen offset scts = sctLoop fuel' b listLen offset scts.
Proof.
  assert (Hstop : forall fuel offset scts,
            (length b <= offset)%nat ->
            sctLoop fuel b listLen offset scts = scts).
  { intros [| fuel] offset scts Hl; [reflexivity |]. cbn [sctLoop].
    destruct (offset <? _)%nat; [| reflexivity].
    destruct (Nat.ltb_spec (length b) (offset + sctLengthPrefixSize));
      [reflexivity |].
    unfold sctLengthPrefixSize in *. lia. }
  induction fuel as [| fuel IH]; intros fuel' offset scts H1 H2.
  - rewrite !Hstop by lia. reflexivity.
  - destruct fuel' as [| fuel'].
    + rewrite !Hstop by lia. reflexivity.
    + cbn [sctLoop]. destruct (offset <? _)%nat; [| reflexivity].
      destruct (length b <? offset + sctLengthPrefixSize)%nat;
        [reflexivity |].
      destruct (length b <? _)%nat; [reflexivity |].
      apply IH; unfold sctLengthPrefixSize; lia.
Qed.

(** The loop accumulates. *)
Lemma sctLoop_app b listLen : forall fuel offset scts,
  sctLoop fuel b listLen offset scts =
  scts ++ sctLoop fuel b listLen offset [].
Proof.
  induction fuel as [| fuel IH]; intros offset scts; cbn [sctLoop].
  - now rewrite app_nil_r.
  - destruct (offset <? _)%nat; [| now rewrite app_nil_r].
    destruct (length b <? offset + sctLengthPrefixSize)%nat;
      [now rewrite app_nil_r |].
    destruct (length b <? _)%nat; [now rewrite app_nil_r |].
    rewrite IH, (IH _ (appendParsed [] _ _)), appendParsed_app.
    now rewrite <- app_assoc.
Qed.

(** Every SCT that the loop adds is the result of [parseSCT] with the
    source [SCTSourceEmbedded]. *)
Lemma sctLoop_embedded (P : SCT.t -> Prop) b listLen :
  (forall data sct, parseSCT data SCTSourceEmbedded = inl sct -> P sct) ->
  forall fuel offset scts,
    Forall P scts -> Forall P (sctLoop fuel b listLen offset scts).
Proof.
  intros HP. induction fuel as [| fuel IH]; intros offset scts HF;
    cbn [sctLoop]; [assumption |].
  destruct (offset <? _)%nat; [| assumption].
  destruct (length b <? offset + sctLengthPrefixSize)%nat; [assumption |].
  destruct (length b <? _)%nat; [assumption |].
  apply IH. unfold appendParsed.
  destruct (parseSCT _ SCTSourceEmbedded) as [sct | e] eqn:E; [| assumption].
  apply Forall_app. split; [assumption |]. repeat constructor.
  now apply (HP _ _ E).
Qed.

Lemma sctLoop_entries es : forall fuel pre tail listLen scts,
  Forall (fun e => Z.of_nat (length e) < 65536) es ->
  (length pre + length (encodeEntries es) <= 2 + listLen)%nat ->
  stops (2 + listLen) (length pre + length (encodeEntries es)) tail ->
  (length (encodeEntries es ++ tail) <= fuel)%nat ->
  sctLoop fuel (pre ++ encodeEntries es ++ tail) listLen (length pre) scts =
  scts ++ parsedEntries SCTSourceEmbedded es.
Proof.
  induction es as [| e es IH]; intros fuel pre tail listLen scts HF Hl Hs Hf.
  - cbn [encodeEntries map concat app parsedEntries omap length] in *.
    rewrite app_nil_r.
    destruct fuel as [| fuel]; [reflexivity |]. cbn [sctLoop].
    unfold sctLengthPrefixSize.
    destruct (Nat.ltb_spec (length pre) (2 + listLen)) as [Hlt | Hge];
      [| reflexivity].
    rewrite length_app.
    destruct (Nat.ltb_spec (length pre + length tail) (length pre + 2))
      as [Hlt2 | Hge2]; [reflexivity |].
    destruct Hs as [Hs | [Hs | (n & d & Hn & -> & Hd)]]; [lia | lia |].
    replace (length pre + 2)%nat
      with (length pre + length (uint16Bytes n))%nat by reflexivity.
    rewrite slice_middle, <- (app_nil_r (uint16Bytes n)).
    rewrite BigEndianUint16_uint16Bytes by assumption.
    rewrite app_nil_r.
    destruct (Nat.ltb_spec
                (length pre + length (uint16Bytes n ++ d))
                (length pre + length (uint16Bytes n) + n)) as [_ | Hc];
      [reflexivity |].
    rewrite length_app, length_uint16Bytes in Hc. lia.
  - inversion HF as [| ? ? He HF']; subst.
    rewrite length_encodeEntries_cons in Hl, Hs.
    assert (Hlen : length (encodeEntries (e :: es) ++ tail) =
                   (2 + length e + length (encodeEntries es ++ tail))%nat).
    { rewrite !length_app, length_encodeEntries_cons. lia. }
    destruct fuel as [| fuel]; [lia |]. cbn [sctLoop].
    unfold sctLengthPrefixSize.
    destruct (Nat.ltb_spec (length pre) (2 + listLen)) as [_ | Hge]; [| lia].
    assert (Eb : pre ++ encodeEntries (e :: es) ++ tail =
                 pre ++ uint16Bytes (length e) ++
                 (e ++ encodeEntries es ++ tail)).
    { unfold encodeEntries, encodeEntry. cbn [map concat].
      now rewrite <- !app_assoc. }
    rewrite Eb.
    destruct (Nat.ltb_spec
                (length (pre ++ uint16Bytes (length e) ++
                         e ++ encodeEntries es ++ tail))
                (length pre + 2)) as [Hc | _].
    { rewrite !length_app, length_uint16Bytes in Hc. lia. }
    replace (length pre + 2)%nat
      with (length pre + length (uint16Bytes (length e)))%nat by reflexivity.
    rewrite slice_middle, <- (app_nil_r (uint16Bytes (length e))).
    rewrite BigEndianUint16_uint16Bytes by assumption.
    rewrite app_nil_r.
    destruct (Nat.ltb_spec
                (length (pre ++ uint16Bytes (length e) ++
                         e ++ encodeEntries es ++ tail))
                (length pre + length (uint16Bytes (length e)) + length e))
      as [Hc | _].
    { rewrite !length_app, length_uint16Bytes in Hc. lia. }
    assert (Eb2 : pre ++ uint16Bytes (length e) ++
                  e ++ encodeEntries es ++ tail =
                  (pre ++ uint16Bytes (length e)) ++
                  e ++ encodeEntries es ++ tail)
      by now rewrite <- app_assoc.
    rewrite Eb2 at 2.
    replace (length pre + length (uint16Bytes (length e)))%nat
      with (length (pre ++ uint16Bytes (length e)))
      by (now rewrite length_app).
    rewrite slice_middle.
    assert (Eb3 : pre ++ uint16Bytes (length e) ++
                  e ++ encodeEntries es ++ tail =
                  (pre ++ uint16Bytes (length e) ++ e) ++
                  encodeEntries es ++ tail)
      by now rewrite <- !app_assoc.
    rewrite Eb3.
    replace (length (pre ++ uint16Bytes (length e)) + length e)%nat
      with (length (pre ++ uint16Bytes (length e) ++ e))
      by (rewrite !length_app; lia).
    assert (Hpre : length (pre ++ uint16Bytes (length e) ++ e) =
                   (length pre + 2 + length e)%nat).
    { rewrite !length_app, length_uint16Bytes. lia. }
    rewrite IH; try assumption.
    + rewrite parsedEntries_cons. unfold appendParsed.
      destruct (parseSCT e SCTSourceEmbedded);
        [now rewrite <- app_assoc | reflexivity].
    + rewrite Hpre. lia.
    + rewrite Hpre.
      replace (length pre + 2 + length e + length (encodeEntries es))%nat
        with (length pre + (2 + length e + length (encodeEntries es)))%nat
        by lia.
      exact Hs.
    + lia.
Qed.

Section WithASN1.
Variable Unmarshal : list Z -> option (list Z).

Lemma extractFromExtension_app scts ext :
  extractFromExtension Unmarshal scts ext =
  scts ++ extractFromExtension Unmarshal [] ext.
Proof.
  unfold extractFromExtension.
  destruct (negb _); [now rewrite app_nil_r |].
  destruct (Unmarshal (Value ext)) as [b |]; [| now rewrite app_nil_r].
  destruct (length b <? sctLengthPrefixSize)%nat; [now rewrite app_nil_r |].
  destruct (length b <? _)%nat; [now rewrite app_nil_r |].
  apply sctLoop_app.
Qed.

Lemma extract_foldl exts : forall scts,
  foldl (extractFromExtension Unmarshal) scts exts =
  scts ++ foldl (extractFromExtension Unmarshal) [] exts.
Proof.
  induction exts as [| ext exts IH]; intros scts; cbn [foldl].
  - now rewrite app_nil_r.
  - rewrite IH, (IH (extractFromExtension Unmarshal [] ext)).
    rewrite (extractFromExtension_app scts). now rewrite <- app_assoc.
Qed.

Lemma extractFromExtension_Forall (P : SCT.t -> Prop) scts ext :
  (forall data sct, parseSCT data SCTSourceEmbedded = inl sct -> P sct) ->
  Forall P scts -> Forall P (extractFromExtension Unmarshal scts ext).
Proof.
  intros HP HF. unfold extractFromExtension.
  destruct (negb _); [assumption |].
  destruct (Unmarshal (Value ext)) as [b |]; [| assumption].
  destruct (length b <? sctLengthPrefixSize)%nat; [assumption |].
  destruct (length b <? _)%nat; [assumption |].
  now apply sctLoop_embedded.
Qed.

(** One SCT list extension whose octets are a list length, well-formed
    entries, and a tail that stops the loop. *)
Lemma extractFromExtension_entries v es tail listLen :
  Unmarshal v = Some (uint16Bytes listLen ++ encodeEntries es ++ tail) ->
  Z.of_nat listLen < 65536 ->
  Forall (fun e => Z.of_nat (length e) < 65536) es ->
  (length (encodeEntries es) <= listLen)%nat ->
  (listLen <= length (encodeEntries es ++ tail))%nat ->
  stops (2 + listLen) (2 + length (encodeEntries es)) tail ->
  extractFromExtension Unmarshal [] {| Id := oidSCTList; Value := v |} =
  parsedEntries SCTSourceEmbedded es.
Proof.
  intros Hv Hll HF Hle Hge Hs. unfold extractFromExtension. cbn [Id Value].
  rewrite bool_decide_eq_true_2 by reflexivity. cbn [negb]. rewrite Hv.
  set (b := uint16Bytes listLen ++ encodeEntries es ++ tail).
  assert (Hb : length b = (2 + length (encodeEntries es ++ tail))%nat).
  { unfold b. now rewrite length_app, length_uint16Bytes. }
  unfold sctLengthPrefixSize.
  destruct (Nat.ltb_spec (length b) 2) as [Hc | _]; [lia |].
  assert (Es : slice b 0 2 = uint16Bytes listLen).
  { unfold slice, b. cbn. reflexivity. }
  rewrite Es, <- (app_nil_r (uint16Bytes listLen)).
  rewrite BigEndianUint16_uint16Bytes by assumption.
  destruct (Nat.ltb_spec (length b) (2 + listLen)) as [Hc | _]; [lia |].
  pose proof (sctLoop_entries es (length b) (uint16Bytes listLen) tail
                listLen [] HF) as Hloop.
  rewrite !length_uint16Bytes in Hloop. apply Hloop; [lia | assumption | lia].
Qed.

End WithASN1.

Lemma lastIndex_None c s :
  lastIndex c s = None <-> ~ In c s.
Proof.
  induction s as [| x s IH]; cbn; [tauto |].
  destruct (lastIndex c s) as [i |].
  - split; [discriminate |]. intros Hn. exfalso. apply Hn. right.
    destruct (in_dec ascii_dec c s) as [Hin | Hin]; [assumption |].
    now apply IH in Hin.
  - destruct (Ascii.eqb_spec x c) as [-> | Hne].
    + split; [discriminate | intros Hn; destruct Hn; now left].
    + split; [| reflexivity]. intros _ [E | Hin]; [congruence |].
      now apply (proj1 IH).
Qed.

Lemma lastIndex_Some c s i :
  lastIndex c s = Some i ->
  exists rest, s = take i s ++ c :: rest /\ ~ In c rest /\
               length (take i s) = i.
Proof.
  revert i. induction s as [| x s IH]; intros i; cbn; [discriminate |].
  destruct (lastIndex c s) as [j |] eqn:E.
  - intros [= <-]. destruct (IH j eq_refl) as (rest & Hs & Hn & Hl).
    exists rest. cbn. split_and!; [now rewrite <- Hs | assumption | now rewrite Hl].
  - destruct (Ascii.eqb_spec x c) as [-> | Hne]; [| discriminate].
    intros [= <-]. exists s. cbn. split_and!; [reflexivity | | reflexivity].
    now apply lastIndex_None.
Qed.

End fetcherChainFacts.

Module fetcherChainClaims.
Import GoString Fingerprint truststore fetcher fetcherFacts fetcherChain
       fetcherChainSpec fetcherChainFacts Samples.

(** X17: [extractEmbeddedSCTs] decodes the SCT list of RFC 6962.  When
    the octets of the extension are a two-byte list length followed by
    entries that each carry a two-byte length, the result holds the SCTs
    of the entries that [parseSCT] accepts, in order, with the entries
    it rejects left out; bytes after the list are ignored.  When the
    last entry is cut short (its length goes past the end of the
    octets), the entries before it are still returned. *)
Theorem extractEmbeddedSCTs_decodes_list
  (Unmarshal : list Z -> option (list Z)) (v : list Z)
  (es : list (list Z)) :
  Forall (fun e => Z.of_nat (length e) < 65536) es ->
  (forall junk,
     Z.of_nat (length (encodeEntries es)) < 65536 ->
     Unmarshal v = Some (encodeList es ++ junk) ->
     extractEmbeddedSCTs Unmarshal
       (Some [{| Id := oidSCTList; Value := v |}]) =
     parsedEntries SCTSourceEmbedded es) /\
  (forall n d,
     Z.of_nat n < 65536 -> (length d < n)%nat ->
     Z.of_nat (length (encodeEntries es ++ uint16Bytes n ++ d)) < 65536 ->
     Unmarshal v =
       Some (uint16Bytes (length (encodeEntries es ++ uint16Bytes n ++ d))
             ++ encodeEntries es ++ uint16Bytes n ++ d) ->
     extractEmbeddedSCTs Unmarshal
       (Some [{| Id := oidSCTList; Value := v |}]) =
     parsedEntries SCTSourceEmbedded es).
Proof.
  intros HF. split.
  - intros junk Hlen Hv. cbn [extractEmbeddedSCTs foldl].
    unfold encodeList in Hv. rewrite <- app_assoc in Hv.
    apply (extractFromExtension_entries Unmarshal v es junk
             (length (encodeEntries es))); try assumption.
    + lia.
    + rewrite length_app. lia.
    + now left.
  - intros n d Hn Hd Hlen Hv. cbn [extractEmbeddedSCTs foldl].
    apply (extractFromExtension_entries Unmarshal v es (uint16Bytes n ++ d)
             (length (encodeEntries es ++ uint16Bytes n ++ d)));
      try assumption.
    + rewrite length_app. lia.
    + lia.
    + right; right. exists n, d. auto.
Qed.

Lemma extractEmbeddedSCTs_decodes_list_witness :
  extractEmbeddedSCTs sampleUnmarshal
    (Some [{| Id := oidSCTList;
              Value := 4 :: 60 :: encodeList [validSCT; [1; 2; 3]] ++ [7] |}]) =
  parsedEntries SCTSourceEmbedded [validSCT; [1; 2; 3]].
Proof.
  apply (proj1 (extractEmbeddedSCTs_decodes_list sampleUnmarshal
                  (4 :: 60 :: encodeList [validSCT; [1; 2; 3]] ++ [7])
                  [validSCT; [1; 2; 3]]
                  ltac:(repeat constructor)) [7]).
  - vm_compute. reflexivity.
  - vm_compute. reflexivity.
Defined.

(** X18: [extractEmbeddedSCTs] gives nothing for a nil certificate; the
    SCTs of a list of extensions are those of its parts, in order; every
    SCT returned has the source [SCTSourceEmbedded] and a log id of 32
    bytes; and an extension contributes nothing when it has another
    identifier, when its value does not unmarshal, or when its octets
    are fewer than the two bytes of the list length plus the length
    they announce. *)
Theorem extractEmbeddedSCTs_extensions
  (Unmarshal : list Z -> option (list Z)) :
  extractEmbeddedSCTs Unmarshal None = [] /\
  (forall exts1 exts2,
     extractEmbeddedSCTs Unmarshal (Some (exts1 ++ exts2)) =
     extractEmbeddedSCTs Unmarshal (Some exts1) ++
     extractEmbeddedSCTs Unmarshal (Some exts2)) /\
  (forall cert,
     Forall (fun sct => SCT.Source sct = SCTSourceEmbedded /\
                        length (SCT.LogID sct) = 32%nat)
            (extractEmbeddedSCTs Unmarshal cert)) /\
  (forall ext exts,
     Id ext <> oidSCTList \/
     Unmarshal (Value ext) = None \/
     (exists b, Unmarshal (Value ext) = Some b /\
                (length b <
                 2 + Z.to_nat (BigEndianUint16 (slice b 0 2)))%nat) ->
     extractEmbeddedSCTs Unmarshal (Some (ext :: exts)) =
     extractEmbeddedSCTs Unmarshal (Some exts)).
Proof.
  split_and!.
  - reflexivity.
  - intros exts1 exts2. cbn [extractEmbeddedSCTs].
    rewrite foldl_app. apply extract_foldl.
  - intros [exts |]; [| constructor]. cbn [extractEmbeddedSCTs].
    assert (HP : forall data sct,
              parseSCT data SCTSourceEmbedded = inl sct ->
              SCT.Source sct = SCTSourceEmbedded /\
              length (SCT.LogID sct) = 32%nat).
    { intros data sct. unfold parseSCT.
      destruct (Nat.ltb_spec (length data) sctMinSize) as [| Hl];
        [discriminate |].
      destruct (negb _); [discriminate |]. intros [= <-].
      cbn [SCT.Source SCT.LogID]. split; [reflexivity |]. rewrite slice_length; [reflexivity |].
      unfold sctMinSize, sctLogIDOffset, sctLogIDSize in *. lia. }
    assert (H : forall scts,
              Forall (fun sct => SCT.Source sct = SCTSourceEmbedded /\
                                 length (SCT.LogID sct) = 32%nat) scts ->
              Forall (fun sct => SCT.Source sct = SCTSourceEmbedded /\
                                 length (SCT.LogID sct) = 32%nat)
                     (foldl (extractFromExtension Unmarshal) scts exts)).
    { induction exts as [| ext exts IH]; intros scts HF; [assumption |].
      cbn [foldl]. apply IH. now apply extractFromExtension_Forall. }
    apply H. constructor.
  - intros ext exts Hskip. cbn [extractEmbeddedSCTs foldl].
    replace (extractFromExtension Unmarshal [] ext) with (@nil SCT.t);
      [reflexivity |].
    unfold extractFromExtension.
    destruct Hskip as [Hid | [Hu | (b & Hu & Hb)]].
    + now rewrite bool_decide_eq_false_2.
    + destruct (negb _); [reflexivity |]. now rewrite Hu.
    + destruct (negb _); [reflexivity |]. rewrite Hu.
      unfold sctLengthPrefixSize.
      destruct (Nat.ltb_spec (length b) 2); [reflexivity |].
      destruct (Nat.ltb_spec (length b)
                  (2 + Z.to_nat (BigEndianUint16 (slice b 0 2))));
        [reflexivity | lia].
Qed.

Lemma extractEmbeddedSCTs_extensions_witness :
  extractEmbeddedSCTs sampleUnmarshal
    (Some [{| Id := [2; 5; 29; 15]; Value := [4; 2; 0; 0] |};
           {| Id := oidSCTList; Value := [4; 2; 0; 0] |}]) =
  extractEmbeddedSCTs sampleUnmarshal
    (Some [{| Id := oidSCTList; Value := [4; 2; 0; 0] |}]).
Proof.
  apply (proj2 (proj2 (proj2
           (extractEmbeddedSCTs_extensions sampleUnmarshal)))).
  left. discriminate.
Defined.

(** X19: [FetchCertChain] takes an endpoint without colon as the host
    and dials it at port 443; an endpoint with a colon is dialled as it
    is, and its host is what precedes the last colon.  It fails when the
    connection fails or no certificate is received.  Otherwise the chain
    has the host as endpoint, the first certificate as server
    certificate, the others as intermediates, and as SCTs those of the
    TLS extension that [parseSCT] accepts, in order and with the source
    [SCTSourceTLS], followed by the embedded ones of the server
    certificate. *)
Theorem FetchCertChain_chain
  (Unmarshal : list Z -> option (list Z))
  (Dial : list ascii -> ConnectionState + string)
  (Extensions : Certificate.t -> list Extension) (endpoint : string) :
  (~ In ":"%char (chars endpoint) ->
   normalize (chars endpoint) =
   (chars endpoint, chars endpoint ++ chars ":443")) /\
  (In ":"%char (chars endpoint) ->
   exists host port,
     chars endpoint = host ++ ":"%char :: port /\ ~ In ":"%char port /\
     normalize (chars endpoint) = (host, chars endpoint)) /\
  match Dial (snd (normalize (chars endpoint))) with
  | inr e =>
      FetchCertChain Unmarshal Dial Extensions endpoint =
      inr (ErrConnection e)
  | inl state =>
      match PeerCertificates state with
      | [] =>
          FetchCertChain Unmarshal Dial Extensions endpoint =
          inr ErrNoCertificates
      | serverCert :: intermediates =>
          FetchCertChain Unmarshal Dial Extensions endpoint =
          inl {| CertChain.Endpoint := str (fst (normalize (chars endpoint)));
                 CertChain.ServerCert := serverCert;
                 CertChain.Intermediates := intermediates;
                 CertChain.SCTs :=
                   parsedEntries SCTSourceTLS
                     (SignedCertificateTimestamps state) ++
                   extractEmbeddedSCTs Unmarshal
                     (Some (Extensions serverCert)) |}
      end
  end.
Proof.
  split_and!.
  - intros Hn. unfold normalize.
    now rewrite (proj2 (lastIndex_None ":" (chars endpoint)) Hn).
  - intros Hin. unfold normalize.
    destruct (lastIndex ":" (chars endpoint)) as [i |] eqn:E.
    + destruct (lastIndex_Some _ _ _ E) as (rest & Hs & Hn & _).
      exists (take i (chars endpoint)), rest. auto.
    + apply lastIndex_None in E. contradiction.
  - unfold FetchCertChain.
    destruct (normalize (chars endpoint)) as [host addr]. cbn [fst snd].
    destruct (Dial addr) as [state | e]; [| reflexivity].
    destruct (PeerCertificates state) as [| serverCert intermediates];
      [reflexivity |].
    do 2 f_equal.
    assert (H : forall l scts,
              foldl (fun scts sctBytes =>
                       appendParsed scts sctBytes SCTSourceTLS) scts l =
              scts ++ parsedEntries SCTSourceTLS l).
    { induction l as [| e l IH]; intros scts; cbn [foldl].
      - unfold parsedEntries. cbn. now rewrite app_nil_r.
      - rewrite IH, parsedEntries_cons. unfold appendParsed.
        destruct (parseSCT e SCTSourceTLS);
          [now rewrite <- app_assoc | reflexivity]. }
    now rewrite H.
Qed.

Lemma FetchCertChain_chain_witness :
  exists host port,
    chars "[::1]:8443" = host ++ ":"%char :: port /\ ~ In ":"%char port /\
    normalize (chars "[::1]:8443") = (host, chars "[::1]:8443").
Proof.
  apply (proj1 (proj2 (FetchCertChain_chain sampleUnmarshal
                         (fun _ => inr "refused") (fun _ => [])
                         "[::1]:8443"))).
  cbn. tauto.
Defined.

End fetcherChainClaims.

(* ===================================================================== *)
(** * The order of versions                                               *)
(* ===================================================================== *)

Module orderFacts.
Import version versionFacts.

(** A comparison with values in [Z] that is antisymmetric and
    transitive gives a strict weak order. *)
Section Comparison.
Context {A : Type} (cmp : A -> A -> Z).
Hypothesis cmp_antisym : forall x y, cmp y x = - cmp x y.
Hypothesis cmp_trans :
  forall x y z, cmp x y <= 0 -> cmp y z <= 0 -> cmp x z <= 0.

Lemma cmp_refl x : cmp x x = 0.
Proof. pose proof (cmp_antisym x x). lia. Qed.

Lemma cmp_lt_trans x y z : cmp x y < 0 -> cmp y z < 0 -> cmp x z < 0.
Proof.
  intros Hxy Hyz.
  destruct (Z_lt_le_dec (cmp x z) 0) as [| Hge]; [assumption |].
  assert (Hzx : cmp z x <= 0) by (rewrite cmp_antisym; lia).
  pose proof (cmp_trans z x y Hzx ltac:(lia)) as Hzy.
  rewrite cmp_antisym in Hzy. lia.
Qed.

Lemma cmp_ge_trans x y z : 0 <= cmp x y -> 0 <= cmp y z -> 0 <= cmp x z.
Proof.
  intros Hxy Hyz.
  assert (H1 : cmp z y <= 0) by (rewrite cmp_antisym; lia).
  assert (H2 : cmp y x <= 0) by (rewrite cmp_antisym; lia).
  pose proof (cmp_trans z y x H1 H2) as H. rewrite cmp_antisym in H. lia.
Qed.

End Comparison.

Lemma lexOrder_antisym a b : lexOrder b a = - lexOrder a b.
Proof.
  unfold lexOrder. rewrite (String.compare_antisym b a).
  destruct (String.compare a b); reflexivity.
Qed.

Lemma lexOrder_eq a b : lexOrder a b = 0 <-> a = b.
Proof.
  unfold lexOrder. split.
  - intros H. apply String.compare_eq_iff.
    destruct (String.compare a b); [reflexivity | lia | lia].
  - intros ->.
    pose proof (proj2 (OrderedTypeEx.String_as_OT.cmp_eq b b) eq_refl) as E.
    unfold OrderedTypeEx.String_as_OT.cmp in E. now rewrite E.
Qed.

Lemma lexOrder_lt a b :
  lexOrder a b < 0 <-> OrderedTypeEx.String_as_OT.lt a b.
Proof.
  rewrite <- OrderedTypeEx.String_as_OT.cmp_lt.
  unfold lexOrder, OrderedTypeEx.String_as_OT.cmp.
  destruct (String.compare a b); split; intros H;
    first [reflexivity | discriminate H | lia | exfalso; lia].
Qed.

Lemma lexOrder_trans a b c :
  lexOrder a b <= 0 -> lexOrder b c <= 0 -> lexOrder a c <= 0.
Proof.
  intros Hab Hbc.
  destruct (Z.eq_dec (lexOrder a b) 0) as [E | E];
    [apply lexOrder_eq in E; now subst |].
  destruct (Z.eq_dec (lexOrder b c) 0) as [E' | E'];
    [apply lexOrder_eq in E'; now subst |].
  assert (H : lexOrder a c < 0); [| lia].
  apply lexOrder_lt.
  apply (OrderedTypeEx.String_as_OT.lt_trans a b c);
    apply lexOrder_lt; lia.
Qed.

Lemma strLess_lexOrder a b : strLess a b = (lexOrder a b <? 0).
Proof.
  unfold strLess, String.ltb, lexOrder.
  destruct (String.compare a b); reflexivity.
Qed.

Section WithSemver.
Context {L : Semver.Lib} {LO : SemverOrder.OrderLaws L}.

Lemma Compare_antisym a b : Compare b a = - Compare a b.
Proof.
  destruct (String.eqb_spec a Current) as [-> | Ha];
    destruct (String.eqb_spec b Current) as [-> | Hb].
  - now rewrite Compare_current_current.
  - now rewrite Compare_current_l, Compare_current_r.
  - now rewrite Compare_current_l, Compare_current_r.
  - rewrite !Compare_plain by assumption.
    destruct (Semver.NewVersion a), (Semver.NewVersion b);
      try reflexivity.
    + apply SemverOrder.Compare_antisym.
    + apply lexOrder_antisym.
Qed.

Lemma Compare_le_Current a : Compare a Current <= 0.
Proof.
  destruct (String.eqb_spec a Current) as [-> | Ha].
  - now rewrite Compare_current_current.
  - now rewrite Compare_current_r.
Qed.

Lemma Compare_trans a b c :
  Compare a b <= 0 -> Compare b c <= 0 -> Compare a c <= 0.
Proof.
  destruct (String.eqb_spec c Current) as [-> | Hc];
    [intros _ _; apply Compare_le_Current |].
  destruct (String.eqb_spec b Current) as [-> | Hb];
    [rewrite (Compare_current_l c) by assumption; lia |].
  destruct (String.eqb_spec a Current) as [-> | Ha];
    [rewrite (Compare_current_l b) by assumption; lia |].
  rewrite !Compare_plain by assumption.
  destruct (Semver.NewVersion a) as [va |],
           (Semver.NewVersion b) as [vb |],
           (Semver.NewVersion c) as [vc |]; try lia.
  - apply SemverOrder.Compare_trans.
  - apply lexOrder_trans.
Qed.

End WithSemver.

(** The model of the version library is a total preorder. *)
Lemma sign_antisym x y : Semver.sign y x = - Semver.sign x y.
Proof.
  unfold Semver.sign.
  destruct (Z.ltb_spec x y), (Z.ltb_spec y x); lia.
Qed.

Lemma sign_zero x y : Semver.sign x y = 0 <-> x = y.
Proof.
  unfold Semver.sign.
  destruct (Z.ltb_spec x y), (Z.ltb_spec y x); lia.
Qed.

Lemma compareLex_antisym a : forall b,
  Semver.compareLex b a = - Semver.compareLex a b.
Proof.
  induction a as [| x a IH]; intros [| y b]; try reflexivity.
  cbn [Semver.compareLex]. rewrite (sign_antisym x y).
  destruct (Z.eqb_spec (Semver.sign x y) 0) as [E | E].
  - rewrite E. cbn. apply IH.
  - destruct (Z.eqb_spec (- Semver.sign x y) 0); [lia | reflexivity].
Qed.

Lemma compareLex_trans a : forall b c,
  length a = length b -> length b = length c ->
  Semver.compareLex a b <= 0 -> Semver.compareLex b c <= 0 ->
  Semver.compareLex a c <= 0.
Proof.
  induction a as [| x a IH]; intros [| y b] [| z c] Hab Hbc;
    try discriminate Hab; try discriminate Hbc.
  { cbn. lia. }
  cbn [Semver.compareLex]. injection Hab as Hab. injection Hbc as Hbc.
  destruct (Z.eqb_spec (Semver.sign x y) 0) as [Exy | Exy];
    destruct (Z.eqb_spec (Semver.sign y z) 0) as [Eyz | Eyz];
    destruct (Z.eqb_spec (Semver.sign x z) 0) as [Exz | Exz];
    revert Exy Eyz Exz; unfold Semver.sign;
    destruct (Z.ltb_spec x y), (Z.ltb_spec y x), (Z.ltb_spec y z),
             (Z.ltb_spec z y), (Z.ltb_spec x z), (Z.ltb_spec z x);
    intros; try lia.
  now apply (IH b c).
Qed.

Lemma compareLex_refl a : Semver.compareLex a a = 0.
Proof. pose proof (compareLex_antisym a a). lia. Qed.

Lemma compareLex_app u : forall v z,
  length u = length v ->
  Semver.compareLex (u ++ z) (v ++ z) = Semver.compareLex u v.
Proof.
  induction u as [| x u IH]; intros [| y v] z Hl; try discriminate.
  - cbn. apply compareLex_refl.
  - cbn [app Semver.compareLex]. injection Hl as Hl.
    destruct (Semver.sign x y =? 0); [now apply IH | reflexivity].
Qed.

Lemma pad_more n m a :
  (length a <= m)%nat -> (m <= n)%nat ->
  Semver.pad n a = Semver.pad m a ++ repeat 0 (n - m).
Proof.
  intros H1 H2. unfold Semver.pad. rewrite <- app_assoc, <- repeat_app.
  do 2 f_equal. lia.
Qed.

Lemma length_pad n a : (length a <= n)%nat -> length (Semver.pad n a) = n.
Proof.
  intros H. unfold Semver.pad. rewrite length_app, repeat_length. lia.
Qed.

Lemma compareComponents_pad n a b :
  (length a <= n)%nat -> (length b <= n)%nat ->
  Semver.compareComponents a b =
  Semver.compareLex (Semver.pad n a) (Semver.pad n b).
Proof.
  intros Ha Hb. unfold Semver.compareComponents.
  set (m := Nat.max (length a) (length b)).
  rewrite (pad_more n m a), (pad_more n m b) by lia.
  rewrite compareLex_app; [reflexivity |].
  rewrite !length_pad by lia. reflexivity.
Qed.

#[export] Instance specLib_order : SemverOrder.OrderLaws Semver.specLib.
Proof.
  split.
  - intros v w. cbn. unfold Semver.compareComponents.
    rewrite (Nat.max_comm (length w)). apply compareLex_antisym.
  - intros u v w. cbn.
    set (n := Nat.max (length u) (Nat.max (length v) (length w))).
    rewrite (compareComponents_pad n u v), (compareComponents_pad n v w),
            (compareComponents_pad n u w) by lia.
    apply compareLex_trans; rewrite !length_pad by lia; reflexivity.
Qed.

End orderFacts.

Module orderClaims.
Import truststore version versionFacts orderFacts.

(** X20: when the comparison of the version library is a total
    preorder, so is [Compare] on all strings: it is antisymmetric and
    transitive, with the sentinel as greatest element.  Hence [LessThan]
    (and [CompareAsc], the same function) is a strict weak order, as
    [sort.Slice] needs: irreflexive, transitive, and with a transitive
    complement; and [GreaterOrEqual] is its negation. *)
Theorem Compare_total_preorder {L : Semver.Lib}
  {LO : SemverOrder.OrderLaws L} :
  (forall a b, Compare b a = - Compare a b) /\
  (forall a b c, Compare a b <= 0 -> Compare b c <= 0 -> Compare a c <= 0) /\
  (forall a, Compare a Current <= 0) /\
  (forall a, LessThan a a = false) /\
  (forall a b c, LessThan a b = true -> LessThan b c = true ->
                 LessThan a c = true) /\
  (forall a b c, LessThan a b = false -> LessThan b c = false ->
                 LessThan a c = false) /\
  (forall a b, GreaterOrEqual a b = negb (LessThan a b)) /\
  (forall a b, CompareAsc a b = LessThan a b).
Proof.
  split_and!.
  - apply Compare_antisym.
  - apply Compare_trans.
  - apply Compare_le_Current.
  - intros a. unfold LessThan.
    rewrite (cmp_refl Compare Compare_antisym). reflexivity.
  - intros a b c. unfold LessThan. rewrite !Z.ltb_lt.
    apply (cmp_lt_trans Compare Compare_antisym Compare_trans).
  - intros a b c. unfold LessThan. rewrite !Z.ltb_ge.
    apply (cmp_ge_trans Compare Compare_antisym Compare_trans).
  - intros a b. unfold GreaterOrEqual, LessThan.
    rewrite Z.geb_leb. destruct (Z.ltb_spec (Compare a b) 0);
      [apply Z.leb_gt; lia | apply Z.leb_le; lia].
  - reflexivity.
Qed.

Lemma Compare_total_preorder_witness :
  LessThan (L := Semver.specLib) "9" "current" = true.
Proof.
  destruct (Compare_total_preorder (L := Semver.specLib))
    as (_ & _ & _ & _ & Ht & _).
  apply (Ht "9" "17.4" "current"); vm_compute; reflexivity.
Defined.

End orderClaims.

Module comparatorFacts.
Import truststore version versionFacts orderFacts output outputSpec.
Section WithSemver.
Context {L : Semver.Lib} {LO : SemverOrder.OrderLaws L}.

Lemma resultLess_compare x y : resultLess x y = (resultCompare x y <? 0).
Proof.
  unfold resultLess, resultCompare.
  destruct (String.eqb _ _); cbn [negb]; [reflexivity |].
  apply strLess_lexOrder.
Qed.

Lemma resultCompare_antisym x y : resultCompare y x = - resultCompare x y.
Proof.
  unfold resultCompare. rewrite String.eqb_sym.
  destruct (String.eqb _ _);
    [apply Compare_antisym | apply lexOrder_antisym].
Qed.

Lemma lexOrder_neq a b : a <> b -> lexOrder a b <> 0.
Proof. intros Hne E. now apply lexOrder_eq in E. Qed.

Lemma resultCompare_trans x y z :
  resultCompare x y <= 0 -> resultCompare y z <= 0 -> resultCompare x z <= 0.
Proof.
  unfold resultCompare.
  destruct (String.eqb_spec (PlatformVersion.Platform x)
                            (PlatformVersion.Platform y)) as [Exy | Exy];
    destruct (String.eqb_spec (PlatformVersion.Platform y)
                              (PlatformVersion.Platform z)) as [Eyz | Eyz];
    destruct (String.eqb_spec (PlatformVersion.Platform x)
                              (PlatformVersion.Platform z)) as [Exz | Exz];
    try congruence.
  - apply Compare_trans.
  - intros H1 H2. exfalso.
    pose proof (lexOrder_neq _ _ Exy). pose proof (lexOrder_neq _ _ Eyz).
    rewrite <- Exz in H2.
    rewrite (lexOrder_antisym (PlatformVersion.Platform x)) in H2. lia.
  - apply lexOrder_trans.
Qed.

Lemma strLess_lt a b : strLess a b = true <-> lexOrder a b < 0.
Proof. rewrite strLess_lexOrder. apply Z.ltb_lt. Qed.

Lemma lexOrder_lt_trans a b c :
  lexOrder a b < 0 -> lexOrder b c < 0 -> lexOrder a c < 0.
Proof.
  apply (cmp_lt_trans lexOrder lexOrder_antisym lexOrder_trans).
Qed.

Lemma entryLess_iff e f :
  entryLess e f = true <->
  lexOrder (Platform e) (Platform f) < 0 \/
  (Platform e = Platform f /\ Version e <> Version f /\
   Compare (Version e) (Version f) < 0) \/
  (Platform e = Platform f /\ Version e = Version f /\
   lexOrder (Issuer e) (Issuer f) < 0).
Proof.
  unfold entryLess.
  destruct (String.eqb_spec (Platform e) (Platform f)) as [Ep | Ep];
    cbn [negb].
  - assert (Hp : ~ lexOrder (Platform e) (Platform f) < 0).
    { rewrite (proj2 (lexOrder_eq _ _) Ep). lia. }
    destruct (String.eqb_spec (Version e) (Version f)) as [Ev | Ev];
      cbn [negb].
    + rewrite strLess_lt. tauto.
    + unfold CompareAsc, LessThan. rewrite Z.ltb_lt. tauto.
  - rewrite strLess_lt. tauto.
Qed.

End WithSemver.
End comparatorFacts.

Module comparatorClaims.
Import truststore version versionFacts orderFacts output outputSpec
       comparatorFacts.

(** The complement of [entryLess] is not transitive: two entries with
    the versions ["15"] and ["15.0"] are never ordered, whatever their
    issuers, while two entries with the same version are ordered by
    issuer. *)
Example entryLess_not_weak :
  entryLess (L := Semver.specLib) (entry "15" "B") (entry "15.0" "C") = false /\
  entryLess (L := Semver.specLib) (entry "15.0" "C") (entry "15" "A") = false /\
  entryLess (L := Semver.specLib) (entry "15" "B") (entry "15" "A") = false /\
  entryLess (L := Semver.specLib) (entry "15" "A") (entry "15" "B") = true /\
  entryLess (L := Semver.specLib) (entry "15" "A") (entry "15.0" "C") = false /\
  entryLess (L := Semver.specLib) (entry "15.0" "C") (entry "15" "B") = false.
Proof. vm_compute. repeat split. Qed.

(** X21: the functions handed to [sort.Slice] are strict orders when
    the comparison of the version library is a total preorder.  The
    function of [NewValidationOutput] (by platform, then by version) is
    a strict weak order: irreflexive, transitive, and with a transitive
    complement.  The function of [StoreList.sort] (by platform, then by
    version, then by issuer) is irreflexive and transitive. *)
Theorem sort_comparators {L : Semver.Lib} {LO : SemverOrder.OrderLaws L} :
  (forall x, resultLess x x = false) /\
  (forall x y z, resultLess x y = true -> resultLess y z = true ->
                 resultLess x z = true) /\
  (forall x y z, resultLess x y = false -> resultLess y z = false ->
                 resultLess x z = false) /\
  (forall e, entryLess e e = false) /\
  (forall e f g, entryLess e f = true -> entryLess f g = true ->
                 entryLess e g = true).
Proof.
  split_and!.
  - intros x. rewrite resultLess_compare.
    rewrite (cmp_refl resultCompare resultCompare_antisym). reflexivity.
  - intros x y z. rewrite !resultLess_compare, !Z.ltb_lt.
    apply (cmp_lt_trans resultCompare resultCompare_antisym
             resultCompare_trans).
  - intros x y z. rewrite !resultLess_compare, !Z.ltb_ge.
    apply (cmp_ge_trans resultCompare resultCompare_antisym
             resultCompare_trans).
  - intros e. apply not_true_iff_false. rewrite entryLess_iff.
    rewrite (proj2 (lexOrder_eq (Platform e) (Platform e)) eq_refl).
    rewrite (proj2 (lexOrder_eq (Issuer e) (Issuer e)) eq_refl).
    intros [H | [(_ & H & _) | (_ & _ & H)]]; [lia | congruence | lia].
  - intros e f g. rewrite !entryLess_iff.
    intros [H1 | [(P1 & V1 & C1) | (P1 & V1 & I1)]]
           [H2 | [(P2 & V2 & C2) | (P2 & V2 & I2)]].
    + left. now apply (lexOrder_lt_trans _ (Platform f)).
    + left. now rewrite <- P2.
    + left. now rewrite <- P2.
    + left. now rewrite P1.
    + right; left.
      assert (C : Compare (Version e) (Version g) < 0)
        by apply (cmp_lt_trans Compare Compare_antisym Compare_trans
                    _ _ _ C1 C2).
      split_and!; [congruence | | assumption].
      intros E. rewrite E in C.
      rewrite (cmp_refl Compare Compare_antisym) in C. lia.
    + right; left. rewrite <- V2. split_and!; [congruence | | ]; assumption.
    + left. now rewrite P1.
    + right; left. rewrite V1. split_and!; [congruence | | ]; assumption.
    + right; right. split_and!; [congruence | congruence |].
      now apply (lexOrder_lt_trans _ (Issuer f)).
Qed.

Lemma sort_comparators_witness :
  resultLess (L := Semver.specLib)
    {| PlatformVersion.Platform := "android"; PlatformVersion.Version := "14" |}
    {| PlatformVersion.Platform := "ios"; PlatformVersion.Version := "9" |} =
  true.
Proof.
  destruct (sort_comparators (L := Semver.specLib)) as (_ & Ht & _).
  apply (Ht _ {| PlatformVersion.Platform := "chrome";
                 PlatformVersion.Version := "current" |});
    vm_compute; reflexivity.
Defined.

End comparatorClaims.

Module chromeFacts.
Import version versionFacts orderFacts chrome.
Section WithSemver.
Context {L : Semver.Lib} {LO : SemverOrder.OrderLaws L}.

Lemma constraintPassesForVersion_iff c ver :
  constraintPassesForVersion c ver = true <->
  (MinVersion c = "" \/ 0 <= Compare ver (MinVersion c)) /\
  (MaxVersionExcl c = "" \/ Compare ver (MaxVersionExcl c) < 0).
Proof.
  unfold constraintPassesForVersion, GreaterOrEqual, LessThan.
  destruct (String.eqb_spec (MinVersion c) "") as [Emin | Emin];
    destruct (String.eqb_spec (MaxVersionExcl c) "") as [Emax | Emax];
    cbn [andb negb].
  - tauto.
  - destruct (Z.ltb_spec (Compare ver (MaxVersionExcl c)) 0); cbn [negb];
      split; try discriminate; try tauto.
    intros (_ & [? | ?]); [contradiction | lia].
  - rewrite Z.geb_leb.
    destruct (Z.leb_spec 0 (Compare ver (MinVersion c))); cbn [negb];
      split; try discriminate; try tauto.
    intros ([? | ?] & _); [contradiction | lia].
  - rewrite Z.geb_leb.
    destruct (Z.leb_spec 0 (Compare ver (MinVersion c))); cbn [negb].
    + destruct (Z.ltb_spec (Compare ver (MaxVersionExcl c)) 0); cbn [negb];
        split; try discriminate; try tauto.
      intros (_ & [? | ?]); [contradiction | lia].
    + split; [discriminate |].
      intros ([? | ?] & _); [contradiction | lia].
Qed.

End WithSemver.
End chromeFacts.

Module chromeClaims.
Import version versionFacts orderFacts chrome chromeFacts.

(** X22: a constraint block of Chrome passes for a version exactly
    when the version is at least [MinVersion] (if set) and below
    [MaxVersionExcl] (if set).  When the comparison of the version
    library is a total preorder, the versions for which a block passes
    form an interval: between two versions that pass, every version
    passes; a block whose upper bound is not above its lower bound
    passes for no version; and the sentinel ["current"] passes exactly
    when the block has no upper bound.  An anchor is trusted in a
    version when it has no constraint block or one of its blocks
    passes. *)
Theorem constraintPassesForVersion_interval {L : Semver.Lib}
  {LO : SemverOrder.OrderLaws L} (c : ChromeConstraint) :
  (forall ver,
     constraintPassesForVersion c ver = true <->
     (MinVersion c = "" \/ 0 <= Compare ver (MinVersion c)) /\
     (MaxVersionExcl c = "" \/ Compare ver (MaxVersionExcl c) < 0)) /\
  (forall v1 v2 v3,
     constraintPassesForVersion c v1 = true ->
     constraintPassesForVersion c v3 = true ->
     Compare v1 v2 <= 0 -> Compare v2 v3 <= 0 ->
     constraintPassesForVersion c v2 = true) /\
  (MinVersion c <> "" -> MaxVersionExcl c <> "" ->
   Compare (MaxVersionExcl c) (MinVersion c) <= 0 ->
   forall ver, constraintPassesForVersion c ver = false) /\
  (constraintPassesForVersion c Current = true <-> MaxVersionExcl c = "") /\
  (forall anchor ver,
     isTrustedInVersion anchor ver = true <->
     Constraints anchor = [] \/
     exists c', In c' (Constraints anchor) /\
                constraintPassesForVersion c' ver = true).
Proof.
  split_and!.
  - apply constraintPassesForVersion_iff.
  - intros v1 v2 v3. rewrite !constraintPassesForVersion_iff.
    intros [L1 U1] [L3 U3] H12 H23. split.
    + destruct L1 as [? | L1]; [now left | right].
      assert (H : Compare (MinVersion c) v1 <= 0)
        by (rewrite Compare_antisym; lia).
      pose proof (Compare_trans _ _ _ H H12) as H'.
      rewrite Compare_antisym in H'. lia.
    + destruct U3 as [? | U3]; [now left | right].
      destruct (Z_lt_le_dec (Compare v2 (MaxVersionExcl c)) 0) as [| Hge];
        [assumption |].
      assert (H : Compare (MaxVersionExcl c) v2 <= 0)
        by (rewrite Compare_antisym; lia).
      pose proof (Compare_trans _ _ _ H H23) as H'.
      rewrite Compare_antisym in H'. lia.
  - intros Hmin Hmax Hle ver. apply not_true_iff_false.
    rewrite constraintPassesForVersion_iff.
    intros [[? | Hl] [? | Hu]]; try contradiction.
    assert (H : Compare (MinVersion c) ver <= 0)
      by (rewrite Compare_antisym; lia).
    pose proof (Compare_trans _ _ _ Hle H) as H'.
    rewrite Compare_antisym in H'. lia.
  - rewrite constraintPassesForVersion_iff. split.
    + intros [_ [? | Hu]]; [assumption |].
      pose proof (Compare_le_Current (MaxVersionExcl c)) as H.
      rewrite Compare_antisym in H. lia.
    + intros Hu. split; [| now left].
      destruct (String.eqb_spec (MinVersion c) "") as [? | _];
        [now left | right].
      pose proof (Compare_le_Current (MinVersion c)) as H.
      rewrite Compare_antisym in H. lia.
  - intros anchor ver. unfold isTrustedInVersion.
    destruct (Constraints anchor) as [| c0 cs] eqn:E; cbn [length Nat.eqb].
    + split; [now left | reflexivity].
    + rewrite existsb_exists. split.
      * intros H. now right.
      * intros [? | H]; [discriminate | assumption].
Qed.

Lemma constraintPassesForVersion_interval_witness :
  constraintPassesForVersion (L := Semver.specLib)
    {| SCTNotAfterSec := 0; MinVersion := "128"; MaxVersionExcl := "139" |}
    "131.0.2" = true.
Proof.
  destruct (constraintPassesForVersion_interval (L := Semver.specLib)
              {| SCTNotAfterSec := 0; MinVersion := "128";
                 MaxVersionExcl := "139" |}) as (_ & Hi & _).
  apply (Hi "128" "131.0.2" "138"); vm_compute; first [reflexivity | discriminate].
Defined.

End chromeClaims.
(* ===================================================================== *)
(** * The commands                                                        *)
(* ===================================================================== *)

Module certvetCmdFacts.
Import GoString Fingerprint FingerprintOps truststore certvetCmd.

Section WithHost.
Context {L : Semver.Lib} {H : validator.Host}.

Lemma formatConstraints_empty c :
  formatConstraints c = "" <-> Constraints.IsEmpty c = true.
Proof.
  unfold formatConstraints.
  destruct c as [[a |] [b |] [d |]]; cbn; split; try discriminate;
    reflexivity.
Qed.

Lemma buildListEntries_flat_map listWide stores jsonMode :
  buildListEntries listWide stores jsonMode =
  flat_map (fun store => map (listEntry listWide store jsonMode)
                             (Store.Fingerprints store)) stores.
Proof.
  unfold buildListEntries.
  assert (Hin : forall store fps entries,
            foldl (fun entries fp =>
                     entries ++ [listEntry listWide store jsonMode fp])
                  entries fps =
            entries ++ map (listEntry listWide store jsonMode) fps).
  { intros store fps. induction fps as [| fp fps IH]; intros entries; cbn.
    - now rewrite app_nil_r.
    - rewrite IH. symmetry. apply (List.app_assoc entries [_]). }
  assert (Hout : forall stores entries,
            foldl (fun entries store =>
                     foldl (fun entries fp =>
                              entries ++ [listEntry listWide store jsonMode fp])
                           entries (Store.Fingerprints store))
                  entries stores =
            entries ++
            flat_map (fun store => map (listEntry listWide store jsonMode)
                                       (Store.Fingerprints store)) stores).
  { clear stores. intros stores.
    induction stores as [| store stores IH]; intros entries; cbn.
    - now rewrite app_nil_r.
    - rewrite IH, Hin. symmetry. apply List.app_assoc. }
  apply Hout.
Qed.

Lemma Truncate_4_length f :
  length f = sha256Size -> length (chars (Truncate f 4)) = 14%nat.
Proof.
  intros Hl. unfold Truncate.
  change (4 <=? 0) with false. change (4 >=? Z.of_nat sha256Size) with false.
  change (Z.to_nat 4) with 4%nat. cbv iota.
  rewrite FingerprintOpsFacts.chars_str, length_app.
  do 4 (destruct f as [| ? f]; [discriminate |]). reflexivity.
Qed.

Lemma ValidateChain_length clock sched chain stores :
  length (validator.ValidateChain clock sched chain stores) = length stores.
Proof.
  unfold validator.ValidateChain.
  destruct (Nat.eqb_spec (length stores) 0) as [E | E]; [now rewrite E |].
  now rewrite validatorFacts.runTasks_length, length_replicate.
Qed.

Lemma ValidateChain_all clock sched chain stores :
  sched ≡ₚ seq 0 (length stores) ->
  forallb TrustResult.Trusted
    (validator.ValidateChain clock sched chain stores) = true <->
  forall i s, stores !! i = Some s ->
    TrustResult.Trusted (validator.validateAgainstStore (clock i) chain s) =
    true.
Proof.
  intros Hp. rewrite forallb_forall. split.
  - intros Hall i s Hs. apply Hall. apply list_elem_of_In.
    apply list_elem_of_lookup. exists i.
    now apply validatorFacts.ValidateChain_lookup.
  - intros Hall r Hr. apply list_elem_of_In in Hr.
    apply list_elem_of_lookup in Hr as (i & Hi).
    pose proof (lookup_lt_Some _ _ _ Hi) as Hlt.
    rewrite ValidateChain_length in Hlt.
    destruct (lookup_lt_is_Some_2 stores i Hlt) as (s & Hs).
    rewrite (validatorFacts.ValidateChain_lookup _ _ _ _ _ _ Hp Hs) in Hi.
    injection Hi as <-. now apply (Hall i s).
Qed.

End WithHost.
End certvetCmdFacts.

Module certvetCmdClaims.
Import GoString Fingerprint FingerprintOps truststore certvetCmd
       certvetCmdFacts Samples.

#[local] Existing Instance testHost.

(** X23: [buildListEntries] gives one entry for each fingerprint of each
    store, in the order of the stores and of their fingerprints, with the
    platform and the version of the store.  The constraints shown are
    empty exactly when the store has no constraints for the fingerprint.
    For a fingerprint of 32 bytes, the text shown in JSON mode or with
    [--wide] parses back to the fingerprint, and otherwise it has 14
    characters (four octets and three dots). *)
Theorem buildListEntries_entries {H : validator.Host} (listWide : bool)
  (stores : list Store.t) (jsonMode : bool) :
  buildListEntries listWide stores jsonMode =
    flat_map (fun store => map (listEntry listWide store jsonMode)
                               (Store.Fingerprints store)) stores /\
  length (buildListEntries listWide stores jsonMode) =
    length (flat_map Store.Fingerprints stores) /\
  (forall store fp,
     let e := listEntry listWide store jsonMode fp in
     output.Platform e = Store.Platform store /\
     output.Version e = Store.Version store /\
     (output.Constraints e = "" <->
      Constraints.IsEmpty (Store.ConstraintFor store fp) = true) /\
     (wf fp -> jsonMode || listWide = true ->
      ParseFingerprint (output.Fingerprint e) = inl fp) /\
     (wf fp -> jsonMode || listWide = false ->
      length (chars (output.Fingerprint e)) = 14%nat)).
Proof.
  split_and!.
  - apply buildListEntries_flat_map.
  - rewrite buildListEntries_flat_map.
    induction stores as [| store stores IH]; [reflexivity |].
    cbn [flat_map]. rewrite !length_app, length_map. now rewrite IH.
  - intros store fp e. subst e. unfold listEntry.
    cbn [output.Platform output.Version output.Constraints
         output.Fingerprint].
    split_and!; try reflexivity.
    + apply formatConstraints_empty.
    + intros Hwf Hm.
      destruct jsonMode, listWide; try discriminate; cbn [negb andb];
        now apply FingerprintFacts.ParseFingerprint_String.
    + intros [Hl _] Hm.
      destruct jsonMode, listWide; try discriminate; cbn [negb andb].
      now apply Truncate_4_length.
Qed.

Lemma buildListEntries_entries_witness :
  ParseFingerprint
    (output.Fingerprint (listEntry false storeAvailable true availableFP)) =
  inl availableFP.
Proof.
  destruct (buildListEntries_entries false [storeAvailable] true)
    as (_ & _ & He).
  destruct (He storeAvailable availableFP) as (_ & _ & _ & Hp & _).
  apply Hp.
  - split; [reflexivity |]. repeat constructor; unfold isByte; lia.
  - reflexivity.
Defined.

(** X24: [runValidate].  An empty filter flag gives no filter, and an
    invalid one ends the command before the endpoint is contacted; then
    a failed connection ends it; then, when no store matches the filter,
    it fails with "no trust stores match filter".  Otherwise the chain is
    validated against the stores that match, in their order, and when
    the output is printed, all stores are reported as passed exactly
    when the validation against every matching store trusts the chain;
    the exit status tells a trust failure otherwise. *)
Theorem runValidate_outcome {L : Semver.Lib} {H : validator.Host}
  (Stores : list Store.t)
  (Unmarshal : list Z -> option (list Z))
  (Dial : list ascii -> fetcherChain.ConnectionState + string)
  (Extensions : Certificate.t -> list fetcherChain.Extension)
  (clock : nat -> Time) (schedule : nat -> list nat) (now : Time)
  (Version : string)
  (sortSlice : (PlatformVersion.t -> PlatformVersion.t -> bool) ->
               list TrustResult.t -> list TrustResult.t)
  (FormatOutput : ValidationReport -> bool -> string + string)
  (validateFilter : string) (validateJSON : bool) (endpoint : string) :
  (forall n, schedule n ≡ₚ seq 0 n) ->
  let run Dial' :=
    runValidate Stores Unmarshal Dial' Extensions clock schedule now Version
                sortSlice FormatOutput validateFilter validateJSON endpoint in
  parseFlag "" = inl None /\
  (forall e, parseFlag validateFilter = inr e ->
     forall Dial', run Dial' = Failed (ErrInvalidFilter e)) /\
  (forall f e,
     parseFlag validateFilter = inl f ->
     fetcherChain.FetchCertChain Unmarshal Dial Extensions endpoint = inr e ->
     run Dial = Failed (ErrFetch e)) /\
  (forall f chain,
     parseFlag validateFilter = inl f ->
     fetcherChain.FetchCertChain Unmarshal Dial Extensions endpoint =
       inl chain ->
     (filter.FilterStores Stores f = [] -> run Dial = Failed ErrNoStores) /\
     (forall result allPassed,
        run Dial = Printed result allPassed ->
        filter.FilterStores Stores f <> [] /\
        (allPassed = true <->
         forall i s, filter.FilterStores Stores f !! i = Some s ->
           TrustResult.Trusted
             (validator.validateAgainstStore (clock i) chain s) = true))).
Proof.
  intros Hsched run. subst run. split_and!.
  - reflexivity.
  - intros e He Dial'. unfold runValidate. now rewrite He.
  - intros f e Hf He. unfold runValidate. now rewrite Hf, He.
  - intros f chain Hf Hc. unfold runValidate. rewrite Hf, Hc. split.
    + intros E. now rewrite E.
    + intros result allPassed.
      destruct (Nat.eqb_spec (length (filter.FilterStores Stores f)) 0)
        as [E | E]; [discriminate |].
      destruct (FormatOutput _ validateJSON) as [r | e]; [| discriminate].
      intros [= _ <-]. split.
      * intros E'. now rewrite E' in E.
      * apply ValidateChain_all, Hsched.
Qed.

Lemma runValidate_outcome_witness :
  runValidate (L := Semver.specLib) [storeAvailable; storeUnresolved]
    fetcherChain.sampleUnmarshal (fun _ => inr "connection refused")
    (fun _ => []) (fun _ => 0) (fun n => seq 0 n) 0 "dev" (fun _ l => l)
    (fun _ _ => inl "") "linux>=1" false "example.com" =
  Failed (ErrInvalidFilter filterParser.ErrInvalidFilter).
Proof.
  refine (proj1 (proj2 (runValidate_outcome (L := Semver.specLib)
            [storeAvailable; storeUnresolved] fetcherChain.sampleUnmarshal
            (fun _ => inr "connection refused") (fun _ => [])
            (fun _ => 0) (fun n => seq 0 n) 0 "dev" (fun _ l => l)
            (fun _ _ => inl "") "linux>=1" false "example.com"
            (fun n => Permutation_refl _)))
          filterParser.ErrInvalidFilter _ _).
  vm_compute. reflexivity.
Defined.

End certvetCmdClaims.
